(** * Nested tree reduction: a shallow embedding of [tree_reduction_MPI.py]

    The development follows the Python module
    [general_reduction/reduction_tree/tree_reduction_MPI.py]:

    - [division_tasks]   the task partitioner,
    - [_loop_subtree_n]  the per-node subtree reducer,
    - [reduction_tree]   the driver (seeding, backward pass, forward rebuild).

    Conventions of the embedding.
    - Python integers are [Z]; node identifiers, which the code uses as
      matrix indices, are [nat].
    - Python/NumPy floats are exact rationals [Q]: every statement below is
      about exact arithmetic, rounding errors of IEEE doubles are not
      modelled. The exception is the two places where the module takes a
      decision that the last bits can change, the test [np.sum(Pi) == 0] of
      line 56 and the sum rounded to three decimals at lines 157-159: the
      sum and the rounding are there what NumPy computes in double
      precision, which are parameters of the model.
    - A NumPy 1-D array is a [list Q], a 2-D array a list of rows.
    - A raised Python exception is a value of [exn]; code that can raise
      returns in [res], stateful code runs in the state-and-error monad [M].
    - The barycenter solvers, [find_process_data], the MPI communicator and
      the iteration order of a Python [set] are not part of the module; they
      are parameters of the sections that need them. *)

From Stdlib Require Import String.
From Stdlib Require Import List ZArith QArith Qround Lia Lqa Bool Permutation.
From Stdlib Require Import SpecFloat.
Import ListNotations.

Set Implicit Arguments.

(** ** Exceptions and the error monad *)

Inductive exn : Set :=
| AssertionError
| UnboundLocalError
| IndexError
| KeyError
| ValueError
| ZeroDivisionError.

Inductive res (A : Type) : Type :=
| Ok (a : A)
| Raise (e : exn).

Arguments Ok {A} a.
Arguments Raise {A} e.

Definition rbind {A B} (m : res A) (k : A -> res B) : res B :=
  match m with
  | Ok a => k a
  | Raise e => Raise e
  end.

Declare Scope res_scope.
Delimit Scope res_scope with res.
Notation "x <- m ;; k" := (rbind m (fun x => k))
  (at level 100, m at next level, right associativity) : res_scope.
Notation "' p <- m ;; k" := (rbind m (fun p => k))
  (at level 100, p pattern, m at next level, right associativity) : res_scope.

(** [l[i]] on a Python list or a NumPy axis, for a non-negative index. *)
Definition index {A} (l : list A) (i : nat) : res A :=
  match nth_error l i with
  | Some a => Ok a
  | None => Raise IndexError
  end.

(** ** The task partitioner *)

Module Partition.

Local Open Scope Z_scope.
Local Open Scope res_scope.

(** [range(a, b)]. *)
Definition py_range (a b : Z) : list Z :=
  map (fun i => a + Z.of_nat i) (seq 0 (Z.to_nat (b - a))).

(** [k] consecutive slices of [sz] elements each. *)
Fixpoint chunks {A} (k sz : nat) (l : list A) : list (list A) :=
  match k with
  | O => []
  | S k' => firstn sz l :: chunks k' sz (skipn sz l)
  end.

(** [np.split(ary, sections)] with an integer [sections]: the length must be
    a multiple of [sections], and [sections] must be positive. *)
Definition np_split {A} (ary : list A) (sections : Z) : res (list (list A)) :=
  let N := Z.of_nat (length ary) in
  if sections =? 0 then Raise ZeroDivisionError
  else if negb (N mod sections =? 0) then Raise ValueError
  else if sections <=? 0 then Raise ValueError
  else Ok (chunks (Z.to_nat sections) (Z.to_nat (N / sections)) ary).

Definition division_tasks (nb_tasks pool_size : Z) : res (list (list Z)) :=
  if pool_size =? 0 then Raise ZeroDivisionError
  else if nb_tasks mod pool_size =? 0 then
    np_split (py_range 0 nb_tasks) pool_size
  else
    let div := nb_tasks / pool_size in
    let congru := nb_tasks mod pool_size in
    rearranged1 <- np_split (py_range 0 (div * congru + congru)) congru ;;
    rearranged2 <-
      np_split (py_range (div * congru + congru) nb_tasks) (pool_size - congru) ;;
    Ok (rearranged1 ++ rearranged2).

End Partition.
Export Partition.

(** ** NumPy arrays over exact rationals *)

Module Np.

Local Open Scope Q_scope.
Local Open Scope res_scope.

Definition vector := list Q.
Definition matrix := list (list Q).

(** [l[i] = v] on an existing position. *)
Fixpoint set_nth {A} (i : nat) (v : A) (l : list A) : list A :=
  match l, i with
  | [], _ => []
  | _ :: l', O => v :: l'
  | x :: l', S i' => x :: set_nth i' v l'
  end.

Fixpoint mapM {A B} (f : A -> res B) (l : list A) : res (list B) :=
  match l with
  | [] => Ok []
  | x :: l' => y <- f x ;; ys <- mapM f l' ;; Ok (y :: ys)
  end.

Definition sum1 (v : vector) : Q := fold_right Qplus 0 v.

(** [np.sum(A)] of a 2-D array. *)
Definition np_sum (A : matrix) : Q := sum1 (map sum1 A).

Definition np_zeros (r c : nat) : matrix := repeat (repeat 0 c) r.

(** [A.clip(eps)]: every entry below [eps] is raised to [eps]. *)
Definition clip1 (eps x : Q) : Q := if Qle_bool eps x then x else eps.
Definition clip (eps : Q) (A : matrix) : matrix := map (map (clip1 eps)) A.

(** [A / s] and [A * s] for a scalar [s]. *)
Definition div_scalar (A : matrix) (s : Q) : matrix := map (map (fun x => x / s)) A.
Definition mul_scalar (A : matrix) (s : Q) : matrix := map (map (fun x => x * s)) A.

(** [A[j, i]] and [A[j, i] = v]. *)
Definition mget (A : matrix) (j i : nat) : res Q :=
  row <- index A j ;; index row i.

Definition mset (A : matrix) (j i : nat) (v : Q) : res matrix :=
  row <- index A j ;;
  _ <- index row i ;;
  Ok (set_nth j (set_nth i v row) A).

(** [A[rows, :]] and [A[:, cols]] with index lists. *)
Definition take_rows (A : matrix) (rows : list nat) : res matrix :=
  mapM (index A) rows.
Definition take_cols (A : matrix) (cols : list nat) : res matrix :=
  mapM (fun row => mapM (index row) cols) A.

(** [A[:, a:a+n]]: slices never raise. *)
Definition slice_cols (A : matrix) (a n : nat) : matrix :=
  map (fun row => firstn n (skipn a row)) A.

(** [np.expand_dims(v, axis=0)]. *)
Definition expand_dims0 (v : vector) : matrix := [v].

(** Broadcasting of one axis to length [n]. *)
Definition bdim (a b : nat) : res nat :=
  if (a =? b)%nat then Ok a
  else if (a =? 1)%nat then Ok b
  else if (b =? 1)%nat then Ok a
  else Raise ValueError.

Definition bcast {A} (n : nat) (l : list A) : list A :=
  if (length l =? n)%nat then l
  else match l with
       | [x] => repeat x n
       | _ => l
       end.

Definition zip_bcast {A B} (f : A -> A -> res B) (u v : list A) : res (list B) :=
  n <- bdim (length u) (length v) ;;
  mapM (fun p => f (fst p) (snd p)) (combine (bcast n u) (bcast n v)).

(** [u - v] squared and summed, and [np.multiply(A, B)], both with NumPy's
    broadcasting of axes of length one. *)
Definition sq_dist (u v : vector) : res Q :=
  d <- zip_bcast (fun x y => Ok ((x - y) * (x - y))) u v ;;
  Ok (sum1 d).

Definition np_multiply (A B : matrix) : res matrix :=
  zip_bcast (zip_bcast (fun x y => Ok (x * y))) A B.

(** [np.concatenate(l, axis=1)]. *)
Fixpoint hconcat_rows (A B : matrix) : res matrix :=
  match A, B with
  | [], [] => Ok []
  | ra :: A', rb :: B' => rest <- hconcat_rows A' B' ;; Ok ((ra ++ rb) :: rest)
  | _, _ => Raise ValueError
  end.

Fixpoint np_concatenate1 (l : list matrix) : res matrix :=
  match l with
  | [] => Raise ValueError
  | [A] => Ok A
  | A :: l' => B <- np_concatenate1 l' ;; hconcat_rows A B
  end.

(** [np.max(l)] of a list of integers. *)
Definition np_max (l : list Z) : res Z :=
  match l with
  | [] => Raise ValueError
  | x :: l' => Ok (fold_left Z.max l' x)
  end.

(** [np.round(x, 3)] without representation error: round half to even on
    the scaled value. *)
Definition round_half_even (x : Q) : Z :=
  let f := Qfloor x in
  match Qcompare (x - inject_Z f) (1 # 2) with
  | Lt => f
  | Gt => (f + 1)%Z
  | Eq => if Z.even f then f else (f + 1)%Z
  end.

Definition np_round3 (x : Q) : Q := inject_Z (round_half_even (x * 1000)) / 1000.

End Np.
Export Np.

(** ** Trees: a [networkx] directed graph with staged nodes and weighted edges *)

Module Graph.

Local Open Scope res_scope.

(** [nodes] in insertion order, the [stage] attribute of each node, and the
    weighted edges in insertion order. A [networkx.DiGraph] holds at most one
    edge per ordered pair of nodes. *)
Record DiGraph : Type := mkGraph {
  nodes : list nat;
  stage : nat -> Z;
  edges : list (nat * nat * Q)
}.

Definition src (e : nat * nat * Q) : nat := fst (fst e).
Definition dst (e : nat * nat * Q) : nat := snd (fst e).

(** [G.successors(n)] and [G.predecessors(n)], as lists. *)
Definition successors (g : DiGraph) (n : nat) : list nat :=
  map dst (filter (fun e => src e =? n) (edges g)).

Definition predecessors (g : DiGraph) (n : nat) : list nat :=
  map src (filter (fun e => dst e =? n) (edges g)).

Definition is_edge (m i : nat) (e : nat * nat * Q) : bool :=
  (src e =? m) && (dst e =? i).

(** [g[m][i]['weight']]. *)
Definition weight (g : DiGraph) (m i : nat) : res Q :=
  match find (is_edge m i) (edges g) with
  | Some e => Ok (snd e)
  | None => Raise KeyError
  end.

(** [g[n][j]['weight'] = w] on an existing edge. *)
Definition set_weight (g : DiGraph) (n j : nat) (w : Q) : DiGraph :=
  {| nodes := nodes g;
     stage := stage g;
     edges := map (fun e => if is_edge n j e then (n, j, w) else e) (edges g) |}.

(** [[i for i in g.nodes if g.nodes[i]['stage'] == t]]. *)
Definition nodes_at (g : DiGraph) (t : Z) : list nat :=
  filter (fun i => (stage g i =? t)%Z) (nodes g).

(** *** Well-formed trees *)

Fixpoint nodupb (l : list nat) : bool :=
  match l with
  | [] => true
  | x :: l' => negb (existsb (Nat.eqb x) l') && nodupb l'
  end.

(** A tree rooted at node 0: the nodes are distinct, the edges join nodes
    of the graph, node 0 is at stage 0, is the only node there and has no
    predecessor, and every other node has exactly one predecessor, which is
    a node of the previous stage. *)
Definition has_parent (g : DiGraph) (j : nat) : bool :=
  match predecessors g j with
  | [n] => existsb (Nat.eqb n) (nodes g) && (stage g n =? stage g j - 1)%Z
  | _ => false
  end.

Definition is_root (g : DiGraph) (j : nat) : bool :=
  (j =? 0)%nat && match predecessors g j with [] => true | _ => false end.

Definition wf_tree (g : DiGraph) : bool :=
  nodupb (nodes g)
  && (stage g 0 =? 0)%Z
  && forallb (fun j => if (stage g j =? 0)%Z then is_root g j else has_parent g j)
             (nodes g)
  && forallb (fun e => existsb (Nat.eqb (src e)) (nodes g)
                       && existsb (Nat.eqb (dst e)) (nodes g))
             (edges g).

(** The nodes are numbered from 0 without gap, node 0 included: they index
    the rows or the columns of a matrix with one line per node. *)
Definition compact (g : DiGraph) : bool :=
  existsb (Nat.eqb 0) (nodes g)
  && forallb (fun j => (j <? length (nodes g))%nat) (nodes g).


End Graph.
Export Graph.

(** ** The state-and-error monad of the driver *)

(** The external barycenter solvers a run may call. *)
Inductive solver_call : Set :=
| Call_MAM_MPI
| Call_MAM
| Call_barycenter_IBP
| Call_LP_reduction_nt.

(** The objects a call of [reduction_tree] works on: the two trees, the
    array bound to [Pi], the array bound to [D_ij], and the log of the
    solver calls made so far. *)
Record store : Type := mkStore {
  sG : DiGraph;
  sH : DiGraph;
  sPi : matrix;
  sD : matrix;
  sCalls : list solver_call
}.

Definition M (A : Type) : Type := store -> res A * store.

Definition ret {A} (a : A) : M A := fun s => (Ok a, s).

Definition bind {A B} (m : M A) (k : A -> M B) : M B :=
  fun s =>
    match m s with
    | (Ok a, s') => k a s'
    | (Raise e, s') => (Raise e, s')
    end.

Definition raise {A} (e : exn) : M A := fun s => (Raise e, s).

Definition lift {A} (r : res A) : M A := fun s => (r, s).

Declare Scope M_scope.
Delimit Scope M_scope with M.
Notation "x <- m ;; k" := (bind m (fun x => k))
  (at level 100, m at next level, right associativity) : M_scope.
Notation "' p <- m ;; k" := (bind m (fun p => k))
  (at level 100, p pattern, m at next level, right associativity) : M_scope.
Notation "m ;;; k" := (bind m (fun _ => k))
  (at level 100, right associativity) : M_scope.

Definition get_G : M DiGraph := fun s => (Ok (sG s), s).
Definition get_H : M DiGraph := fun s => (Ok (sH s), s).
Definition get_Pi : M matrix := fun s => (Ok (sPi s), s).
Definition get_D : M matrix := fun s => (Ok (sD s), s).

Definition put_G (g : DiGraph) : M unit :=
  fun s => (Ok tt, mkStore g (sH s) (sPi s) (sD s) (sCalls s)).
Definition put_Pi (P : matrix) : M unit :=
  fun s => (Ok tt, mkStore (sG s) (sH s) P (sD s) (sCalls s)).
Definition put_D (D : matrix) : M unit :=
  fun s => (Ok tt, mkStore (sG s) (sH s) (sPi s) D (sCalls s)).

(** Calling an external solver: the call is logged, its value returned. *)
Definition call {A} (c : solver_call) (v : A) : M A :=
  fun s => (Ok v, mkStore (sG s) (sH s) (sPi s) (sD s) (sCalls s ++ [c])).

(** [Pi[j, i]] and [Pi[j, i] = v] on the store. *)
Definition read_Pi (j i : nat) : M Q :=
  fun s => (mget (sPi s) j i, s).

Definition write_Pi (j i : nat) (v : Q) : M unit :=
  fun s =>
    match mset (sPi s) j i v with
    | Ok P => put_Pi P s
    | Raise e => (Raise e, s)
    end.

(** [for x in l: f x]. *)
Fixpoint forM_ {A} (l : list A) (f : A -> M unit) : M unit :=
  match l with
  | [] => ret tt
  | x :: l' => bind (f x) (fun _ => forM_ l' f)
  end.

(** A loop that also updates local variables [S]. *)
Fixpoint foldM {A S} (f : S -> A -> M S) (l : list A) (acc : S) : M S :=
  match l with
  | [] => ret acc
  | x :: l' => bind (f acc x) (foldM f l')
  end.

(** [enumerate(l)]. *)
Definition enumerate {A} (l : list A) : list (nat * A) :=
  combine (seq 0 (length l)) l.

(** ** What the module imports *)

(** The collaborators of the module: the barycenter solvers (each returning
    the component of its result that the module reads), the leaf-path
    extraction, the size of the MPI communicator, the order in which a
    Python [set] built from a list is iterated, and NumPy's sum and
    rounding on doubles. *)
Class Externals : Type := {
  (** [MAM_MPI(b, M_dist=c, rho=rho, ...)[1]] *)
  MAM_MPI : list vector -> list matrix -> Q -> list matrix;
  (** [MAM(b, M_dist=c, rho=rho, ...)[1]] *)
  MAM : list vector -> list matrix -> Q -> list matrix;
  (** [barycenter_IBP(b_, c_, lambda_sinkhorn=lambda_IBP, ...)[1]] *)
  barycenter_IBP : list vector -> matrix -> Q -> list matrix;
  (** [LP_reduction_nt(c_lp, b)[0]] *)
  LP_reduction_nt : matrix -> list vector -> matrix;
  (** [find_process_data(g)]: per leaf, the root-to-leaf chain, the value
      vector and the probability; last, the horizon. *)
  find_process_data : DiGraph -> list (list nat) * list vector * list Q * Z;
  (** [comm.Get_size()] *)
  comm_size : Z;
  (** [set(l)], as the list of its elements in iteration order. *)
  py_set : list nat -> list nat;
  (** [np.sum(a)] as computed on the doubles of [a], taken in row-major
      order: the additions are rounded, and NumPy chooses their order. *)
  np_sum_f64 : vector -> Q;
  (** [np.round(x, 3)] as computed on the double [x]: the product by 1000
      and the quotient by 1000 around the rounding to an integer are
      rounded too. *)
  np_round3_f64 : Q -> Q
}.

(** The same collaborators, with another leaf-path extraction. *)
Definition with_find_process_data (E : Externals)
    (f : DiGraph -> list (list nat) * list vector * list Q * Z) : Externals :=
  {| MAM_MPI := @MAM_MPI E;
     MAM := @MAM E;
     barycenter_IBP := @barycenter_IBP E;
     LP_reduction_nt := @LP_reduction_nt E;
     find_process_data := f;
     comm_size := @comm_size E;
     py_set := @py_set E;
     np_sum_f64 := @np_sum_f64 E;
     np_round3_f64 := @np_round3_f64 E |}.

(** ** The subtree reducer *)

Module Reducer.

Local Open Scope Q_scope.

(** The record returned by [_loop_subtree_n]. *)
Record output : Type := mkOutput {
  out_Pi_k : list matrix;
  out_D_ij_t : vector;
  out_ancestor_m : list nat;
  out_ancestor_n : list nat
}.

(** The lists filled by the first loop: [b], [dist_matrices], [c] (a dict
    keyed by 0, 1, ..., kept as the list of its values) and [ancestor_m]. *)
Record locals : Type := mkLocals {
  l_b : list vector;
  l_dist_matrices : list matrix;
  l_c : list matrix;
  l_ancestor_m : list nat
}.

Definition in_list (x : nat) (l : list nat) : bool := existsb (Nat.eqb x) l.

(** [[j for j in range(len(nodesX)) if nodesX[j] in children]]. *)
Definition positions (nodesX children : list nat) : list nat :=
  filter (fun j => in_list (nth j nodesX O) children) (seq 0 (length nodesX)).

(** [v = np.zeros(sumS); v[acc:acc + len(p)] = p] for each [p] of [b]. *)
Fixpoint embed (sumS acc : nat) (b : list vector) : list vector :=
  match b with
  | [] => []
  | p :: b' =>
      (repeat 0 acc ++ p ++ repeat 0 (sumS - acc - length p))
        :: embed sumS (acc + length p) b'
  end.

(** [Pi_k.append(Pi_ibp[i_m][:, acc:acc + len(p)])] for each [p] of [b]. *)
Fixpoint split_ibp (acc i_m : nat) (b : list vector) (Pi_ibp : list matrix)
  : res (list matrix) :=
  match b with
  | [] => Ok []
  | p :: b' =>
      (P <- index Pi_ibp i_m ;;
       rest <- split_ibp (acc + length p) (S i_m) b' Pi_ibp ;;
       Ok (slice_cols P acc (length p) :: rest))%res
  end.

(** [Pi_k.append(Pi_lp[:, acc:acc + len(p)])] for each [p] of [b]. *)
Fixpoint split_lp (acc : nat) (b : list vector) (Pi_lp : matrix) : list matrix :=
  match b with
  | [] => []
  | p :: b' => slice_cols Pi_lp acc (length p) :: split_lp (acc + length p) b' Pi_lp
  end.

(** Lines 277-278: clip to [epsilon], then divide by the total. *)
Definition stabilize (epsilon : Q) (P : matrix) : matrix :=
  let P1 := clip epsilon P in
  div_scalar P1 (np_sum P1).

(** One round of the last loop, on the locals [Pi_k] ([None] while the name
    is unbound) and [D_ij_t]. *)
Definition stabilize_step (epsilon : Q) (dist_matrices : list matrix)
    (acc : option (list matrix) * vector) (i_m : nat)
  : res (option (list matrix) * vector) :=
  match fst acc with
  | None => Raise UnboundLocalError
  | Some Pi_k =>
      (P <- index Pi_k i_m ;;
       let P' := stabilize epsilon P in
       dm <- index dist_matrices i_m ;;
       pr <- np_multiply P' dm ;;
       Ok (Some (set_nth i_m P' Pi_k), set_nth i_m (np_sum pr) (snd acc)))%res
  end.

Fixpoint rfold {A S} (f : S -> A -> res S) (l : list A) (acc : S) : res S :=
  match l with
  | [] => Ok acc
  | x :: l' => rbind (f acc x) (rfold f l')
  end.

Section WithExternals.

Context {E : Externals}.

Local Open Scope M_scope.

(** One round of the first loop (lines 201-219). *)
Definition collect_m (t : Z) (nodesH children_ni : list nat) (n : nat)
    (acc : locals) (m : nat) : M locals :=
  H <- get_H ;;
  let children_m := successors H m in
  let children_mj := positions nodesH children_m in
  p <- lift (mapM (weight H m) children_m) ;;
  D_ij <- get_D ;;
  dist <- lift (take_rows D_ij children_ni) ;;
  dist <- lift (take_cols dist children_mj) ;;
  w <- read_Pi n m ;;
  anc <- (if (0 <? t)%Z
          then a <- lift (index (predecessors H m) 0) ;; ret (l_ancestor_m acc ++ [a])
          else ret (l_ancestor_m acc)) ;;
  ret {| l_b := l_b acc ++ [p];
         l_dist_matrices := l_dist_matrices acc ++ [dist];
         l_c := l_c acc ++ [mul_scalar dist w];
         l_ancestor_m := anc |}.

(** Lines 227-273: the choice of the plans [Pi_k]; [None] when no branch
    binds the name. *)
Definition solve (method : string) (lambda_IBP rho : Q) (pool_sizeMAM : Z)
    (children_n : list nat) (b : list vector) (c : list matrix)
  : M (option (list matrix)) :=
  if (length children_n =? 1)%nat then
    ret (Some (map expand_dims0 b))
  else if (1 <? length children_n)%nat then
    if (method =? "MAM")%string then
      if (1 <? pool_sizeMAM)%Z then
        Pi_k <- call Call_MAM_MPI (MAM_MPI b c rho) ;; ret (Some Pi_k)
      else
        Pi_k <- call Call_MAM (MAM b c rho) ;; ret (Some Pi_k)
    else if (method =? "IBP")%string then
      let sumS := list_sum (map (@length Q) b) in
      let b_ := embed sumS 0 b in
      c_ <- lift (np_concatenate1 c) ;;
      Pi_ibp <- call Call_barycenter_IBP (barycenter_IBP b_ c_ lambda_IBP) ;;
      Pi_k <- lift (split_ibp 0 0 b Pi_ibp) ;;
      ret (Some Pi_k)
    else if (method =? "LP")%string then
      c_lp <- lift (np_concatenate1 c) ;;
      Pi_lp <- call Call_LP_reduction_nt (LP_reduction_nt c_lp b) ;;
      ret (Some (split_lp 0 b Pi_lp))
    else ret None
  else ret None.

(** Lines 191-223: the first loop, then the parent of [n]. *)
Definition collect (t : Z) (nodesG nodesH list_m : list nat) (n : nat)
  : M (locals * list nat) :=
  G <- get_G ;;
  let children_n := successors G n in
  let children_ni := positions nodesG children_n in
  l <- foldM (collect_m t nodesH children_ni n) list_m (mkLocals [] [] [] []) ;;
  ancestor_n <- (if (0 <? t)%Z
                 then a <- lift (index (predecessors G n) 0) ;; ret [a]
                 else ret []) ;;
  ret (l, ancestor_n).

Definition _loop_subtree_n (t : Z) (nodesG nodesH list_m : list nat)
    (method : string) (lambda_IBP rho epsilon : Q) (pool_sizeMAM : Z) (n : nat)
  : M output :=
  G <- get_G ;;
  let D_ij_t := repeat 0 (length list_m) in
  let children_n := successors G n in
  la <- collect t nodesG nodesH list_m n ;;
  let l := fst la in
  Pi_k <- solve method lambda_IBP rho pool_sizeMAM children_n (l_b l) (l_c l) ;;
  r <- lift (rfold (stabilize_step epsilon (l_dist_matrices l))
               (seq 0 (length list_m)) (Pi_k, D_ij_t)) ;;
  match fst r with
  | None => raise UnboundLocalError
  | Some Pi_k =>
      ret {| out_Pi_k := Pi_k;
             out_D_ij_t := snd r;
             out_ancestor_m := l_ancestor_m l;
             out_ancestor_n := snd la |}
  end.

End WithExternals.

End Reducer.
Export Reducer.

(** ** The driver *)

Module Driver.

Local Open Scope Q_scope.

(** What [reduction_tree] returns besides the tree [G] and the matrix [Pi],
    which are the store's [sG] and [sPi] at the end: the nested distance
    [D_ij[0,0]] and the frontier sizes per stage, oldest stage first. The
    elapsed times are left out. *)
Record result : Type := mkResult {
  r_distance : Q;
  r_nb_n : list nat;
  r_nb_m : list nat
}.

(** The locals carried from one stage of the backward pass to the next. *)
Record frontier : Type := mkFrontier {
  f_ancestor_n : list nat;
  f_ancestor_m : list nat;
  f_nodesG : list nat;
  f_nodesH : list nat;
  f_nb_n : list nat;
  f_nb_m : list nat
}.

(** The locals of the merge loop of one stage. *)
Record merged : Type := mkMerged {
  m_D_ij_t : list vector;
  m_ancestor_n : list nat;
  m_ancestor_m : list nat
}.

(** The entry [Pi[j, i]], and 0 outside the array. *)
Definition entry (Pi : matrix) (j i : nat) : Q :=
  match mget Pi j i with
  | Ok v => v
  | Raise _ => 0
  end.

(** [Pi] has an entry for node 0 and every node of [G], against node 0 and
    every node of [H]. *)
Definition covers (Pi : matrix) (G H : DiGraph) : bool :=
  forallb (fun j =>
    forallb (fun i => match mget Pi j i with Ok _ => true | Raise _ => false end)
            (0%nat :: nodes H))
          (0%nat :: nodes G).

(** The product, over [depth] levels of the ancestor chains of [j] in [G] and
    of [i] in [H], of the couplings that [Pi] holds for the pairs of the
    chains; the pair of the roots counts for 1. *)
Fixpoint chain_product (G H : DiGraph) (Pi : matrix) (depth j i : nat) : Q :=
  match depth with
  | O => 1
  | S d =>
      match predecessors G j, predecessors H i with
      | n :: _, m :: _ => entry Pi j i * chain_product G H Pi d n m
      | _, _ => entry Pi j i
      end
  end.


(** The horizon of a tree: its largest stage. *)
Definition horizon (g : DiGraph) : Z :=
  fold_left Z.max (map (stage g) (nodes g)) 0%Z.

(** [l[-1]]. *)
Definition py_last {A} (l : list A) : res A :=
  match rev l with
  | x :: _ => Ok x
  | [] => Raise IndexError
  end.

(** A Python dict with node keys, as an association list. *)
Fixpoint dict_set {V} (d : list (nat * V)) (k : nat) (v : V) : list (nat * V) :=
  match d with
  | [] => [(k, v)]
  | (k', v') :: d' => if (k' =? k)%nat then (k, v) :: d' else (k', v') :: dict_set d' k v
  end.

Definition dict_get {V} (d : list (nat * V)) (k : nat) : res V :=
  match find (fun kv => (fst kv =? k)%nat) d with
  | Some kv => Ok (snd kv)
  | None => Raise KeyError
  end.

(** [A[j, cols] = vals]: the indices are checked, [vals] is broadcast to
    the number of columns, then the entries are written in order. *)
Definition assign_row (A : matrix) (j : nat) (cols : list nat) (vals : vector)
  : res matrix :=
  (row <- index A j ;;
   _ <- mapM (index row) cols ;;
   if (length vals =? length cols)%nat || (length vals =? 1)%nat then
     Ok (set_nth j
           (fold_left (fun r cv => set_nth (fst cv) (snd cv) r)
                      (combine cols (bcast (length cols) vals)) row)
           A)
   else Raise ValueError)%res.

(** Lines 93-103: the leaf-level distance matrix and the leaf lists. *)
Definition leaf_distances (ai : list (list nat)) (wi : list vector)
    (aj : list (list nat)) (wj : list vector)
  : res (list nat * list nat * matrix) :=
  (rows <- mapM (fun i =>
       chain <- index ai i ;;
       g <- py_last chain ;;
       row <- mapM (fun j =>
           u <- index wi i ;;
           v <- index wj j ;;
           d <- sq_dist u v ;;
           h <- (if (i =? 0)%nat
                 then chain' <- index aj j ;; x <- py_last chain' ;; Ok [x]
                 else Ok []) ;;
           Ok (d, h)) (seq 0 (length aj)) ;;
       Ok (g, row)) (seq 0 (length ai)) ;;
   Ok (map fst rows,
       concat (map snd (concat (map snd rows))),
       map (fun r => map fst (snd r)) rows))%res.

Section WithExternals.

Context {E : Externals}.

Local Open Scope M_scope.

(** Lines 72-84: one pair [(n, m)] of the seeding loop, on the locals
    [(ancestor_n, ancestor_m)]. *)
Definition seed_pair (t : Z) (n : nat) (acc : list nat * list nat) (m : nat)
  : M (list nat * list nat) :=
  G <- get_G ;;
  H <- get_H ;;
  let children_n := successors G n in
  let children_m := successors H m in
  forM_ children_m (fun i =>
    forM_ children_n (fun j =>
      w <- lift (weight H m i) ;;
      write_Pi j i (w / inject_Z (Z.of_nat (length children_n))))) ;;;
  if (0 <? t)%Z then
    pn <- lift (index (predecessors G n) 0) ;;
    pm <- lift (index (predecessors H m) 0) ;;
    ret (fst acc ++ [pn], snd acc ++ [pm])
  else ret acc.

(** Lines 64-84: one stage of the seeding loop. *)
Definition seed_stage (acc : list nat * list nat) (t : Z)
  : M (list nat * list nat) :=
  let list_m := py_set (snd acc) in
  let list_n := py_set (fst acc) in
  foldM (fun a n => foldM (seed_pair t n) list_m a) list_n ([], []).

(** Lines 57-84: the body of [if np.sum(Pi) == 0:]. *)
Definition seed_Pi (N1 N2 : nat) : M unit :=
  G <- get_G ;;
  H <- get_H ;;
  put_Pi (np_zeros N1 N2) ;;;
  write_Pi 0 0 1 ;;;
  T <- lift (np_max (map (stage G) (nodes G))) ;;
  let ancestor_n := nodes_at G (T - 1) in
  let ancestor_m := nodes_at H (T - 1) in
  foldM seed_stage (rev (py_range 0 T)) (ancestor_n, ancestor_m) ;;;
  ret tt.

(** Lines 150-159: the writes for one child [j] of [n] against one [m]. *)
Definition merge_child (n : nat) (Pi_k_n : list matrix) (i_m : nat)
    (children_m : list nat) (jc_j : nat * nat) : M unit :=
  let j_c := fst jc_j in
  let j := snd jc_j in
  P <- lift (index Pi_k_n i_m) ;;
  row <- lift (index P j_c) ;;
  Pi <- get_Pi ;;
  Pi' <- lift (assign_row Pi j children_m row) ;;
  put_Pi Pi' ;;;
  if (i_m =? 0)%nat then
    Pi <- get_Pi ;;
    r <- lift (index Pi j) ;;
    vals <- lift (mapM (index r) children_m) ;;
    G <- get_G ;;
    put_G (set_weight G n j (np_sum_f64 vals)) ;;;
    G <- get_G ;;
    w <- lift (weight G n j) ;;
    put_G (set_weight G n j (np_round3_f64 w))
  else ret tt.

(** Lines 137-159: one node [n] of the merge loop. *)
Definition merge_node (outputs : list (nat * output)) (list_m : list nat)
    (acc : merged) (in_n : nat * nat) : M merged :=
  let i_n := fst in_n in
  let n := snd in_n in
  o <- lift (dict_get outputs n) ;;
  let acc' := {| m_D_ij_t := m_D_ij_t acc ++ [out_D_ij_t o];
                 m_ancestor_n := m_ancestor_n acc ++ out_ancestor_n o;
                 m_ancestor_m := if (i_n =? 0)%nat then out_ancestor_m o
                                 else m_ancestor_m acc |} in
  G <- get_G ;;
  H <- get_H ;;
  let children_n := successors G n in
  forM_ (enumerate list_m) (fun im_m =>
    let children_m := successors H (snd im_m) in
    forM_ (enumerate children_n)
          (merge_child n (out_Pi_k o) (fst im_m) children_m)) ;;;
  ret acc'.

(** Lines 112-165: one stage of the backward pass. *)
Definition backward_stage (method : string) (lambda_IBP rho epsilon : Q)
    (pool_size : Z) (rank : nat) (pool_sizeMAM : Z)
    (f : frontier) (t : Z) : M frontier :=
  let list_m := py_set (f_ancestor_m f) in
  let list_n := py_set (f_ancestor_n f) in
  splitting_work <- lift (division_tasks (Z.of_nat (length list_n)) pool_size) ;;
  works <- lift (index splitting_work rank) ;;
  outputs <- foldM (fun outputs work =>
      n <- lift (index list_n (Z.to_nat work)) ;;
      o <- _loop_subtree_n t (f_nodesG f) (f_nodesH f) list_m
             method lambda_IBP rho epsilon pool_sizeMAM n ;;
      ret (dict_set outputs n o)) works [] ;;
  mg <- foldM (merge_node outputs list_m) (enumerate list_n)
          {| m_D_ij_t := []; m_ancestor_n := []; m_ancestor_m := f_ancestor_m f |} ;;
  put_D (m_D_ij_t mg) ;;;
  ret {| f_ancestor_n := m_ancestor_n mg;
         f_ancestor_m := m_ancestor_m mg;
         f_nodesG := list_n;
         f_nodesH := list_m;
         f_nb_n := f_nb_n f ++ [length list_n];
         f_nb_m := f_nb_m f ++ [length list_m] |}.

(** Line 179. *)
Definition rebuild_cell (j1 i1 n m : nat) : M unit :=
  a <- read_Pi j1 i1 ;;
  b <- read_Pi n m ;;
  write_Pi j1 i1 (a * b).

(** Lines 173-179: the pairs of one stage. *)
Definition rebuild_stage (list_i1 list_j1 : list nat) : M unit :=
  G <- get_G ;;
  H <- get_H ;;
  forM_ list_i1 (fun i1 =>
    let ancestor_m := predecessors H i1 in
    forM_ list_j1 (fun j1 =>
      let ancestor_n := predecessors G j1 in
      forM_ ancestor_m (fun m =>
        forM_ ancestor_n (fun n => rebuild_cell j1 i1 n m)))).

(** Lines 169-181: the forward rebuild. *)
Definition rebuild (T : Z) : M unit :=
  write_Pi 0 0 1 ;;;
  G <- get_G ;;
  H <- get_H ;;
  forM_ (py_range 1 (T + 1)) (fun t =>
    rebuild_stage (nodes_at H t) (nodes_at G t)).

Definition supported (method : string) : bool :=
  existsb (String.eqb method) ["LP"; "MAM"; "IBP"]%string.

(** Lines 54-84: the transport matrix the backward pass starts from. *)
Definition init_Pi : M unit :=
  G <- get_G ;;
  H <- get_H ;;
  let N1 := length (nodes G) in
  let N2 := length (nodes H) in
  Pi <- get_Pi ;;
  if Qeq_bool (np_sum_f64 (concat Pi)) 0 then seed_Pi N1 N2 else ret tt.

(** [reduction_tree(H, G, Pi, rho, method, lambda_IBP, npool)]; the
    arguments [H], [G] and [Pi] are the store's [sH], [sG] and [sPi]. The
    branch [if pool_size > 1] of lines 126-132 is dead, [pool_size] being
    the constant 1, and is left out. *)
Definition reduction_tree (rho : Q) (method : string) (lambda_IBP : Q) (npool : Z)
  : M result :=
  let rank := O in
  let pool_size := 1%Z in
  let pool_sizeMAM := comm_size in
  if negb (supported method) then raise AssertionError else
  let epsilon := 1 / 1000 in
  G <- get_G ;;
  H <- get_H ;;
  init_Pi ;;;
  let '(ai, wi, _, T) := find_process_data G in
  let '(aj, wj, _, _) := find_process_data H in
  leaves <- lift (leaf_distances ai wi aj wj) ;;
  let '(nodesG, nodesH, D_ij) := leaves in
  put_D D_ij ;;;
  let ancestor_m := nodes_at H (T - 1) in
  let ancestor_n := nodes_at G (T - 1) in
  f <- foldM (backward_stage method lambda_IBP rho epsilon pool_size rank pool_sizeMAM)
         (rev (py_range 0 T))
         {| f_ancestor_n := ancestor_n; f_ancestor_m := ancestor_m;
            f_nodesG := nodesG; f_nodesH := nodesH;
            f_nb_n := []; f_nb_m := [] |} ;;
  rebuild T ;;;
  D_ij <- get_D ;;
  d <- lift (mget D_ij 0 0) ;;
  ret {| r_distance := d; r_nb_n := rev (f_nb_n f); r_nb_m := rev (f_nb_m f) |}.

(** The parts of [reduction_tree] that follow the initialisation of [Pi],
    by name. Lines 86-165: the leaf distances and the backward pass, with
    the horizon [T] and the locals of the last stage as result. *)
Definition backward_pass (rho : Q) (method : string) (lambda_IBP : Q)
  : M (Z * frontier) :=
  let rank := O in
  let pool_size := 1%Z in
  let pool_sizeMAM := comm_size in
  let epsilon := 1 / 1000 in
  G <- get_G ;;
  H <- get_H ;;
  let '(ai, wi, _, T) := find_process_data G in
  let '(aj, wj, _, _) := find_process_data H in
  leaves <- lift (leaf_distances ai wi aj wj) ;;
  let '(nodesG, nodesH, D_ij) := leaves in
  put_D D_ij ;;;
  let ancestor_m := nodes_at H (T - 1) in
  let ancestor_n := nodes_at G (T - 1) in
  f <- foldM (backward_stage method lambda_IBP rho epsilon pool_size rank pool_sizeMAM)
         (rev (py_range 0 T))
         {| f_ancestor_n := ancestor_n; f_ancestor_m := ancestor_m;
            f_nodesG := nodesG; f_nodesH := nodesH;
            f_nb_n := []; f_nb_m := [] |} ;;
  ret (T, f).

(** Lines 167-187: the forward rebuild and the values returned. *)
Definition rebuild_and_return (T : Z) (f : frontier) : M result :=
  rebuild T ;;;
  D_ij <- get_D ;;
  d <- lift (mget D_ij 0 0) ;;
  ret {| r_distance := d; r_nb_n := rev (f_nb_n f); r_nb_m := rev (f_nb_m f) |}.

(** Lines 86-187: what [reduction_tree] runs on the matrix [Pi] that the
    initialisation leaves. *)
Definition after_init (rho : Q) (method : string) (lambda_IBP : Q) : M result :=
  Tf <- backward_pass rho method lambda_IBP ;;
  rebuild_and_return (fst Tf) (snd Tf).

End WithExternals.

End Driver.
Export Driver.

(** ** Vocabulary of the statements: footprints, exceptions, invariants *)

Module Vocabulary.

Local Open Scope Q_scope.

(** The part of the store that the caller of [reduction_tree] can observe:
    everything except the log of solver calls. *)
Definition frame (s : store) : DiGraph * DiGraph * matrix * matrix :=
  (sG s, sH s, sPi s, sD s).

(** [keeps m]: running [m] leaves the whole store as it was. *)
Definition keeps {A} (m : M A) : Prop := forall s, snd (m s) = s.

(** [read_only m]: running [m] may call solvers, and changes nothing else. *)
Definition read_only {A} (m : M A) : Prop := forall s, frame (snd (m s)) = frame s.

(** [never e m]: whatever the store, [m] does not raise [e]. *)
Definition never {A} (e : exn) (m : M A) : Prop :=
  forall s, fst (m s) <> Raise e.

(** Exceptions of the array, dictionary and integer operations: only
    [IndexError], [KeyError], [ValueError] and [ZeroDivisionError]. *)
Definition array_error {A} (r : res A) : Prop :=
  match r with
  | Ok _ => True
  | Raise e =>
      e = IndexError \/ e = KeyError \/ e = ValueError \/ e = ZeroDivisionError
  end.

(** The exceptions that the module raises by itself, not through an array
    or dictionary access. *)
Definition internal (e : exn) : Prop :=
  e = UnboundLocalError \/ e = AssertionError.

(** [rebuild_inv s0 Fin s]: on the way from the store [s0] to [s], only
    [Pi] has changed; entry (0, 0) is 1; the entries of the pairs in [Fin]
    hold their chain product; every other entry is as in [s0]. *)
Record rebuild_inv (s0 : store) (Fin : nat -> nat -> Prop) (s : store) : Prop := {
  ri_G : sG s = sG s0;
  ri_H : sH s = sH s0;
  ri_D : sD s = sD s0;
  ri_calls : sCalls s = sCalls s0;
  ri_shape : forall j i v, mget (sPi s0) j i = Ok v ->
                           exists v', mget (sPi s) j i = Ok v';
  ri_root : mget (sPi s) 0 0 = Ok 1;
  ri_fin : forall j i, Fin j i ->
             mget (sPi s) j i =
             Ok (chain_product (sG s0) (sH s0) (sPi s0)
                               (Z.to_nat (stage (sG s0) j)) j i);
  ri_rest : forall j i, ~ Fin j i -> j <> 0%nat ->
              mget (sPi s) j i = mget (sPi s0) j i
}.

(** The pairs of same-stage nodes of the stages 1 to [k]. *)
Definition final_upto (s0 : store) (k : Z) (j i : nat) : Prop :=
  exists t, (1 <= t <= k)%Z /\
            In j (nodes_at (sG s0) t) /\ In i (nodes_at (sH s0) t).






End Vocabulary.
Export Vocabulary.

(** ** Small trees and runs used as test inputs *)

Module Examples.

Local Open Scope Q_scope.

(** Node 0 is the root, every other node is at stage 1. *)
Definition stage01 (n : nat) : Z := if (n =? 0)%nat then 0%Z else 1%Z.

(** [H]: a root with two children reached with probabilities 0.9995 and
    0.0005. *)
Definition H_skew : DiGraph :=
  mkGraph [0; 1; 2]%nat stage01 [(0, 1, 9995 # 10000); (0, 2, 5 # 10000)]%nat.

(** [H]: a root with two equally likely children. *)
Definition H_even : DiGraph :=
  mkGraph [0; 1; 2]%nat stage01 [(0, 1, 1 # 2); (0, 2, 1 # 2)]%nat.

(** [G]: a root with a single child. *)
Definition G_one : DiGraph :=
  mkGraph [0; 1]%nat stage01 [(0%nat, 1%nat, 1)].

(** [G]: a root with two children. *)
Definition G_two : DiGraph :=
  mkGraph [0; 1; 2]%nat stage01 [(0, 1, 1 # 2); (0, 2, 1 # 2)]%nat.

(** [G]: a root without children. *)
Definition G_leaf : DiGraph := mkGraph [0]%nat stage01 [].

(** [H]: a root with two children, each with one child of its own. *)
Definition stage012 (n : nat) : Z :=
  if (n =? 0)%nat then 0%Z else if (n <=? 2)%nat then 1%Z else 2%Z.

Definition H_deep : DiGraph :=
  mkGraph [0; 1; 2; 3; 4]%nat stage012
          [(0%nat, 1%nat, 1 # 2); (0%nat, 2%nat, 1 # 2);
           (1%nat, 3%nat, 1); (2%nat, 4%nat, 1)].

(** Solvers that split the mass evenly over a plan with two rows. *)
Definition even_plan (rows cols : nat) : matrix :=
  repeat (repeat (1 # Pos.of_nat (rows * cols)) cols) rows.

(** The root-to-[i] chain, following first predecessors. *)
Fixpoint chain_to (g : DiGraph) (fuel i : nat) : list nat :=
  match fuel with
  | O => [i]
  | S fuel' =>
      match predecessors g i with
      | [] => [i]
      | p :: _ => chain_to g fuel' p ++ [i]
      end
  end.

(** The product of the edge weights along a chain. *)
Fixpoint chain_prob (g : DiGraph) (chain : list nat) : Q :=
  match chain with
  | a :: ((b :: _) as rest) =>
      match weight g a b with
      | Ok w => w * chain_prob g rest
      | Raise _ => 0
      end
  | _ => 1
  end.

(** Modelled from the spec: [find_process_data], of the module
    [reduction_tree.find_process_data], which is not among the sources.
    Per leaf, in the order of the nodes: the root-to-leaf chain, the vector
    of the values along that chain, and the leaf's unconditional
    probability; then the horizon, the largest stage. Node values are not
    part of [DiGraph]: a node's value is taken to be its identifier. *)
Definition leaf_paths (g : DiGraph) : list (list nat) * list vector * list Q * Z :=
  let leaves :=
    filter (fun i => match successors g i with [] => true | _ => false end)
           (nodes g) in
  let chains := map (chain_to g (length (nodes g))) leaves in
  (chains,
   map (map (fun i => inject_Z (Z.of_nat i))) chains,
   map (chain_prob g) chains,
   fold_left Z.max (map (stage g) (nodes g)) 0%Z).

(** The collaborators of the test inputs: the solvers above, the leaf paths
    above, one MPI process, a [set] iterated in the order of first
    insertion, and a sum and a rounding without representation error. *)
Definition E_even : Externals :=
  {| MAM_MPI := fun b _ _ => map (fun p => even_plan 2 (length p)) b;
     MAM := fun b _ _ => map (fun p => even_plan 2 (length p)) b;
     barycenter_IBP := fun b c _ => map (fun _ => even_plan 2 (length (hd [] c))) b;
     LP_reduction_nt := fun c _ => even_plan 2 (length (hd [] c));
     find_process_data := leaf_paths;
     comm_size := 1%Z;
     py_set := nodup Nat.eq_dec;
     np_sum_f64 := sum1;
     np_round3_f64 := np_round3 |}.

(** The store at the call of [_loop_subtree_n] for the root of [G_one]
    against the root of [H_skew]: leaves [1] of [G] and [1; 2] of [H],
    leaf distances 0 and 1, and the seeded [Pi]. *)
Definition s_one_skew : store :=
  mkStore G_one H_skew
          [[1; 0; 0]; [0; 9995 # 10000; 5 # 10000]]
          [[0; 1]] [].

Definition s_one_even : store :=
  mkStore G_one H_even [[1; 0; 0]; [0; 1 # 2; 1 # 2]] [[0; 1]] [].

Definition s_two_even : store :=
  mkStore G_two H_even
          [[1; 0; 0]; [0; 1 # 4; 1 # 4]; [0; 1 # 4; 1 # 4]]
          [[0; 1]; [1; 0]] [].

Definition s_leaf : store :=
  mkStore G_leaf H_even [[1; 0; 0]] [] [].

(** The calls on these stores, for the root [n = 0] at stage [t = 0]. *)
Definition run_one (method : string) (s : store) : res output * store :=
  @_loop_subtree_n E_even 0 [1]%nat [1; 2]%nat [0]%nat method 25 1000 (1 # 1000) 1 0 s.

Definition run_two (method : string) : res output * store :=
  @_loop_subtree_n E_even 0 [1; 2]%nat [1; 2]%nat [0]%nat method 25 1000 (1 # 1000) 1 0
    s_two_even.

Definition run_leaf (method : string) : res output * store :=
  @_loop_subtree_n E_even 0 []%nat [1; 2]%nat [0]%nat method 25 1000 (1 # 1000) 1 0 s_leaf.

(** The same leaf-path data, with a horizon of 7 reported for every tree
    whose edge from 0 to 1 does not weigh one half. *)
Definition leaf_paths_far (g : DiGraph) : list (list nat) * list vector * list Q * Z :=
  (fst (leaf_paths g),
   match weight g 0 1 with
   | Ok w => if Qeq_bool w (1 # 2) then snd (leaf_paths g) else 7%Z
   | Raise _ => 7%Z
   end).

(** The store at the start of the forward rebuild for [H_deep] against a
    copy of itself, with arbitrary couplings left by the backward pass. *)
Definition s_rebuild : store :=
  mkStore H_deep H_deep
          [[1; 0; 0; 0; 0];
           [0; 1 # 2; 1 # 3; 0; 0];
           [0; 1 # 4; 1 # 5; 0; 0];
           [0; 0; 0; 1 # 2; 1 # 3];
           [0; 0; 0; 1 # 6; 1 # 7]]
          [[0]] [].

(** Calls of [reduction_tree] with the default arguments: [Pi] is
    [np.zeros((2, 2))], [rho] is 1000, [lambda_IBP] is 25, [npool] is 1. *)
Definition s_call (G H : DiGraph) : store := mkStore G H (np_zeros 2 2) [] [].

Definition reduce (method : string) (G H : DiGraph) : res result * store :=
  @reduction_tree E_even 1000 method 25 1 (s_call G H).

End Examples.

(** ** Vocabulary of the further statements: subproblems and outcomes *)

Module Subproblems.

Local Open Scope Q_scope.

(** The data that the first loop of [_loop_subtree_n] gathers for one
    candidate [m]: the marginal [p] (the weights of the edges leaving [m]),
    the slice [dm] of [D_ij] (rows [children_ni], then the columns of the
    children of [m]), and the cost matrix [c], which is [dm] scaled by
    [Pi[n, m]]. *)
Definition subproblem (s : store) (children_ni nodesH : list nat) (n m : nat)
    (p : vector) (dm c : matrix) : Prop :=
  mapM (weight (sH s) m) (successors (sH s) m) = Ok p /\
  (exists rows,
     take_rows (sD s) children_ni = Ok rows /\
     take_cols rows (positions nodesH (successors (sH s) m)) = Ok dm) /\
  (exists w, mget (sPi s) n m = Ok w /\ c = mul_scalar dm w).

End Subproblems.
Export Subproblems.

Module Outcomes.

Local Open Scope Q_scope.

(** [wp m s Q X]: run from the store [s], the program [m] either returns a
    value and a store that satisfy [Q], or raises an exception that, with
    the store it leaves, satisfies [X]. *)
Definition wp {A} (m : M A) (s : store)
    (Q : A -> store -> Prop) (X : exn -> store -> Prop) : Prop :=
  match m s with
  | (Ok a, s') => Q a s'
  | (Raise e, s') => X e s'
  end.

(** [g'] is [g] up to the weights of its edges. *)
Definition weights_only (g g' : DiGraph) : Prop :=
  nodes g' = nodes g /\
  stage g' = stage g /\
  map fst (edges g') = map fst (edges g).

(** From [s] to [s'], [H] is untouched and [G] has changed in its weights
    at most. *)
Definition same_trees (s s' : store) : Prop :=
  sH s' = sH s /\ weights_only (sG s) (sG s').

(** From [s] to [s'], nothing but [Pi] has changed. *)
Definition only_Pi (s s' : store) : Prop :=
  sG s' = sG s /\ sH s' = sH s /\ sD s' = sD s /\ sCalls s' = sCalls s.

(** A matrix without negative entry. *)
Definition nonneg (D : matrix) : Prop := forall x, In x (concat D) -> 0 <= x.

(** A result that is not a [KeyError]. *)
Definition no_key {A} (r : res A) : Prop := r <> Raise KeyError.

(** The exceptional outcomes that keep [I] and are not a [KeyError]. *)
Definition exc (I : store -> Prop) (e : exn) (s : store) : Prop :=
  I s /\ e <> KeyError.

End Outcomes.
Export Outcomes.

(** The body of the loops of [leaf_distances], by name. *)

Module LeafLoop.

Local Open Scope Q_scope.

(** One cell of line 101, with the leaf of [H] appended at line 103 while
    the first row is filled. *)
Definition leaf_cell (wi : list vector) (aj : list (list nat)) (wj : list vector)
    (i j : nat) : res (Q * list nat) :=
  (u <- index wi i ;;
   v <- index wj j ;;
   d <- sq_dist u v ;;
   h <- (if (i =? 0)%nat
         then chain' <- index aj j ;; x <- py_last chain' ;; Ok [x]
         else Ok []) ;;
   Ok (d, h))%res.

(** One row of the loop of lines 98-103. *)
Definition leaf_row (ai : list (list nat)) (wi : list vector)
    (aj : list (list nat)) (wj : list vector) (i : nat)
  : res (nat * list (Q * list nat)) :=
  (chain <- index ai i ;;
   g <- py_last chain ;;
   row <- mapM (leaf_cell wi aj wj i) (seq 0 (length aj)) ;;
   Ok (g, row))%res.

End LeafLoop.
Export LeafLoop.

(** The writes of [assign_row] into one row, by name. *)

Module RowWrites.

(** [row[cols] = vals], entry by entry in the order of [cols]. *)
Definition write_cols {A} (cols : list nat) (vals : list A) (row : list A)
  : list A :=
  fold_left (fun r cv => set_nth (fst cv) (snd cv) r) (combine cols vals) row.

End RowWrites.
Export RowWrites.

(** ** Further test inputs *)

Module MoreExamples.

Import Examples.

Local Open Scope Q_scope.

(** The store at the call of [_loop_subtree_n] for node 1 of [H_deep]
    against a copy of itself, at stage 1: the leaves are the nodes 3 and 4
    of both trees, at distances 0 and 1. *)
Definition s_deep : store :=
  mkStore H_deep H_deep
          [[1; 0; 0; 0; 0];
           [0; 1 # 2; 1 # 3; 0; 0];
           [0; 1 # 4; 1 # 5; 0; 0];
           [0; 0; 0; 1 # 2; 1 # 3];
           [0; 0; 0; 1 # 6; 1 # 7]]
          [[0; 1]; [1; 0]] [].

Definition run_deep : res output * store :=
  @_loop_subtree_n E_even 1 [3; 4]%nat [3; 4]%nat [1; 2]%nat "LP" 25 1000
    (1 # 1000) 1 1 s_deep.

(** The writes of the merge loop for the first child of the root of
    [G_two], against the root of [H_even], with an even plan. *)
Definition merge_first : res unit * store :=
  @merge_child E_even 0 [[[1 # 4; 1 # 4]; [1 # 4; 1 # 4]]] 0 [1; 2]%nat
    (0, 1)%nat s_two_even.


(** A plan of the LP solver for two candidates with two children and one
    child, and their weight vectors. *)
Definition lp_weights : list vector := [[1 # 2; 1 # 2]; [1]].
Definition lp_plan : matrix := [[1 # 6; 1 # 6; 1 # 6]; [1 # 6; 1 # 6; 1 # 6]].

(** Two leaves with their chains and value vectors. *)
Definition two_chains : list (list nat) := [[0; 1]; [0; 2]]%nat.
Definition two_values : list vector := [[0; 1]; [0; 2]].

(** A tree [H] with a leaf at stage 1: the root has the children 1 and 2,
    and only node 1 has a child, node 3. With it, a chain [G] of three
    nodes, and the store at the call of [_loop_subtree_n] for node 1 of [G]
    at stage 1, against the candidates 1 and 2: the leaves are node 2 of
    [G] and the nodes 2 and 3 of [H]. *)
Definition H_ragged : DiGraph :=
  mkGraph [0; 1; 2; 3]%nat stage012
          [(0%nat, 1%nat, 1 # 2); (0%nat, 2%nat, 1 # 2); (1%nat, 3%nat, 1)].

Definition G_chain : DiGraph :=
  mkGraph [0; 1; 2]%nat (fun n => Z.of_nat n)
          [(0%nat, 1%nat, 1); (1%nat, 2%nat, 1)].

Definition s_ragged : store :=
  mkStore G_chain H_ragged
          [[1; 0; 0; 0]; [0; 1 # 2; 1 # 2; 0]; [0; 0; 0; 1]]
          [[5; 2]] [].

Definition run_ragged : res output * store :=
  @_loop_subtree_n E_even 1 [2]%nat [2; 3]%nat [1; 2]%nat "LP" 25 1000
    (1 # 1000) 1 1 s_ragged.

End MoreExamples.

(** ** The shape of the transport matrix *)

Module Shapes.

(** The lengths of the rows of a matrix. *)
Definition shape (P : matrix) : list nat := map (@length Q) P.

(** The postcondition of a run that raises, when only the runs that return
    are of interest. *)
Definition any_exn : exn -> store -> Prop := fun _ _ => True.

End Shapes.
Export Shapes.

(** ** Sums in double precision *)

(** IEEE 754 binary64 arithmetic, from the Standard Library's [SpecFloat]:
    53 bits of precision, exponents up to 1024, rounding to nearest, ties
    to even. *)
Module Doubles.

Local Open Scope Q_scope.

Definition f64_of_Z (z : Z) : spec_float := binary_normalize 53 1024 z 0 false.

(** The double that a decimal literal denotes: the one nearest to the
    rational [q], for a numerator and a denominator below 2^53. *)
Definition f64_of_Q (q : Q) : spec_float :=
  SFdiv 53 1024 (f64_of_Z (Qnum q)) (f64_of_Z (Zpos (Qden q))).

(** The value of a finite double. *)
Definition Q_of_f64 (f : spec_float) : Q :=
  match f with
  | S754_finite sign m e =>
      let v := if (0 <=? e)%Z then inject_Z (Zpos m * 2 ^ e)
               else Zpos m # Pos.shiftl 1 (Z.to_N (- e)) in
      if sign then - v else v
  | _ => 0
  end.

(** [np.sum] of an array of fewer than eight doubles: NumPy adds them one
    after the other, from zero. *)
Definition f64_sum (v : vector) : Q :=
  Q_of_f64 (fold_left (SFadd 53 1024) (map f64_of_Q v) (S754_zero false)).

(** [np.round(x, 3)] on a double: NumPy multiplies by 1000, rounds to the
    nearest integer, ties to even, and divides by 1000. *)
Definition f64_round3 (x : Q) : Q :=
  let y := SFmul 53 1024 (f64_of_Q x) (f64_of_Z 1000) in
  Q_of_f64 (SFdiv 53 1024 (f64_of_Z (round_half_even (Q_of_f64 y)))
                  (f64_of_Z 1000)).

End Doubles.
Export Doubles.

Module RoundingExamples.

Import Examples.

Local Open Scope Q_scope.

(** The collaborators of the test inputs, with the sum and the rounding of
    double precision. *)
Definition E_f64 : Externals :=
  {| MAM_MPI := @MAM_MPI E_even;
     MAM := @MAM E_even;
     barycenter_IBP := @barycenter_IBP E_even;
     LP_reduction_nt := @LP_reduction_nt E_even;
     find_process_data := @find_process_data E_even;
     comm_size := @comm_size E_even;
     py_set := @py_set E_even;
     np_sum_f64 := f64_sum;
     np_round3_f64 := f64_round3 |}.

(** A supplied matrix whose entries sum to 1, and to 0 in double
    precision: 1e16 + 1 is rounded to 1e16. *)
Definition Pi_absorbed : matrix :=
  [[inject_Z (10 ^ 16); 1]; [- inject_Z (10 ^ 16); 0]].

(** The writes of the merge loop for the first child of the root of
    [G_two], against the root of [H_even], with the plan rows
    (0.0025, 0.1) and (0.0025, 0). *)
Definition merge_tie : res unit * store :=
  @merge_child E_f64 0 [[[1 # 400; 1 # 10]; [1 # 4; 1 # 4]]] 0 [1; 2]%nat
    (0, 1)%nat s_two_even.

Definition merge_tie_down : res unit * store :=
  @merge_child E_f64 0 [[[1 # 400; 0]; [1 # 4; 1 # 4]]] 0 [1; 2]%nat
    (0, 1)%nat s_two_even.

End RoundingExamples.

(** * Properties *)

(** ** The task partitioner *)

Section PartitionFacts.

Local Open Scope Z_scope.

Lemma chunks_length {A} k sz (l : list A) : length (chunks k sz l) = k.
Proof.
  revert l; induction k as [|k IH]; intros l; simpl; [reflexivity|].
  now rewrite IH.
Qed.

Lemma chunks_concat {A} k sz (l : list A) :
  (length l = k * sz)%nat -> concat (chunks k sz l) = l.
Proof.
  revert l; induction k as [|k IH]; intros l Hl; simpl in *.
  - now destruct l.
  - rewrite IH.
    + apply firstn_skipn.
    + rewrite length_skipn. lia.
Qed.

Lemma chunks_sizes {A} k sz (l : list A) :
  (k * sz <= length l)%nat ->
  Forall (fun g => length g = sz) (chunks k sz l).
Proof.
  revert l; induction k as [|k IH]; intros l Hl; simpl in *; constructor.
  - rewrite length_firstn. lia.
  - apply IH. rewrite length_skipn. lia.
Qed.

Lemma py_range_length a b : length (py_range a b) = Z.to_nat (b - a).
Proof. unfold py_range. now rewrite length_map, length_seq. Qed.

Lemma seq_from n k : seq n k = map (Nat.add n) (seq 0 k).
Proof.
  revert n; induction k as [|k IH]; intros n; simpl; [reflexivity|].
  rewrite Nat.add_0_r. f_equal.
  rewrite (IH (S n)), (IH 1%nat), map_map.
  apply map_ext. intros i. lia.
Qed.

Lemma py_range_app a b c :
  a <= b -> b <= c -> py_range a b ++ py_range b c = py_range a c.
Proof.
  intros Hab Hbc. unfold py_range.
  replace (Z.to_nat (c - a)) with (Z.to_nat (b - a) + Z.to_nat (c - b))%nat by lia.
  rewrite seq_app, map_app. f_equal.
  rewrite Nat.add_0_l, (seq_from (Z.to_nat (b - a))), map_map.
  apply map_ext. intros i. lia.
Qed.

Lemma py_range_NoDup a b : NoDup (py_range a b).
Proof.
  unfold py_range.
  apply Finite.Injective_map_NoDup; [|apply seq_NoDup].
  intros x y. lia.
Qed.

(** [np.split] succeeds on a positive divisor of the length, with slices of
    equal size that concatenate back to the array. *)
Lemma np_split_ok {A} (ary : list A) (k : Z) :
  0 < k -> Z.of_nat (length ary) mod k = 0 ->
  exists gs, np_split ary k = Ok gs /\
    Z.of_nat (length gs) = k /\
    concat gs = ary /\
    Forall (fun g => Z.of_nat (length g) = Z.of_nat (length ary) / k) gs.
Proof.
  intros Hk Hm.
  assert (Hdiv : Z.of_nat (length ary) = k * (Z.of_nat (length ary) / k)).
  { apply Z.div_exact; lia. }
  set (q := Z.of_nat (length ary) / k) in *.
  assert (Hq : 0 <= q) by (apply Z.div_pos; lia).
  exists (chunks (Z.to_nat k) (Z.to_nat q) ary). repeat split.
  - unfold np_split.
    destruct (Z.eqb_spec k 0); [lia|].
    rewrite Hm. simpl.
    destruct (Z.leb_spec k 0); [lia|reflexivity].
  - rewrite chunks_length. lia.
  - apply chunks_concat. nia.
  - eapply Forall_impl; [|apply chunks_sizes; nia].
    intros g Hg. simpl in Hg. lia.
Qed.

(** C4. For every task count [N >= 1] and worker count [1 <= P <= N],
    [division_tasks N P] returns [P] ordered groups whose concatenation is
    [0, 1, ..., N-1] (so it is a permutation of [[0, N)] without duplicates
    or gaps); when [P] divides [N] every group has [N / P] tasks, otherwise
    the first [N mod P] groups have [N / P + 1] tasks and the others [N / P],
    so two groups differ by at most one task; the groups depend on [(N, P)]
    only. *)
Theorem division_tasks_partition (N P : Z) :
  (1 <= P)%Z -> (P <= N)%Z ->
  exists gs,
    division_tasks N P = Ok gs /\
    Z.of_nat (length gs) = P /\
    concat gs = py_range 0 N /\
    Permutation (concat gs) (py_range 0 N) /\
    NoDup (concat gs) /\
    ((N mod P = 0)%Z -> Forall (fun g => Z.of_nat (length g) = (N / P)%Z) gs) /\
    ((N mod P <> 0)%Z -> forall k, (k < length gs)%nat ->
       Z.of_nat (length (nth k gs [])) =
       if (Z.of_nat k <? N mod P)%Z then (N / P + 1)%Z else (N / P)%Z) /\
    (forall g g', In g gs -> In g' gs -> (length g <= length g' + 1)%nat) /\
    (forall N' P', N' = N -> P' = P -> division_tasks N' P' = Ok gs).
Proof.
  intros HP HPN.
  assert (Hconcat_facts : forall gs, concat gs = py_range 0 N ->
            Permutation (concat gs) (py_range 0 N) /\ NoDup (concat gs)).
  { intros gs ->. split; [apply Permutation_refl | apply py_range_NoDup]. }
  unfold division_tasks.
  destruct (Z.eqb_spec P 0) as [|_]; [lia|].
  destruct (Z.eqb_spec (N mod P) 0) as [Hm|Hm].
  - (* equal groups *)
    destruct (@np_split_ok Z (py_range 0 N) P) as (gs & Hgs & Hlen & Hcat & Hsz).
    { lia. } { rewrite py_range_length. now replace (Z.of_nat (Z.to_nat (N - 0))) with N by lia. }
    rewrite py_range_length in Hsz.
    replace (Z.of_nat (Z.to_nat (N - 0))) with N in Hsz by lia.
    exists gs. split; [exact Hgs|]. split; [exact Hlen|]. split; [exact Hcat|].
    destruct (Hconcat_facts gs Hcat) as [Hperm Hnd].
    split; [exact Hperm|]. split; [exact Hnd|].
    split; [intros _; exact Hsz|]. split; [intros Hne; contradiction|].
    split.
    + intros g g' Hg Hg'. rewrite Forall_forall in Hsz.
      pose proof (Hsz g Hg). pose proof (Hsz g' Hg'). lia.
    + intros N' P' -> ->.
      destruct (Z.eqb_spec P 0); [lia|].
      destruct (Z.eqb_spec (N mod P) 0); [exact Hgs|contradiction].
  - (* the first [N mod P] groups take one task more *)
    set (d := N / P) in *. set (c := N mod P) in *.
    assert (Hc : 0 < c < P).
    { pose proof (Z.mod_pos_bound N P ltac:(lia)). unfold c in *. lia. }
    assert (HN : N = P * d + c) by (unfold d, c; apply Z.div_mod; lia).
    assert (Hd : 0 <= d) by (unfold d; apply Z.div_pos; lia).
    destruct (@np_split_ok Z (py_range 0 (d * c + c)) c)
      as (g1 & Hg1 & Hlen1 & Hcat1 & Hsz1).
    { lia. }
    { rewrite py_range_length.
      replace (Z.of_nat (Z.to_nat (d * c + c - 0))) with ((d + 1) * c) by nia.
      apply Z.mod_mul. lia. }
    destruct (@np_split_ok Z (py_range (d * c + c) N) (P - c))
      as (g2 & Hg2 & Hlen2 & Hcat2 & Hsz2).
    { lia. }
    { rewrite py_range_length.
      replace (Z.of_nat (Z.to_nat (N - (d * c + c)))) with (d * (P - c)) by nia.
      apply Z.mod_mul. lia. }
    rewrite py_range_length in Hsz1, Hsz2.
    replace (Z.of_nat (Z.to_nat (d * c + c - 0)) / c) with (d + 1) in Hsz1.
    2:{ replace (Z.of_nat (Z.to_nat (d * c + c - 0))) with ((d + 1) * c) by nia.
        symmetry. apply Z.div_mul. lia. }
    replace (Z.of_nat (Z.to_nat (N - (d * c + c))) / (P - c)) with d in Hsz2.
    2:{ replace (Z.of_nat (Z.to_nat (N - (d * c + c)))) with (d * (P - c)) by nia.
        symmetry. apply Z.div_mul. lia. }
    assert (Hrun : (rearranged1 <- np_split (py_range 0 (d * c + c)) c;;
                    rearranged2 <- np_split (py_range (d * c + c) N) (P - c);;
                    Ok (rearranged1 ++ rearranged2))%res = Ok (g1 ++ g2)).
    { rewrite Hg1. simpl. rewrite Hg2. reflexivity. }
    assert (Hcat : concat (g1 ++ g2) = py_range 0 N).
    { rewrite concat_app, Hcat1, Hcat2. apply py_range_app; nia. }
    exists (g1 ++ g2). split; [exact Hrun|].
    split; [rewrite length_app; lia|]. split; [exact Hcat|].
    destruct (Hconcat_facts _ Hcat) as [Hperm Hnd].
    split; [exact Hperm|]. split; [exact Hnd|].
    split; [intros H0; contradiction|].
    rewrite Forall_forall in Hsz1, Hsz2.
    split; [|split].
    + intros _ k Hk. rewrite length_app in Hk.
      destruct (Z.ltb_spec (Z.of_nat k) c) as [Hkc|Hkc].
      * rewrite app_nth1 by lia. apply Hsz1, nth_In. lia.
      * rewrite app_nth2 by lia. apply Hsz2, nth_In. lia.
    + intros g g' Hg Hg'.
      apply in_app_or in Hg. apply in_app_or in Hg'.
      destruct Hg as [Hg|Hg]; [apply Hsz1 in Hg|apply Hsz2 in Hg];
        (destruct Hg' as [Hg'|Hg']; [apply Hsz1 in Hg'|apply Hsz2 in Hg']); lia.
    + intros N' P' -> ->.
      destruct (Z.eqb_spec P 0); [lia|].
      destruct (Z.eqb_spec (N mod P) 0); [contradiction|exact Hrun].
Qed.

(** The partition of seven tasks among three workers. *)
Lemma division_tasks_partition_witness :
  exists gs, division_tasks 7 3 = Ok gs /\ concat gs = py_range 0 7.
Proof.
  destruct (@division_tasks_partition 7 3 ltac:(lia) ltac:(lia))
    as (gs & Hrun & _ & Hcat & _).
  exists gs. split; assumption.
Defined.

End PartitionFacts.

(** ** The monad: running, footprints and raised exceptions *)

Section MonadFacts.

Lemma bind_Ok_inv {A B} (m : M A) (k : A -> M B) s b s' :
  bind m k s = (Ok b, s') ->
  exists a s1, m s = (Ok a, s1) /\ k a s1 = (Ok b, s').
Proof.
  unfold bind. destruct (m s) as [[a|e] s1]; intros H.
  - now exists a, s1.
  - discriminate.
Qed.

Lemma bind_run {A B} (m : M A) (k : A -> M B) s a s1 :
  m s = (Ok a, s1) -> bind m k s = k a s1.
Proof. unfold bind. now intros ->. Qed.

Lemma bind_raise {A B} (m : M A) (k : A -> M B) s e s1 :
  m s = (Raise e, s1) -> bind m k s = (Raise e, s1).
Proof. unfold bind. now intros ->. Qed.

Lemma lift_Ok_inv {A} (r : res A) s a s' :
  lift r s = (Ok a, s') -> r = Ok a /\ s' = s.
Proof. unfold lift. intros H. now inversion H. Qed.

Lemma rbind_Ok_inv {A B} (m : res A) (k : A -> res B) b :
  rbind m k = Ok b -> exists a, m = Ok a /\ k a = Ok b.
Proof. destruct m as [a|e]; simpl; intros H; [now exists a | discriminate]. Qed.

Lemma keeps_read_only {A} (m : M A) : keeps m -> read_only m.
Proof. intros H s. now rewrite H. Qed.

Lemma keeps_ret {A} (a : A) : keeps (ret a).
Proof. intros s. reflexivity. Qed.

Lemma keeps_raise {A} e : keeps (@raise A e).
Proof. intros s. reflexivity. Qed.

Lemma keeps_lift {A} (r : res A) : keeps (lift r).
Proof. intros s. reflexivity. Qed.

Lemma keeps_get_G : keeps get_G.
Proof. intros s. reflexivity. Qed.

Lemma keeps_get_H : keeps get_H.
Proof. intros s. reflexivity. Qed.

Lemma keeps_get_D : keeps get_D.
Proof. intros s. reflexivity. Qed.

Lemma keeps_get_Pi : keeps get_Pi.
Proof. intros s. reflexivity. Qed.

Lemma keeps_read_Pi j i : keeps (read_Pi j i).
Proof. intros s. reflexivity. Qed.

Lemma keeps_bind {A B} (m : M A) (k : A -> M B) :
  keeps m -> (forall a, keeps (k a)) -> keeps (bind m k).
Proof.
  intros Hm Hk s. unfold bind. specialize (Hm s).
  destruct (m s) as [[a|e] s1]; simpl in Hm; subst s1.
  - apply Hk.
  - reflexivity.
Qed.

Lemma keeps_foldM {A S} (f : S -> A -> M S) l acc :
  (forall a x, keeps (f a x)) -> keeps (foldM f l acc).
Proof.
  intros Hf. revert acc. induction l as [|x l IH]; intros acc; simpl.
  - apply keeps_ret.
  - apply keeps_bind; [apply Hf | intros a; apply IH].
Qed.

Lemma read_only_bind {A B} (m : M A) (k : A -> M B) :
  read_only m -> (forall a, read_only (k a)) -> read_only (bind m k).
Proof.
  intros Hm Hk s. unfold bind. specialize (Hm s).
  destruct (m s) as [[a|e] s1]; simpl in Hm.
  - now rewrite Hk.
  - exact Hm.
Qed.

Lemma read_only_call {A} c (v : A) : read_only (call c v).
Proof. intros s. reflexivity. Qed.

Lemma never_ret {A} e (a : A) : never e (ret a).
Proof. intros s. discriminate. Qed.

Lemma never_call {A} e c (v : A) : never e (call c v).
Proof. intros s. discriminate. Qed.

Lemma never_get_G e : never e get_G.
Proof. intros s. discriminate. Qed.

Lemma never_get_H e : never e get_H.
Proof. intros s. discriminate. Qed.

Lemma never_get_D e : never e get_D.
Proof. intros s. discriminate. Qed.

Lemma never_lift {A} e (r : res A) : r <> Raise e -> never e (lift r).
Proof. intros H s. exact H. Qed.

Lemma never_bind {A B} e (m : M A) (k : A -> M B) :
  never e m -> (forall a, never e (k a)) -> never e (bind m k).
Proof.
  intros Hm Hk s. unfold bind. specialize (Hm s).
  destruct (m s) as [[a|e'] s1]; simpl in *.
  - apply Hk.
  - intros Heq. apply Hm. now inversion Heq.
Qed.

Lemma never_foldM {A S} e (f : S -> A -> M S) l acc :
  (forall a x, never e (f a x)) -> never e (foldM f l acc).
Proof.
  intros Hf. revert acc. induction l as [|x l IH]; intros acc; simpl.
  - apply never_ret.
  - apply never_bind; [apply Hf | intros a; apply IH].
Qed.

Lemma never_get_Pi e : never e get_Pi.
Proof. intros s. discriminate. Qed.

Lemma never_put_G e g : never e (put_G g).
Proof. intros s. discriminate. Qed.

Lemma never_put_Pi e P : never e (put_Pi P).
Proof. intros s. discriminate. Qed.

Lemma never_put_D e D : never e (put_D D).
Proof. intros s. discriminate. Qed.

Lemma never_forM {A} e (f : A -> M unit) l :
  (forall x, never e (f x)) -> never e (forM_ l f).
Proof.
  intros Hf. induction l as [|x l IH]; simpl.
  - apply never_ret.
  - apply never_bind; [apply Hf | intros _; apply IH].
Qed.

Lemma array_error_not_internal {A} e (r : res A) :
  internal e -> array_error r -> r <> Raise e.
Proof.
  destruct r as [a|e']; simpl; intros He H Heq; [discriminate|].
  inversion Heq; subst.
  destruct He as [He|He]; destruct H as [H|[H|[H|H]]]; congruence.
Qed.

Lemma array_error_not_unbound {A} (r : res A) :
  array_error r -> r <> Raise UnboundLocalError.
Proof. apply array_error_not_internal. now left. Qed.

Lemma array_error_index {A} (l : list A) i : array_error (index l i).
Proof. unfold index. destruct (nth_error l i); simpl; auto. Qed.

Lemma array_error_rbind {A B} (m : res A) (k : A -> res B) :
  array_error m -> (forall a, array_error (k a)) -> array_error (rbind m k).
Proof. destruct m as [a|e]; simpl; auto. Qed.

Lemma array_error_mapM {A B} (f : A -> res B) l :
  (forall x, array_error (f x)) -> array_error (mapM f l).
Proof.
  intros Hf. induction l as [|x l IH]; simpl; [exact I|].
  apply array_error_rbind; [apply Hf|]. intros y.
  apply array_error_rbind; [apply IH|]. intros ys. exact I.
Qed.

Lemma array_error_weight g m i : array_error (weight g m i).
Proof. unfold weight. destruct (find _ _); simpl; auto. Qed.

Lemma array_error_bdim a b : array_error (bdim a b).
Proof.
  unfold bdim.
  destruct (a =? b)%nat; [exact I|].
  destruct (a =? 1)%nat; [exact I|].
  destruct (b =? 1)%nat; simpl; auto.
Qed.

Lemma array_error_zip_bcast {A B} (f : A -> A -> res B) u v :
  (forall x y, array_error (f x y)) -> array_error (zip_bcast f u v).
Proof.
  intros Hf. unfold zip_bcast.
  apply array_error_rbind; [apply array_error_bdim|]. intros n.
  apply array_error_mapM. intros p. apply Hf.
Qed.

Lemma array_error_np_multiply P Q0 : array_error (np_multiply P Q0).
Proof.
  unfold np_multiply. apply array_error_zip_bcast. intros x y.
  apply array_error_zip_bcast. intros a b. exact I.
Qed.

Lemma array_error_hconcat_rows P Q0 : array_error (hconcat_rows P Q0).
Proof.
  revert Q0. induction P as [|ra P IH]; intros [|rb Q0]; simpl; auto.
  apply array_error_rbind; [apply IH|]. intros r. exact I.
Qed.

Lemma array_error_np_concatenate1 l : array_error (np_concatenate1 l).
Proof.
  induction l as [|P l IH]; simpl; auto.
  destruct l as [|P' l']; [exact I|].
  apply array_error_rbind; [exact IH|]. intros B. apply array_error_hconcat_rows.
Qed.

Lemma never_array {A} e (r : res A) :
  internal e -> array_error r -> never e (lift r).
Proof. intros He H. apply never_lift. now apply array_error_not_internal. Qed.

Lemma array_error_mget P j i : array_error (mget P j i).
Proof.
  unfold mget. apply array_error_rbind; [apply array_error_index|].
  intros row. apply array_error_index.
Qed.

Lemma never_read_Pi e j i : internal e -> never e (read_Pi j i).
Proof.
  intros He s. unfold read_Pi. simpl.
  apply array_error_not_internal; [exact He | apply array_error_mget].
Qed.

Lemma array_error_split_ibp b Pi_ibp :
  forall acc i_m, array_error (split_ibp acc i_m b Pi_ibp).
Proof.
  induction b as [|p b IH]; intros acc i_m; simpl; [exact I|].
  apply array_error_rbind; [apply array_error_index|]. intros P.
  apply array_error_rbind; [apply IH|]. intros rest. exact I.
Qed.

Lemma array_error_mset P j i v : array_error (mset P j i v).
Proof.
  unfold mset. apply array_error_rbind; [apply array_error_index|].
  intros row. apply array_error_rbind; [apply array_error_index|].
  intros x. exact I.
Qed.

Lemma never_write_Pi e j i v : internal e -> never e (write_Pi j i v).
Proof.
  intros He s. unfold write_Pi.
  pose proof (array_error_mset (sPi s) j i v) as H.
  destruct (mset (sPi s) j i v) as [P|e']; simpl; [discriminate|].
  now apply (@array_error_not_internal unit e (Raise e')).
Qed.

Lemma never_raise {A} e e' : e' <> e -> never e (@raise A e').
Proof. intros Hne s. simpl. congruence. Qed.

Lemma array_error_np_max l : array_error (np_max l).
Proof. destruct l; simpl; tauto. Qed.

Lemma array_error_py_last {A} (l : list A) : array_error (py_last l).
Proof. unfold py_last. destruct (rev l); simpl; tauto. Qed.

Lemma array_error_dict_get {V} (d : list (nat * V)) k : array_error (dict_get d k).
Proof. unfold dict_get. destruct (find _ d); simpl; tauto. Qed.

Lemma array_error_sq_dist u v : array_error (sq_dist u v).
Proof.
  unfold sq_dist. apply array_error_rbind; [|intros d; exact I].
  apply array_error_zip_bcast. intros x y. exact I.
Qed.

Lemma array_error_assign_row P j cols vals : array_error (assign_row P j cols vals).
Proof.
  unfold assign_row. apply array_error_rbind; [apply array_error_index|].
  intros row. apply array_error_rbind.
  { apply array_error_mapM. intros c. apply array_error_index. }
  intros x. destruct (_ || _); simpl; tauto.
Qed.

Lemma array_error_leaf_distances ai wi aj wj :
  array_error (leaf_distances ai wi aj wj).
Proof.
  unfold leaf_distances. apply array_error_rbind; [|intros rows; exact I].
  apply array_error_mapM. intros i.
  apply array_error_rbind; [apply array_error_index|]. intros chain.
  apply array_error_rbind; [apply array_error_py_last|]. intros g.
  apply array_error_rbind; [|intros row; exact I].
  apply array_error_mapM. intros j.
  apply array_error_rbind; [apply array_error_index|]. intros u.
  apply array_error_rbind; [apply array_error_index|]. intros v.
  apply array_error_rbind; [apply array_error_sq_dist|]. intros d.
  apply array_error_rbind; [|intros h; exact I].
  destruct (i =? 0)%nat; [|exact I].
  apply array_error_rbind; [apply array_error_index|]. intros chain'.
  apply array_error_rbind; [apply array_error_py_last|]. intros x. exact I.
Qed.

Lemma array_error_np_split {A} (ary : list A) k : array_error (np_split ary k).
Proof.
  unfold np_split.
  destruct (k =? 0)%Z; [simpl; tauto|].
  destruct (negb _); [simpl; tauto|].
  destruct (k <=? 0)%Z; simpl; tauto.
Qed.

Lemma array_error_division_tasks N P : array_error (division_tasks N P).
Proof.
  unfold division_tasks.
  destruct (P =? 0)%Z; [simpl; tauto|].
  destruct (_ =? 0)%Z; [apply array_error_np_split|].
  apply array_error_rbind; [apply array_error_np_split|]. intros r1.
  apply array_error_rbind; [apply array_error_np_split|]. intros r2. exact I.
Qed.

End MonadFacts.

(** Steps through a program of the monad to show that it does not raise
    an exception of the module's own. *)
Ltac array_step :=
  match goal with
  | |- array_error (Ok _) => exact I
  | |- array_error (rbind _ _) => apply array_error_rbind; [|intros ?]
  | |- array_error (mapM _ _) => apply array_error_mapM; intros ?
  | |- array_error (index _ _) => apply array_error_index
  | |- array_error (weight _ _ _) => apply array_error_weight
  | |- array_error (mget _ _ _) => apply array_error_mget
  | |- array_error (np_multiply _ _) => apply array_error_np_multiply
  | |- array_error (np_concatenate1 _) => apply array_error_np_concatenate1
  | |- array_error (split_ibp _ _ _ _) => apply array_error_split_ibp
  | |- array_error (zip_bcast _ _ _) => apply array_error_zip_bcast; intros ? ?
  | |- array_error (take_rows _ _) => unfold take_rows
  | |- array_error (take_cols _ _) => unfold take_cols
  | |- array_error (mset _ _ _ _) => apply array_error_mset
  | |- array_error (np_max _) => apply array_error_np_max
  | |- array_error (py_last _) => apply array_error_py_last
  | |- array_error (dict_get _ _) => apply array_error_dict_get
  | |- array_error (assign_row _ _ _ _) => apply array_error_assign_row
  | |- array_error (leaf_distances _ _ _ _) => apply array_error_leaf_distances
  | |- array_error (division_tasks _ _) => apply array_error_division_tasks
  | |- array_error (if ?c then _ else _) => destruct c
  | |- array_error (Raise _) => simpl; tauto
  end.

Ltac never_step He :=
  match goal with
  | |- never _ (bind _ _) => apply never_bind; [|intros ?]
  | |- never _ (ret _) => apply never_ret
  | |- never _ (call _ _) => apply never_call
  | |- never _ get_G => apply never_get_G
  | |- never _ get_H => apply never_get_H
  | |- never _ get_D => apply never_get_D
  | |- never _ get_Pi => apply never_get_Pi
  | |- never _ (put_G _) => apply never_put_G
  | |- never _ (put_Pi _) => apply never_put_Pi
  | |- never _ (put_D _) => apply never_put_D
  | |- never _ (read_Pi _ _) => apply never_read_Pi; exact He
  | |- never _ (lift _) => apply never_array; [exact He | repeat array_step]
  | |- never _ (foldM _ _ _) => apply never_foldM; intros ? ?
  | |- never _ (forM_ _ _) => apply never_forM; intros ?
  | |- never _ (write_Pi _ _ _) => apply never_write_Pi; exact He
  | |- never _ (if ?c then _ else _) => destruct c
  | |- never _ (match ?x with _ => _ end) => destruct x
  end.


(** ** Arrays: updates, sums and the clip-and-renormalise step *)

Section ArrayFacts.

Local Open Scope Q_scope.

Lemma set_nth_length {A} i (v : A) l : length (set_nth i v l) = length l.
Proof.
  revert i; induction l as [|x l IH]; intros [|i]; simpl; auto.
Qed.

Lemma nth_error_set_nth_eq {A} i (v : A) l :
  (i < length l)%nat -> nth_error (set_nth i v l) i = Some v.
Proof.
  revert i; induction l as [|x l IH]; intros [|i] Hi; simpl in *; try lia; auto.
  apply IH. lia.
Qed.

Lemma nth_error_set_nth_ne {A} i j (v : A) l :
  i <> j -> nth_error (set_nth i v l) j = nth_error l j.
Proof.
  revert i j; induction l as [|x l IH]; intros [|i] [|j] Hij; simpl;
    try reflexivity; try contradiction.
  apply IH. lia.
Qed.

Lemma index_Ok_inv {A} (l : list A) i a :
  index l i = Ok a -> nth_error l i = Some a.
Proof. unfold index. destruct (nth_error l i); intros H; now inversion H. Qed.

Lemma index_Ok {A} (l : list A) i a :
  nth_error l i = Some a -> index l i = Ok a.
Proof. unfold index. now intros ->. Qed.

Lemma sum1_app u v : sum1 (u ++ v) == sum1 u + sum1 v.
Proof.
  induction u as [|x u IH]; simpl; [ring|]. rewrite IH. ring.
Qed.

(** The total of a 2-D array is the total of its entries. *)
Lemma np_sum_concat (P : matrix) : np_sum P == sum1 (concat P).
Proof.
  unfold np_sum. induction P as [|r P IH]; simpl; [reflexivity|].
  rewrite sum1_app, IH. reflexivity.
Qed.

Lemma sum1_nonneg v : (forall x, In x v -> 0 <= x) -> 0 <= sum1 v.
Proof.
  induction v as [|y v IH]; simpl; intros H; [apply Qle_refl|].
  assert (0 <= y) by (apply H; now left).
  assert (0 <= sum1 v) by (apply IH; intros x Hx; apply H; now right).
  lra.
Qed.

Lemma sum1_ge_entry v x :
  (forall y, In y v -> 0 <= y) -> In x v -> x <= sum1 v.
Proof.
  induction v as [|y v IH]; simpl; intros Hpos Hin; [contradiction|].
  assert (0 <= y) by (apply Hpos; now left).
  assert (0 <= sum1 v) by (apply sum1_nonneg; intros z Hz; apply Hpos; now right).
  destruct Hin as [->|Hin].
  - lra.
  - assert (x <= sum1 v) by (apply IH; auto). lra.
Qed.

Lemma sum1_div v s : sum1 (map (fun x => x / s) v) == sum1 v / s.
Proof.
  induction v as [|y v IH]; simpl.
  - unfold Qdiv. ring.
  - rewrite IH. unfold Qdiv. ring.
Qed.

Lemma clip1_ge eps x : eps <= clip1 eps x.
Proof.
  unfold clip1. destruct (Qle_bool eps x) eqn:Hle.
  - now apply Qle_bool_iff.
  - apply Qle_refl.
Qed.

Lemma clip1_id eps x : eps <= x -> clip1 eps x = x.
Proof.
  intros H. unfold clip1. apply Qle_bool_iff in H. now rewrite H.
Qed.

Lemma concat_clip eps P : concat (clip eps P) = map (clip1 eps) (concat P).
Proof. unfold clip. now rewrite concat_map. Qed.

Lemma concat_div_scalar P s :
  concat (div_scalar P s) = map (fun x => x / s) (concat P).
Proof. unfold div_scalar. now rewrite concat_map. Qed.

Lemma clip_entries_ge eps P x : In x (concat (clip eps P)) -> eps <= x.
Proof.
  rewrite concat_clip, in_map_iff. intros (y & <- & _). apply clip1_ge.
Qed.

(** A clipped array with at least one entry has a positive total, which
    bounds each of its entries. *)
Lemma clip_total eps P x :
  0 < eps -> In x (concat (clip eps P)) ->
  eps <= x /\ x <= np_sum (clip eps P) /\ 0 < np_sum (clip eps P).
Proof.
  intros Heps Hin.
  assert (Hx : eps <= x) by (eapply clip_entries_ge; eauto).
  assert (Hle : x <= np_sum (clip eps P)).
  { rewrite np_sum_concat. apply sum1_ge_entry; [|exact Hin].
    intros y Hy. apply clip_entries_ge in Hy. lra. }
  repeat split; auto. lra.
Qed.

Lemma stabilize_entries eps P x :
  In x (concat (stabilize eps P)) <->
  exists y, In y (concat (clip eps P)) /\ x = y / np_sum (clip eps P).
Proof.
  unfold stabilize. rewrite concat_div_scalar, in_map_iff.
  split; intros (y & H1 & H2); exists y; auto.
Qed.

(** Every entry of a stabilised plan is at least [eps] over the total of the
    clipped plan, hence positive. *)
Lemma stabilize_floor eps P x :
  0 < eps -> In x (concat (stabilize eps P)) ->
  eps / np_sum (clip eps P) <= x /\ 0 < x.
Proof.
  intros Heps Hin. apply stabilize_entries in Hin. destruct Hin as (y & Hy & ->).
  destruct (@clip_total eps P y Heps Hy) as (Hge & Hle & Hpos).
  set (S := np_sum (clip eps P)) in *.
  assert (Hinv : 0 < / S) by (apply Qinv_lt_0_compat; exact Hpos).
  unfold Qdiv. split.
  - apply Qmult_le_compat_r; lra.
  - apply Qmult_lt_0_compat; lra.
Qed.

(** A stabilised plan with at least one entry has total one. *)
Lemma stabilize_total eps P :
  0 < eps -> concat P <> [] -> np_sum (stabilize eps P) == 1.
Proof.
  intros Heps Hne.
  assert (Hpos : 0 < np_sum (clip eps P)).
  { destruct (concat P) as [|x0 l] eqn:Hc; [contradiction|].
    assert (Hin : In (clip1 eps x0) (concat (clip eps P))).
    { rewrite concat_clip, Hc. now left. }
    apply (@clip_total eps P _ Heps Hin). }
  unfold stabilize. rewrite np_sum_concat, concat_div_scalar, sum1_div.
  rewrite <- np_sum_concat. field. lra.
Qed.

Lemma stabilize_nonempty eps P : concat (stabilize eps P) = [] <-> concat P = [].
Proof.
  unfold stabilize. rewrite concat_div_scalar, concat_clip.
  destruct (concat P); simpl; split; intros H; try discriminate; auto.
Qed.

End ArrayFacts.

(** ** The subtree reducer *)

Section ReducerFacts.

Context {E : Externals}.

Local Open Scope Q_scope.

(** *** Footprint *)

Lemma collect_m_keeps t nodesH children_ni n acc m :
  keeps (collect_m t nodesH children_ni n acc m).
Proof.
  unfold collect_m.
  apply keeps_bind; [apply keeps_get_H|]. intros H.
  apply keeps_bind; [apply keeps_lift|]. intros p.
  apply keeps_bind; [apply keeps_get_D|]. intros D_ij.
  apply keeps_bind; [apply keeps_lift|]. intros dist.
  apply keeps_bind; [apply keeps_lift|]. intros dist'.
  apply keeps_bind; [apply keeps_read_Pi|]. intros w.
  apply keeps_bind; [|intros anc; apply keeps_ret].
  destruct (0 <? t)%Z; [|apply keeps_ret].
  apply keeps_bind; [apply keeps_lift|]. intros a. apply keeps_ret.
Qed.

Lemma collect_keeps t nodesG nodesH list_m n :
  keeps (collect t nodesG nodesH list_m n).
Proof.
  unfold collect.
  apply keeps_bind; [apply keeps_get_G|]. intros G.
  apply keeps_bind; [apply keeps_foldM; intros; apply collect_m_keeps|]. intros l.
  apply keeps_bind; [|intros a; apply keeps_ret].
  destruct (0 <? t)%Z; [|apply keeps_ret].
  apply keeps_bind; [apply keeps_lift|]. intros a. apply keeps_ret.
Qed.

Lemma solve_read_only method lambda_IBP rho pool_sizeMAM children_n b c :
  read_only (solve method lambda_IBP rho pool_sizeMAM children_n b c).
Proof.
  unfold solve.
  destruct (length children_n =? 1)%nat; [apply keeps_read_only, keeps_ret|].
  destruct (1 <? length children_n)%nat; [|apply keeps_read_only, keeps_ret].
  destruct (method =? "MAM")%string.
  { destruct (1 <? pool_sizeMAM)%Z;
      (apply read_only_bind; [apply read_only_call|]);
      intros r; apply keeps_read_only, keeps_ret. }
  destruct (method =? "IBP")%string.
  { apply read_only_bind; [apply keeps_read_only, keeps_lift|]. intros c_.
    apply read_only_bind; [apply read_only_call|]. intros Pi_ibp.
    apply read_only_bind; [apply keeps_read_only, keeps_lift|]. intros Pi_k.
    apply keeps_read_only, keeps_ret. }
  destruct (method =? "LP")%string; [|apply keeps_read_only, keeps_ret].
  apply read_only_bind; [apply keeps_read_only, keeps_lift|]. intros c_lp.
  apply read_only_bind; [apply read_only_call|]. intros Pi_lp.
  apply keeps_read_only, keeps_ret.
Qed.

Lemma loop_subtree_n_read_only t nodesG nodesH list_m method lambda_IBP rho
    epsilon pool_sizeMAM n :
  read_only (_loop_subtree_n t nodesG nodesH list_m method lambda_IBP rho
               epsilon pool_sizeMAM n).
Proof.
  unfold _loop_subtree_n.
  apply read_only_bind; [apply keeps_read_only, keeps_get_G|]. intros G.
  apply read_only_bind; [apply keeps_read_only, collect_keeps|]. intros la.
  apply read_only_bind; [apply solve_read_only|]. intros Pi_k.
  apply read_only_bind; [apply keeps_read_only, keeps_lift|]. intros r.
  destruct (fst r); apply keeps_read_only; [apply keeps_ret|apply keeps_raise].
Qed.

(** C8. A call of [_loop_subtree_n] has no effect besides its returned
    record (or the exception it raises): afterwards the tree [G], the tree
    [H], the transport matrix [Pi] and the distance matrix [D_ij] are what
    they were before the call. The writes to these objects are those of the
    merge loop of [reduction_tree]. *)
Theorem loop_subtree_n_no_side_effect t nodesG nodesH list_m method lambda_IBP
    rho epsilon pool_sizeMAM n (s : store) :
  let s' := snd (_loop_subtree_n t nodesG nodesH list_m method lambda_IBP rho
                   epsilon pool_sizeMAM n s) in
  sG s' = sG s /\ sH s' = sH s /\ sPi s' = sPi s /\ sD s' = sD s.
Proof.
  intros s'.
  pose proof (@loop_subtree_n_read_only t nodesG nodesH list_m method lambda_IBP
                rho epsilon pool_sizeMAM n s) as Hro.
  fold s' in Hro. unfold frame in Hro. inversion Hro. auto.
Qed.

(** *** What a successful call returns *)

Lemma get_G_inv s a s1 : get_G s = (Ok a, s1) -> a = sG s /\ s1 = s.
Proof. unfold get_G. intros H. now inversion H. Qed.

Lemma get_H_inv s a s1 : get_H s = (Ok a, s1) -> a = sH s /\ s1 = s.
Proof. unfold get_H. intros H. now inversion H. Qed.

Lemma ret_inv {A} (x : A) s a s1 : ret x s = (Ok a, s1) -> a = x /\ s1 = s.
Proof. unfold ret. intros H. now inversion H. Qed.

Lemma keeps_inv {A} (m : M A) s r s1 : keeps m -> m s = (r, s1) -> s1 = s.
Proof. intros Hk Hrun. specialize (Hk s). now rewrite Hrun in Hk. Qed.

(** One round of the first loop appends to [b] the weights of the edges that
    leave [m]. *)
Lemma collect_m_b t nodesH children_ni n acc m s a s1 :
  collect_m t nodesH children_ni n acc m s = (Ok a, s1) ->
  exists p, mapM (weight (sH s) m) (successors (sH s) m) = Ok p /\
            l_b a = l_b acc ++ [p].
Proof.
  unfold collect_m. intros H.
  apply bind_Ok_inv in H. destruct H as (H0 & s2 & HH & H).
  apply get_H_inv in HH. destruct HH as [-> ->].
  apply bind_Ok_inv in H. destruct H as (p & s2 & Hp & H).
  apply lift_Ok_inv in Hp. destruct Hp as [Hp ->].
  exists p. split; [exact Hp|].
  apply bind_Ok_inv in H. destruct H as (D_ij & s2 & _ & H).
  apply bind_Ok_inv in H. destruct H as (dist & s3 & _ & H).
  apply bind_Ok_inv in H. destruct H as (dist' & s4 & _ & H).
  apply bind_Ok_inv in H. destruct H as (w & s5 & _ & H).
  apply bind_Ok_inv in H. destruct H as (anc & s6 & _ & H).
  apply ret_inv in H. destruct H as [-> _]. reflexivity.
Qed.

Lemma collect_m_fold_b t nodesH children_ni n list_m :
  forall acc s l s1,
    foldM (collect_m t nodesH children_ni n) list_m acc s = (Ok l, s1) ->
    exists bs,
      l_b l = l_b acc ++ bs /\
      Forall2 (fun m b => mapM (weight (sH s) m) (successors (sH s) m) = Ok b)
              list_m bs.
Proof.
  induction list_m as [|m list_m IH]; intros acc s l s1 H; simpl in H.
  - apply ret_inv in H. destruct H as [-> _].
    exists []. split; [now rewrite app_nil_r | constructor].
  - apply bind_Ok_inv in H. destruct H as (a & s2 & Hm & H).
    assert (s2 = s) by (eapply keeps_inv; [apply collect_m_keeps | exact Hm]).
    subst s2.
    apply collect_m_b in Hm. destruct Hm as (p & Hp & Hb).
    apply IH in H. destruct H as (bs & Hbs & Hall).
    exists (p :: bs). split.
    + rewrite Hbs, Hb, <- app_assoc. reflexivity.
    + constructor; assumption.
Qed.

Lemma collect_b t nodesG nodesH list_m n s la s1 :
  collect t nodesG nodesH list_m n s = (Ok la, s1) ->
  s1 = s /\
  Forall2 (fun m b => mapM (weight (sH s) m) (successors (sH s) m) = Ok b)
          list_m (l_b (fst la)).
Proof.
  intros H. split; [eapply keeps_inv; [apply collect_keeps | exact H]|].
  unfold collect in H.
  apply bind_Ok_inv in H. destruct H as (G & s2 & HG & H).
  apply get_G_inv in HG. destruct HG as [-> ->].
  apply bind_Ok_inv in H. destruct H as (l & s2 & Hl & H).
  apply collect_m_fold_b in Hl. destruct Hl as (bs & Hbs & Hall). simpl in Hbs.
  apply bind_Ok_inv in H. destruct H as (anc & s3 & _ & H).
  apply ret_inv in H. destruct H as [-> _]. simpl. now rewrite Hbs.
Qed.

(** The last loop runs on a bound [Pi_k] or raises. *)
Lemma stabilize_loop_None eps dms l d :
  rfold (stabilize_step eps dms) l (None, d) =
  match l with
  | [] => Ok (None, d)
  | _ :: _ => Raise UnboundLocalError
  end.
Proof. destruct l; reflexivity. Qed.

(** On a bound [Pi_k], the last loop replaces the plans at the positions it
    visits by their stabilised versions and leaves the others. *)
Lemma stabilize_loop_Some eps dms :
  forall k a P0 d0 r,
    rfold (stabilize_step eps dms) (seq a k) (Some P0, d0) = Ok r ->
    exists P,
      fst r = Some P /\
      length P = length P0 /\
      (forall i, (a <= i < a + k)%nat ->
         exists X, nth_error P0 i = Some X /\
                   nth_error P i = Some (stabilize eps X)) /\
      (forall i, ~ (a <= i < a + k)%nat -> nth_error P i = nth_error P0 i).
Proof.
  induction k as [|k IH]; intros a P0 d0 r H; simpl in H.
  - inversion H; subst; simpl. exists P0. repeat split; auto.
    intros i Hi. lia.
  - apply rbind_Ok_inv in H. destruct H as (acc & Hstep & H).
    unfold stabilize_step in Hstep. simpl in Hstep.
    apply rbind_Ok_inv in Hstep. destruct Hstep as (X & HX & Hstep).
    apply rbind_Ok_inv in Hstep. destruct Hstep as (dm & _ & Hstep).
    apply rbind_Ok_inv in Hstep. destruct Hstep as (pr & _ & Hstep).
    inversion Hstep; subst acc; clear Hstep.
    apply index_Ok_inv in HX.
    assert (Ha : (a < length P0)%nat) by (apply nth_error_Some; congruence).
    apply IH in H. destruct H as (P & HP & Hlen & Hin & Hout).
    rewrite set_nth_length in Hlen.
    exists P. split; [exact HP|]. split; [exact Hlen|]. split.
    + intros i Hi. destruct (Nat.eq_dec i a) as [->|Hne].
      * exists X. split; [exact HX|].
        rewrite Hout by lia. now apply nth_error_set_nth_eq.
      * destruct (Hin i ltac:(lia)) as (Y & HY & HPi).
        exists Y. split; [|exact HPi].
        now rewrite nth_error_set_nth_ne in HY by auto.
    + intros i Hi. rewrite Hout by lia.
      apply nth_error_set_nth_ne. lia.
Qed.

(** The phases of a call that returns. *)
Lemma loop_subtree_n_Ok_inv t nodesG nodesH list_m method lambda_IBP rho
    epsilon pool_sizeMAM n s o s' :
  _loop_subtree_n t nodesG nodesH list_m method lambda_IBP rho epsilon
    pool_sizeMAM n s = (Ok o, s') ->
  exists la P0,
    collect t nodesG nodesH list_m n s = (Ok la, s) /\
    solve method lambda_IBP rho pool_sizeMAM (successors (sG s) n)
          (l_b (fst la)) (l_c (fst la)) s = (Ok (Some P0), s') /\
    length (out_Pi_k o) = length P0 /\
    forall i_m, (i_m < length list_m)%nat ->
      exists X, nth_error P0 i_m = Some X /\
                nth_error (out_Pi_k o) i_m = Some (stabilize epsilon X).
Proof.
  unfold _loop_subtree_n. intros H.
  apply bind_Ok_inv in H. destruct H as (G & s1 & HG & H).
  apply get_G_inv in HG. destruct HG as [-> ->].
  apply bind_Ok_inv in H. destruct H as (la & s1 & Hla & H).
  assert (s1 = s) by (eapply keeps_inv; [apply collect_keeps | exact Hla]).
  subst s1.
  apply bind_Ok_inv in H. destruct H as (Pi_k & s2 & Hsolve & H).
  apply bind_Ok_inv in H. destruct H as (r & s3 & Hr & H).
  apply lift_Ok_inv in Hr. destruct Hr as [Hr ->].
  destruct Pi_k as [P0|].
  - apply stabilize_loop_Some in Hr. destruct Hr as (P & HP & Hlen & Hin & _).
    rewrite HP in H. apply ret_inv in H. destruct H as [-> ->].
    exists la, P0. simpl. repeat split; auto.
    intros i_m Hi. apply Hin. lia.
  - rewrite stabilize_loop_None in Hr.
    destruct (seq 0 (length list_m)); [|discriminate].
    inversion Hr; subst r. simpl in H. discriminate.
Qed.

(** *** Raised exceptions *)

Lemma bind_not_raise {A B} e (m : M A) (k : A -> M B) s :
  fst (m s) <> Raise e ->
  (forall a s1, m s = (Ok a, s1) -> fst (k a s1) <> Raise e) ->
  fst (bind m k s) <> Raise e.
Proof.
  intros Hm Hk. unfold bind. destruct (m s) as [[a|e'] s1]; simpl in *.
  - now apply Hk.
  - intros Heq. apply Hm. now inversion Heq.
Qed.

Lemma collect_m_never e t nodesH children_ni n acc m :
  internal e -> never e (collect_m t nodesH children_ni n acc m).
Proof. intros He. unfold collect_m. repeat never_step He. Qed.

Lemma collect_never e t nodesG nodesH list_m n :
  internal e -> never e (collect t nodesG nodesH list_m n).
Proof.
  intros He. unfold collect. repeat never_step He.
  now apply collect_m_never.
Qed.

Lemma solve_never e method lambda_IBP rho pool_sizeMAM children_n b c :
  internal e ->
  never e (solve method lambda_IBP rho pool_sizeMAM children_n b c).
Proof. intros He. unfold solve. repeat never_step He. Qed.

(** With a supported method and at least one child, one of the branches of
    lines 227-273 binds [Pi_k]. *)
Lemma solve_binds method lambda_IBP rho pool_sizeMAM children_n b c s r s1 :
  supported method = true ->
  (1 <= length children_n)%nat ->
  solve method lambda_IBP rho pool_sizeMAM children_n b c s = (Ok r, s1) ->
  r <> None.
Proof.
  intros Hsup Hlen. unfold solve.
  destruct (Nat.eqb_spec (length children_n) 1) as [_|Hne].
  { intros H. apply ret_inv in H. destruct H as [-> _]. discriminate. }
  destruct (Nat.ltb_spec 1 (length children_n)) as [_|Hle]; [|lia].
  unfold supported in Hsup. simpl in Hsup.
  destruct (method =? "MAM")%string eqn:HMAM.
  { destruct (1 <? pool_sizeMAM)%Z; intros H;
      apply bind_Ok_inv in H; destruct H as (Pi_k & s2 & _ & H);
      apply ret_inv in H; destruct H as [-> _]; discriminate. }
  destruct (method =? "IBP")%string eqn:HIBP.
  { intros H.
    apply bind_Ok_inv in H. destruct H as (c_ & s2 & _ & H).
    apply bind_Ok_inv in H. destruct H as (Pi_ibp & s3 & _ & H).
    apply bind_Ok_inv in H. destruct H as (Pi_k & s4 & _ & H).
    apply ret_inv in H. destruct H as [-> _]. discriminate. }
  destruct (method =? "LP")%string eqn:HLP.
  { intros H.
    apply bind_Ok_inv in H. destruct H as (c_lp & s2 & _ & H).
    apply bind_Ok_inv in H. destruct H as (Pi_lp & s3 & _ & H).
    apply ret_inv in H. destruct H as [-> _]. discriminate. }
  discriminate.
Qed.

Lemma stabilize_loop_array_error eps dms l :
  forall P0 d0, array_error (rfold (stabilize_step eps dms) l (Some P0, d0)).
Proof.
  induction l as [|i l IH]; intros P0 d0; simpl; [exact I|].
  unfold stabilize_step at 1. simpl.
  destruct (index P0 i) as [X|e] eqn:HX; simpl.
  2:{ pose proof (array_error_index P0 i) as H. now rewrite HX in H. }
  destruct (index dms i) as [dm|e] eqn:Hdm; simpl.
  2:{ pose proof (array_error_index dms i) as H. now rewrite Hdm in H. }
  destruct (np_multiply (stabilize eps X) dm) as [pr|e] eqn:Hpr; simpl.
  2:{ pose proof (array_error_np_multiply (stabilize eps X) dm) as H.
      now rewrite Hpr in H. }
  apply IH.
Qed.

(** What lines 277-278 do give. When [_loop_subtree_n] returns with a
    positive [epsilon] (the driver passes 1e-3), the plan returned for each
    candidate [m] is the clipped plan divided by its own total [S]; each of
    its entries is at least [epsilon / S], hence positive, and is at least
    [epsilon] when [S <= 1]. *)
Lemma stabilized_plan_floor t nodesG nodesH list_m method lambda_IBP rho
    epsilon pool_sizeMAM n (s s' : store) (o : output) :
  0 < epsilon ->
  _loop_subtree_n t nodesG nodesH list_m method lambda_IBP rho epsilon
    pool_sizeMAM n s = (Ok o, s') ->
  forall i_m, (i_m < length list_m)%nat ->
  exists P0,
    nth_error (out_Pi_k o) i_m = Some (stabilize epsilon P0) /\
    forall x, In x (concat (stabilize epsilon P0)) ->
      epsilon / np_sum (clip epsilon P0) <= x /\
      0 < x /\
      (np_sum (clip epsilon P0) <= 1 -> epsilon <= x).
Proof.
  intros Heps Hrun i_m Hi.
  apply loop_subtree_n_Ok_inv in Hrun.
  destruct Hrun as (la & Pk & _ & _ & _ & Hplans).
  destruct (Hplans i_m Hi) as (P0 & _ & HP).
  exists P0. split; [exact HP|].
  intros x Hx.
  destruct (@stabilize_floor epsilon P0 x Heps Hx) as [Hfloor Hpos].
  repeat split; auto.
  intros HS.
  apply stabilize_entries in Hx. destruct Hx as (y & Hy & Hxy).
  destruct (@clip_total epsilon P0 y Heps Hy) as (_ & _ & HSpos).
  apply Qle_trans with (epsilon / np_sum (clip epsilon P0)); [|exact Hfloor].
  apply Qle_shift_div_l; [exact HSpos|].
  set (S := np_sum (clip epsilon P0)) in *. nra.
Qed.

Lemma Forall2_nth_error_l {A B} (R : A -> B -> Prop) l l' i a :
  Forall2 R l l' -> nth_error l i = Some a ->
  exists b, nth_error l' i = Some b /\ R a b.
Proof.
  intros HF. revert i. induction HF as [|x y l l' Hxy HF IH]; intros [|i] Hi;
    simpl in *; try discriminate.
  - inversion Hi; subst. now exists y.
  - now apply IH.
Qed.

Lemma div_by_one (S : Q) (b : vector) :
  S == 1 -> Forall2 Qeq (map (fun x => x / S) b) b.
Proof.
  intros HS. induction b as [|x b IH]; simpl; constructor; [|exact IH].
  rewrite HS. field.
Qed.

(** A single row whose entries are all at least [eps] and sum to one is
    left as it is, up to equality of rationals. *)
Lemma stabilize_row_fixed eps (b : vector) :
  (forall x, In x b -> eps <= x) -> sum1 b == 1 ->
  exists row, stabilize eps (expand_dims0 b) = [row] /\ Forall2 Qeq row b.
Proof.
  intros Hge Hsum.
  assert (Hclip : map (clip1 eps) b = b).
  { rewrite <- (map_id b) at 2. apply map_ext_in. intros x Hx.
    apply clip1_id. now apply Hge. }
  exists (map (fun x => x / np_sum [b]) b). split.
  - unfold stabilize, expand_dims0, div_scalar, clip. simpl.
    now rewrite Hclip.
  - apply div_by_one. unfold np_sum. simpl. rewrite Hsum. reflexivity.
Qed.

(** C2 (as amended). For a node [n] with exactly one child, under every
    method (so under "MAM" and "LP"), a call of [_loop_subtree_n] that
    returns has dispatched no solver (the store, log of solver calls
    included, is untouched), and the plan it returns for each candidate [m]
    is the marginal [b_m] as a single row, clipped and renormalised by lines
    277-278 as any other plan; that plan is [b_m] itself when every entry of
    [b_m] is at least [epsilon] and [b_m] sums to one. *)
Theorem one_child_plan t nodesG nodesH list_m method lambda_IBP rho epsilon
    pool_sizeMAM n (s s' : store) (o : output) :
  length (successors (sG s) n) = 1%nat ->
  _loop_subtree_n t nodesG nodesH list_m method lambda_IBP rho epsilon
    pool_sizeMAM n s = (Ok o, s') ->
  s' = s /\
  forall i_m m, nth_error list_m i_m = Some m ->
    exists b_m,
      mapM (weight (sH s) m) (successors (sH s) m) = Ok b_m /\
      nth_error (out_Pi_k o) i_m = Some (stabilize epsilon (expand_dims0 b_m)) /\
      ((forall x, In x b_m -> epsilon <= x) -> sum1 b_m == 1 ->
       exists row, stabilize epsilon (expand_dims0 b_m) = [row] /\
                   Forall2 Qeq row b_m).
Proof.
  intros Hone Hrun.
  apply loop_subtree_n_Ok_inv in Hrun.
  destruct Hrun as (la & P0 & Hcollect & Hsolve & _ & Hplans).
  unfold solve in Hsolve. rewrite Hone, Nat.eqb_refl in Hsolve.
  apply ret_inv in Hsolve. destruct Hsolve as [HP0 ->].
  inversion HP0; subst P0; clear HP0.
  split; [reflexivity|].
  apply collect_b in Hcollect. destruct Hcollect as [_ Hb].
  intros i_m m Hm.
  destruct (Forall2_nth_error_l _ Hb Hm) as (b_m & Hbm & Hw).
  exists b_m. split; [exact Hw|].
  assert (Hi : (i_m < length list_m)%nat) by (apply nth_error_Some; congruence).
  destruct (Hplans i_m Hi) as (X & HX & HP).
  unfold vector, matrix in *. rewrite nth_error_map, Hbm in HX. simpl in HX. inversion HX; subst X.
  split; [exact HP|].
  apply stabilize_row_fixed.
Qed.

(** C10. If [n] has no child and the first loop and the parent lookup went
    through, [_loop_subtree_n] fails with [Pi_k] unbound, the store being
    untouched; with a supported method (which the assertion of
    [reduction_tree] guarantees) and at least one child, the call never
    fails that way, because one of the two branches binds [Pi_k]. *)
Theorem unbound_plans_only_without_child t nodesG nodesH list_m method
    lambda_IBP rho epsilon pool_sizeMAM n (s : store) :
  (forall la s1,
     collect t nodesG nodesH list_m n s = (Ok la, s1) ->
     successors (sG s) n = [] ->
     _loop_subtree_n t nodesG nodesH list_m method lambda_IBP rho epsilon
       pool_sizeMAM n s = (Raise UnboundLocalError, s)) /\
  (supported method = true ->
   (1 <= length (successors (sG s) n))%nat ->
   fst (_loop_subtree_n t nodesG nodesH list_m method lambda_IBP rho epsilon
          pool_sizeMAM n s) <> Raise UnboundLocalError).
Proof.
  split.
  - intros la s1 Hcollect Hnil.
    assert (s1 = s) by (eapply keeps_inv; [apply collect_keeps | exact Hcollect]).
    subst s1.
    unfold _loop_subtree_n.
    rewrite (@bind_run _ _ get_G _ s (sG s) s eq_refl).
    rewrite (@bind_run _ _ _ _ _ _ _ Hcollect).
    rewrite Hnil. unfold solve. simpl.
    rewrite (@bind_run _ _ (ret None) _ s None s eq_refl).
    unfold lift at 1. unfold bind at 1.
    rewrite stabilize_loop_None.
    destruct (seq 0 (length list_m)); reflexivity.
  - intros Hsup Hlen.
    unfold _loop_subtree_n.
    apply bind_not_raise; [apply never_get_G|].
    intros G s1 HG. apply get_G_inv in HG. destruct HG as [-> ->].
    apply bind_not_raise; [apply collect_never; now left|].
    intros la s1 Hla.
    assert (s1 = s) by (eapply keeps_inv; [apply collect_keeps | exact Hla]).
    subst s1.
    apply bind_not_raise; [apply solve_never; now left|].
    intros Pi_k s2 Hsolve.
    pose proof (solve_binds _ _ _ _ _ _ _ _ Hsup Hlen Hsolve) as Hbound.
    destruct Pi_k as [P0|]; [clear Hbound|contradiction].
    apply bind_not_raise.
    { simpl. apply array_error_not_unbound, stabilize_loop_array_error. }
    intros r s3 Hr. apply lift_Ok_inv in Hr. destruct Hr as [Hr ->].
    apply stabilize_loop_Some in Hr. destruct Hr as (P & HP & _).
    rewrite HP. discriminate.
Qed.

End ReducerFacts.

(** ** The reducer on the test inputs *)

Section ReducerExamples.

Import Examples.

Local Open Scope Q_scope.

(** C1. The floor is missed when the clip raises the total above one. For
    the root of [G_one], which has one child, against the root of [H_skew],
    whose children have the weights 0.9995 and 0.0005, line 277 clips the
    plan to (0.9995, 0.001) and line 278 divides it by its total 1.0005:
    the plan returned has the entry 0.001 / 1.0005, below [epsilon] = 1e-3,
    against the claim and the comment of line 276. *)
Theorem stabilized_plan_below_epsilon :
  exists o s' x y,
    run_one "MAM" s_one_skew = (Ok o, s') /\
    out_Pi_k o = [[[x; y]]] /\
    x == (9995 # 10000) / (10005 # 10000) /\
    y == (1 # 1000) / (10005 # 10000) /\
    y < 1 # 1000.
Proof.
  do 4 eexists. split; [vm_compute; reflexivity|].
  split; [reflexivity|].
  split; [reflexivity|]. split; reflexivity.
Qed.

Example stabilized_plan_floor_skew :
  exists P0,
    nth_error [[[99950000000 # 100050000000; 10000000 # 10005000000]]] 0 =
      Some (stabilize (1 # 1000) P0) /\
    forall x, In x (concat (stabilize (1 # 1000) P0)) ->
      (1 # 1000) / np_sum (clip (1 # 1000) P0) <= x /\
      0 < x /\
      (np_sum (clip (1 # 1000) P0) <= 1 -> 1 # 1000 <= x).
Proof.
  apply (@stabilized_plan_floor E_even 0 [1]%nat [1; 2]%nat [0]%nat "MAM" 25 1000
           (1 # 1000) 1 0 s_one_skew s_one_skew
           (mkOutput [[[99950000000 # 100050000000; 10000000 # 10005000000]]]
                     [1000500000000000000 # 1001000250000000000000] [] [])).
  - reflexivity.
  - vm_compute. reflexivity.
  - simpl. lia.
Qed.

(** C2, as stated, fails: for the root of [G_one] against the root of
    [H_skew], the returned plan is not the marginal (0.9995, 0.0005). *)
Lemma one_child_plan_differs :
  exists o s' P b_m,
    run_one "MAM" s_one_skew = (Ok o, s') /\
    nth_error (out_Pi_k o) 0 = Some P /\
    mapM (weight H_skew 0) (successors H_skew 0) = Ok b_m /\
    ~ Forall2 (Forall2 Qeq) P (expand_dims0 b_m).
Proof.
  do 4 eexists. split; [vm_compute; reflexivity|].
  split; [reflexivity|]. split; [reflexivity|].
  intros H. inversion H as [|r1 r2 l1 l2 Hrow _]; subst.
  inversion Hrow as [|x y l1' l2' Hxy _]; subst.
  vm_compute in Hxy. discriminate.
Qed.

Lemma one_child_plan_witness :
  s_one_even = s_one_even /\
  forall i_m m, nth_error [0%nat] i_m = Some m ->
    exists b_m,
      mapM (weight H_even m) (successors H_even m) = Ok b_m /\
      nth_error [[[4 # 8; 4 # 8]]] i_m =
        Some (stabilize (1 # 1000) (expand_dims0 b_m)) /\
      ((forall x, In x b_m -> 1 # 1000 <= x) -> sum1 b_m == 1 ->
       exists row, stabilize (1 # 1000) (expand_dims0 b_m) = [row] /\
                   Forall2 Qeq row b_m).
Proof.
  apply (@one_child_plan E_even 0 [1]%nat [1; 2]%nat [0]%nat "LP" 25 1000
           (1 # 1000) 1 0 s_one_even s_one_even
           (mkOutput [[[4 # 8; 4 # 8]]] [32 # 64] [] [])).
  - reflexivity.
  - vm_compute. reflexivity.
Defined.

Lemma unbound_plans_only_without_child_witness :
  run_leaf "LP" = (Raise UnboundLocalError, s_leaf) /\
  fst (run_two "LP") <> Raise UnboundLocalError.
Proof.
  split.
  - refine (proj1 (@unbound_plans_only_without_child E_even 0 []%nat [1; 2]%nat
                     [0]%nat "LP" 25 1000 (1 # 1000) 1 0 s_leaf) _ s_leaf _ _).
    + vm_compute. reflexivity.
    + reflexivity.
  - refine (proj2 (@unbound_plans_only_without_child E_even 0 [1; 2]%nat
                     [1; 2]%nat [0]%nat "LP" 25 1000 (1 # 1000) 1 0 s_two_even) _ _).
    + reflexivity.
    + simpl. lia.
Defined.

End ReducerExamples.

(** ** The driver: the precondition check *)

Section DriverChecks.

Context {E : Externals}.

Local Open Scope Q_scope.

Lemma internal_assert : internal AssertionError.
Proof. now right. Qed.

Lemma supported_iff method :
  supported method = true <->
  method = "LP"%string \/ method = "MAM"%string \/ method = "IBP"%string.
Proof.
  unfold supported. simpl.
  rewrite !orb_true_iff, !String.eqb_eq. intuition congruence.
Qed.

Lemma stabilize_loop_no_assert eps dms l acc :
  rfold (stabilize_step eps dms) l acc <> Raise AssertionError.
Proof.
  destruct acc as [[P0|] d].
  - apply array_error_not_internal; [apply internal_assert|].
    apply stabilize_loop_array_error.
  - rewrite stabilize_loop_None. destruct l; discriminate.
Qed.

Lemma loop_subtree_n_never_assert t nodesG nodesH list_m method lambda_IBP rho
    epsilon pool_sizeMAM n :
  never AssertionError
        (_loop_subtree_n t nodesG nodesH list_m method lambda_IBP rho epsilon
           pool_sizeMAM n).
Proof.
  unfold _loop_subtree_n.
  apply never_bind; [apply never_get_G|]. intros G.
  apply never_bind; [apply collect_never, internal_assert|]. intros la.
  apply never_bind; [apply solve_never, internal_assert|]. intros Pi_k.
  apply never_bind; [apply never_lift, stabilize_loop_no_assert|]. intros r.
  destruct (fst r); [apply never_ret | apply never_raise; discriminate].
Qed.

Lemma seed_Pi_never_assert N1 N2 : never AssertionError (seed_Pi N1 N2).
Proof.
  unfold seed_Pi, seed_stage, seed_pair.
  repeat never_step internal_assert.
Qed.

Lemma init_Pi_never_assert : never AssertionError init_Pi.
Proof.
  unfold init_Pi. repeat never_step internal_assert.
  apply seed_Pi_never_assert.
Qed.

Lemma backward_stage_never_assert method lambda_IBP rho epsilon pool_size rank
    pool_sizeMAM f t :
  never AssertionError
        (backward_stage method lambda_IBP rho epsilon pool_size rank
           pool_sizeMAM f t).
Proof.
  unfold backward_stage, merge_node, merge_child.
  repeat never_step internal_assert.
  apply loop_subtree_n_never_assert.
Qed.

Lemma rebuild_never_assert T : never AssertionError (rebuild T).
Proof.
  unfold rebuild, rebuild_stage, rebuild_cell.
  repeat never_step internal_assert.
Qed.

(** With a supported method, no step of [reduction_tree] raises
    [AssertionError]. *)
Lemma reduction_tree_passes_check rho method lambda_IBP npool :
  supported method = true ->
  never AssertionError (reduction_tree rho method lambda_IBP npool).
Proof.
  intros Hsup. unfold reduction_tree. rewrite Hsup. simpl negb. cbv iota.
  apply never_bind; [apply never_get_G|]. intros G.
  apply never_bind; [apply never_get_H|]. intros H.
  apply never_bind; [apply init_Pi_never_assert|]. intros _.
  destruct (find_process_data G) as [[[ai wi] pi_] T].
  destruct (find_process_data H) as [[[aj wj] pj] T'].
  apply never_bind.
  { apply never_array; [apply internal_assert | apply array_error_leaf_distances]. }
  intros [[nodesG nodesH] D_ij].
  apply never_bind; [apply never_put_D|]. intros _.
  apply never_bind.
  { apply never_foldM. intros f t. apply backward_stage_never_assert. }
  intros f.
  apply never_bind; [apply rebuild_never_assert|]. intros _.
  repeat never_step internal_assert.
Qed.

(** C7. A [method] outside LP, MAM, IBP makes [reduction_tree] stop at its
    assertion (line 41) with [AssertionError], the exception of the
    membership test: up to there only the size of the MPI communicator has
    been read, nothing has been seeded, computed or written and no solver
    was called, the store being what it was. For LP, MAM and IBP the test
    passes and the exception is never raised by what follows. *)
Theorem unsupported_method_rejected rho method lambda_IBP npool (s : store) :
  (supported method = true <->
   method = "LP"%string \/ method = "MAM"%string \/ method = "IBP"%string) /\
  (supported method = false ->
   reduction_tree rho method lambda_IBP npool s = (Raise AssertionError, s)) /\
  (supported method = true ->
   fst (reduction_tree rho method lambda_IBP npool s) <> Raise AssertionError).
Proof.
  split; [apply supported_iff|]. split.
  - intros Hsup. unfold reduction_tree. rewrite Hsup. reflexivity.
  - intros Hsup. now apply reduction_tree_passes_check.
Qed.

End DriverChecks.


(** ** The driver: horizons *)

Section Horizons.

Import Examples.

Local Open Scope Q_scope.

Lemma unsupported_method_rejected_witness :
  reduce "XX" G_two H_even = (Raise AssertionError, s_call G_two H_even) /\
  fst (reduce "LP" G_two H_even) <> Raise AssertionError.
Proof.
  destruct (@unsupported_method_rejected E_even 1000 "XX"%string 25 1%Z
              (s_call G_two H_even)) as (_ & Hrej & _).
  destruct (@unsupported_method_rejected E_even 1000 "LP"%string 25 1%Z
              (s_call G_two H_even)) as (_ & _ & Hpass).
  split; [apply Hrej; reflexivity | apply Hpass; reflexivity].
Defined.

(** C6, as stated, fails. [G_two] has horizon 1 and [H_deep] horizon 2; with
    the default arguments the call passes the method check, seeds [Pi], and
    only then fails, with the [ValueError] of subtracting value vectors of
    lengths 2 and 3 at line 101. [G_leaf] has horizon 0 and [H_even] horizon
    1; the call returns a distance. *)
Lemma mismatched_horizons_not_rejected :
  horizon G_two <> horizon H_deep /\
  fst (reduce "LP" G_two H_deep) = Raise ValueError /\
  sPi (snd (reduce "LP" G_two H_deep)) =
    [[1; 0; 0; 0; 0]; [0; 1 # 4; 1 # 4; 0; 0]; [0; 1 # 4; 1 # 4; 0; 0]] /\
  horizon G_leaf <> horizon H_even /\
  fst (reduce "LP" G_leaf H_even) = Ok (mkResult 1 [] []).
Proof.
  split; [vm_compute; discriminate|].
  split; [vm_compute; reflexivity|].
  split; [vm_compute; reflexivity|].
  split; [vm_compute; discriminate|].
  vm_compute. reflexivity.
Qed.

(** C6 (as amended). [reduction_tree] makes no comparison of horizons. Its
    only precondition check is the one on [method]: with a supported method
    it never raises [AssertionError], whatever the trees. The horizon that
    [find_process_data] reports for [H] is dropped (line 91): two leaf-path
    extractions that agree on [G] and, on every tree, on all but the
    horizon, give the same run. *)
Theorem horizon_of_H_ignored (E : Externals)
    (f f' : DiGraph -> list (list nat) * list vector * list Q * Z)
    rho method lambda_IBP npool (s : store) :
  supported method = true ->
  (forall g, fst (f g) = fst (f' g)) ->
  snd (f (sG s)) = snd (f' (sG s)) ->
  fst (@reduction_tree (with_find_process_data E f) rho method lambda_IBP npool s)
    <> Raise AssertionError /\
  @reduction_tree (with_find_process_data E f) rho method lambda_IBP npool s =
  @reduction_tree (with_find_process_data E f') rho method lambda_IBP npool s.
Proof.
  intros Hsup Hfst HG. split.
  { now apply reduction_tree_passes_check. }
  unfold reduction_tree. rewrite Hsup.
  change (negb true) with false. cbv iota.
  unfold bind at 1. unfold get_G at 1. unfold bind at 1. unfold get_H at 1.
  symmetry.
  unfold bind at 1. unfold get_G at 1. unfold bind at 1. unfold get_H at 1.
  symmetry.
  change (@find_process_data (with_find_process_data E f)) with f.
  change (@find_process_data (with_find_process_data E f')) with f'.
  pose proof (Hfst (sG s)) as HG1. pose proof (Hfst (sH s)) as HH1.
  destruct (f (sG s)) as [[[ai wi] pi_] T].
  destruct (f' (sG s)) as [[[ai' wi'] pi_'] T0].
  destruct (f (sH s)) as [[[aj wj] pj] T1].
  destruct (f' (sH s)) as [[[aj' wj'] pj'] T2].
  simpl in HG, HG1, HH1.
  inversion HG1; inversion HH1; subst.
  reflexivity.
Qed.

Lemma horizon_of_H_ignored_witness :
  fst (reduce "LP" G_two H_skew) <> Raise AssertionError /\
  reduce "LP" G_two H_skew =
  @reduction_tree (with_find_process_data E_even leaf_paths_far)
                  1000 "LP" 25 1 (s_call G_two H_skew).
Proof.
  apply (@horizon_of_H_ignored E_even leaf_paths leaf_paths_far
           1000 "LP"%string 25 1%Z (s_call G_two H_skew)).
  - reflexivity.
  - intros g. reflexivity.
  - reflexivity.
Defined.

End Horizons.

(** ** The driver: the forward rebuild *)

Section RebuildFacts.

Local Open Scope Q_scope.

(** *** Reading and writing one entry *)

Lemma mset_defined P j i v a :
  mget P j i = Ok a -> exists P', mset P j i v = Ok P'.
Proof.
  unfold mget, mset. intros H.
  apply rbind_Ok_inv in H. destruct H as (row & Hrow & Ha).
  rewrite Hrow. simpl. rewrite Ha. simpl. eauto.
Qed.

Lemma mget_mset_eq P j i v P' :
  mset P j i v = Ok P' -> mget P' j i = Ok v.
Proof.
  unfold mget, mset. intros H.
  apply rbind_Ok_inv in H. destruct H as (row & Hrow & H).
  apply rbind_Ok_inv in H. destruct H as (x & Hx & H).
  inversion H; subst P'; clear H.
  apply index_Ok_inv in Hrow. apply index_Ok_inv in Hx.
  assert (Hj : (j < length P)%nat) by (apply nth_error_Some; congruence).
  assert (Hi : (i < length row)%nat) by (apply nth_error_Some; congruence).
  rewrite (index_Ok _ _ (nth_error_set_nth_eq _ _ Hj)). simpl.
  apply index_Ok. now apply nth_error_set_nth_eq.
Qed.

Lemma mget_mset_ne P j i v P' j' i' :
  mset P j i v = Ok P' -> j' <> j \/ i' <> i -> mget P' j' i' = mget P j' i'.
Proof.
  unfold mget, mset. intros H Hne.
  apply rbind_Ok_inv in H. destruct H as (row & Hrow & H).
  apply rbind_Ok_inv in H. destruct H as (x & Hx & H).
  inversion H; subst P'; clear H.
  apply index_Ok_inv in Hrow.
  destruct (Nat.eq_dec j' j) as [->|Hj].
  - destruct Hne as [Hne|Hne]; [contradiction|].
    assert (Hj : (j < length P)%nat) by (apply nth_error_Some; congruence).
    rewrite (index_Ok _ _ (nth_error_set_nth_eq _ _ Hj)).
    rewrite (index_Ok _ _ Hrow). simpl.
    unfold index. rewrite nth_error_set_nth_ne by auto. reflexivity.
  - unfold index at 1 3. rewrite nth_error_set_nth_ne by auto. reflexivity.
Qed.

(** *** Well-formed trees *)

Lemma existsb_eqb_In x l : existsb (Nat.eqb x) l = true <-> In x l.
Proof.
  rewrite existsb_exists. split.
  - intros (y & Hy & Heq). apply Nat.eqb_eq in Heq. now subst.
  - intros H. exists x. split; [exact H | apply Nat.eqb_refl].
Qed.

Lemma nodupb_NoDup l : nodupb l = true -> NoDup l.
Proof.
  induction l as [|x l IH]; simpl; intros H; constructor.
  - apply andb_true_iff in H. destruct H as [H _].
    apply negb_true_iff in H. intros Hin.
    apply existsb_eqb_In in Hin. congruence.
  - apply IH. apply andb_true_iff in H. tauto.
Qed.

Lemma wf_tree_NoDup g : wf_tree g = true -> NoDup (nodes g).
Proof.
  unfold wf_tree. rewrite !andb_true_iff. intros [[[H _] _] _].
  now apply nodupb_NoDup.
Qed.

Lemma wf_tree_root g : wf_tree g = true -> stage g 0 = 0%Z.
Proof.
  unfold wf_tree. rewrite !andb_true_iff. intros [[[_ H] _] _].
  now apply Z.eqb_eq.
Qed.

Lemma wf_tree_stage0 g j :
  wf_tree g = true -> In j (nodes g) -> stage g j = 0%Z ->
  j = 0%nat /\ predecessors g j = [].
Proof.
  unfold wf_tree. rewrite !andb_true_iff. intros [[_ H] _] Hin Hst.
  rewrite forallb_forall in H. specialize (H j Hin).
  rewrite Hst in H. simpl in H. unfold is_root in H.
  apply andb_true_iff in H. destruct H as [H1 H2].
  split; [now apply Nat.eqb_eq|].
  destruct (predecessors g j); [reflexivity | discriminate].
Qed.

Lemma wf_tree_parent g j :
  wf_tree g = true -> In j (nodes g) -> stage g j <> 0%Z ->
  exists n, predecessors g j = [n] /\ In n (nodes g) /\
            stage g n = (stage g j - 1)%Z.
Proof.
  unfold wf_tree. rewrite !andb_true_iff. intros [[_ H] _] Hin Hst.
  rewrite forallb_forall in H. specialize (H j Hin).
  destruct (Z.eqb_spec (stage g j) 0) as [|_]; [contradiction|].
  unfold has_parent in H.
  destruct (predecessors g j) as [|n [|n' l]]; try discriminate.
  apply andb_true_iff in H. destruct H as [H1 H2].
  exists n. split; [reflexivity|]. split.
  - now apply existsb_eqb_In.
  - now apply Z.eqb_eq.
Qed.


Lemma nodes_at_In g t j :
  In j (nodes_at g t) <-> In j (nodes g) /\ stage g j = t.
Proof.
  unfold nodes_at. rewrite filter_In, Z.eqb_eq. tauto.
Qed.

Lemma nodes_at_NoDup g t : NoDup (nodes g) -> NoDup (nodes_at g t).
Proof. apply NoDup_filter. Qed.

Lemma covers_spec P G H j i :
  covers P G H = true ->
  j = 0%nat \/ In j (nodes G) -> i = 0%nat \/ In i (nodes H) ->
  exists v, mget P j i = Ok v.
Proof.
  unfold covers. rewrite forallb_forall. intros Hc Hj Hi.
  assert (Hj' : In j (0%nat :: nodes G)) by (simpl; intuition).
  assert (Hi' : In i (0%nat :: nodes H)) by (simpl; intuition).
  specialize (Hc j Hj'). rewrite forallb_forall in Hc. specialize (Hc i Hi').
  destruct (mget P j i) as [v|e]; [eauto | discriminate].
Qed.

(** *** Loops with an invariant *)

Lemma forM_inv {A} (f : A -> M unit) (I : list A -> store -> Prop) (l : list A) :
  (forall done x rest s,
     l = done ++ x :: rest -> I done s ->
     exists s', f x s = (Ok tt, s') /\ I (done ++ [x]) s') ->
  forall s, I [] s -> exists s', forM_ l f s = (Ok tt, s') /\ I l s'.
Proof.
  intros Hstep.
  assert (Hgen : forall rest done s,
             l = done ++ rest -> I done s ->
             exists s', forM_ rest f s = (Ok tt, s') /\ I l s').
  { induction rest as [|x rest IH]; intros done s Hl HI.
    - rewrite app_nil_r in Hl. subst done. exists s. now split.
    - destruct (Hstep done x rest s Hl HI) as (s1 & Hrun & HI1).
      destruct (IH (done ++ [x]) s1) as (s' & Hrest & HI').
      { now rewrite <- app_assoc. } { exact HI1. }
      exists s'. split; [|exact HI'].
      simpl. now rewrite (@bind_run _ _ _ _ _ _ _ Hrun). }
  intros s HI. now apply (Hgen l [] s).
Qed.

Lemma forM_singleton {A} (f : A -> M unit) x s s' :
  f x s = (Ok tt, s') -> forM_ [x] f s = (Ok tt, s').
Proof. intros H. simpl. now rewrite (@bind_run _ _ _ _ _ _ _ H). Qed.

Lemma NoDup_middle_notin {A} (done rest : list A) x :
  NoDup (done ++ x :: rest) -> ~ In x done.
Proof.
  intros Hnd Hin. apply NoDup_remove_2 in Hnd. apply Hnd.
  apply in_or_app. now left.
Qed.

Lemma py_range_cons a b : (a < b)%Z -> py_range a b = a :: py_range (a + 1) b.
Proof.
  intros Hab. unfold py_range.
  replace (Z.to_nat (b - a)) with (S (Z.to_nat (b - (a + 1)))) by lia.
  simpl. f_equal; [lia|].
  rewrite (seq_from 1), map_map. apply map_ext. intros i. lia.
Qed.

Lemma py_range_nil a b : (b <= a)%Z -> py_range a b = [].
Proof.
  intros Hab. unfold py_range.
  replace (Z.to_nat (b - a)) with 0%nat by lia. reflexivity.
Qed.

(** *** The invariant of the rebuild *)

Lemma rebuild_inv_ext s0 (Fin Fin' : nat -> nat -> Prop) s :
  (forall j i, Fin j i <-> Fin' j i) ->
  rebuild_inv s0 Fin s -> rebuild_inv s0 Fin' s.
Proof.
  intros Hext [HG HH HD HC Hshape Hroot Hfin Hrest].
  constructor; auto.
  - intros j i Hf. apply Hfin. now apply Hext.
  - intros j i Hf Hj. apply Hrest; auto. intros Hf'. apply Hf. now apply Hext.
Qed.

(** Line 179 on a pair that is not final yet, whose parents are. *)
Lemma rebuild_cell_step s0 (Fin : nat -> nat -> Prop) s j1 i1 n m :
  rebuild_inv s0 Fin s ->
  ~ Fin j1 i1 -> j1 <> 0%nat ->
  (exists v, mget (sPi s0) j1 i1 = Ok v) ->
  predecessors (sG s0) j1 = [n] ->
  predecessors (sH s0) i1 = [m] ->
  (1 <= stage (sG s0) j1)%Z ->
  stage (sG s0) n = (stage (sG s0) j1 - 1)%Z ->
  (n = 0%nat /\ m = 0%nat /\ stage (sG s0) j1 = 1%Z) \/ Fin n m ->
  exists s',
    rebuild_cell j1 i1 n m s = (Ok tt, s') /\
    rebuild_inv s0 (fun j i => Fin j i \/ (j = j1 /\ i = i1)) s'.
Proof.
  intros [HG HH HD HC Hshape Hroot Hfin Hrest] Hnot Hj1 [v Hv] Hpn Hpm Hst Hstn Hpar.
  assert (Ha : mget (sPi s) j1 i1 = Ok v) by (rewrite Hrest; auto).
  set (d := Z.to_nat (stage (sG s0) n)).
  assert (Hb : mget (sPi s) n m =
               Ok (chain_product (sG s0) (sH s0) (sPi s0) d n m)).
  { destruct Hpar as [(-> & -> & H1)|Hf].
    - unfold d. rewrite Hstn, H1. simpl. exact Hroot.
    - now apply Hfin. }
  destruct (@mset_defined (sPi s) j1 i1
              (v * chain_product (sG s0) (sH s0) (sPi s0) d n m) v Ha)
    as (P' & HP').
  exists (mkStore (sG s) (sH s) P' (sD s) (sCalls s)). split.
  - unfold rebuild_cell, bind, read_Pi, write_Pi. rewrite Ha, Hb, HP'. reflexivity.
  - constructor; simpl; auto.
    + intros j i w Hw.
      destruct (Nat.eq_dec j j1) as [->|Hj]; [destruct (Nat.eq_dec i i1) as [->|Hi]|].
      * rewrite (@mget_mset_eq _ _ _ _ _ HP'). eauto.
      * rewrite (@mget_mset_ne _ _ _ _ _ _ _ HP') by auto. eauto.
      * rewrite (@mget_mset_ne _ _ _ _ _ _ _ HP') by auto. eauto.
    + rewrite (@mget_mset_ne _ _ _ _ _ _ _ HP') by auto. exact Hroot.
    + intros j i [Hf|[-> ->]].
      * assert (Hne : j <> j1 \/ i <> i1).
        { destruct (Nat.eq_dec j j1) as [->|]; [|now left].
          destruct (Nat.eq_dec i i1) as [->|]; [contradiction|now right]. }
        rewrite (@mget_mset_ne _ _ _ _ _ _ _ HP') by exact Hne. now apply Hfin.
      * rewrite (@mget_mset_eq _ _ _ _ _ HP'). f_equal.
        replace (Z.to_nat (stage (sG s0) j1)) with (S d) by (unfold d; lia).
        simpl. rewrite Hpn, Hpm. unfold entry. now rewrite Hv.
    + intros j i Hf Hj.
      assert (Hne : j <> j1 \/ i <> i1).
      { destruct (Nat.eq_dec j j1) as [->|]; [|now left].
        destruct (Nat.eq_dec i i1) as [->|]; [|now right].
        exfalso. apply Hf. now right. }
      rewrite (@mget_mset_ne _ _ _ _ _ _ _ HP') by exact Hne.
      apply Hrest; auto.
Qed.

(** Lines 175-179 for one node [i1] of [H]: the pairs [(j1, i1)] for [j1]
    in [list_j1]. *)
Lemma rebuild_column s0 (Fin : nat -> nat -> Prop) s t list_j1 i1 m :
  wf_tree (sG s0) = true ->
  rebuild_inv s0 Fin s ->
  NoDup list_j1 ->
  (1 <= t)%Z ->
  (forall j, In j list_j1 -> In j (nodes_at (sG s0) t)) ->
  (forall j, In j list_j1 -> ~ Fin j i1) ->
  (forall j, In j list_j1 -> exists v, mget (sPi s0) j i1 = Ok v) ->
  predecessors (sH s0) i1 = [m] ->
  (forall n, In n (nodes_at (sG s0) (t - 1)) ->
     (n = 0%nat /\ m = 0%nat /\ t = 1%Z) \/ Fin n m) ->
  exists s',
    forM_ list_j1 (fun j1 =>
      forM_ (predecessors (sH s0) i1) (fun m =>
        forM_ (predecessors (sG s0) j1) (fun n => rebuild_cell j1 i1 n m))) s
    = (Ok tt, s') /\
    rebuild_inv s0 (fun j i => Fin j i \/ (In j list_j1 /\ i = i1)) s'.
Proof.
  intros HwfG Hinv Hnd Ht Hat Hnot Hin Hpm Hpar.
  destruct (@forM_inv nat
              (fun j1 =>
                 forM_ (predecessors (sH s0) i1) (fun m =>
                   forM_ (predecessors (sG s0) j1) (fun n => rebuild_cell j1 i1 n m)))
              (fun done s' =>
                 rebuild_inv s0 (fun j i => Fin j i \/ (In j done /\ i = i1)) s')
              list_j1) with (s := s) as (s' & Hrun & Hinv').
  - intros done x rest s1 Hl Hinv1.
    assert (Hx : In x list_j1) by (rewrite Hl; apply in_or_app; right; now left).
    assert (Hxd : ~ In x done) by (rewrite Hl in Hnd; eapply NoDup_middle_notin; eauto).
    pose proof (Hat x Hx) as Hxat. apply nodes_at_In in Hxat.
    destruct Hxat as [Hxn Hxs].
    assert (Hx0 : x <> 0%nat).
    { intros ->. rewrite (wf_tree_root _ HwfG) in Hxs. lia. }
    destruct (@wf_tree_parent (sG s0) x HwfG Hxn ltac:(lia))
      as (n & Hpn & Hnn & Hns).
    destruct (@rebuild_cell_step s0 _ s1 x i1 n m Hinv1) as (s2 & Hcell & Hinv2).
    + intros [Hf|[Hd _]]; [now apply (Hnot x Hx) | contradiction].
    + exact Hx0.
    + now apply Hin.
    + exact Hpn.
    + exact Hpm.
    + lia.
    + exact Hns.
    + destruct (Hpar n) as [(-> & -> & ->)|Hf].
      * apply nodes_at_In. split; [exact Hnn | lia].
      * left. repeat split. lia.
      * right. now left.
    + exists s2. split.
      * rewrite Hpm, Hpn. now apply forM_singleton, forM_singleton.
      * eapply rebuild_inv_ext; [|exact Hinv2].
        intros j i. rewrite in_app_iff. simpl. intuition (subst; auto).
  - eapply rebuild_inv_ext; [|exact Hinv]. intros j i. simpl. tauto.
  - exists s'. split; [exact Hrun | exact Hinv'].
Qed.

(** Lines 173-179 for one stage [t], the earlier stages being final. *)
Lemma rebuild_stage_step s0 s t :
  wf_tree (sG s0) = true ->
  wf_tree (sH s0) = true ->
  covers (sPi s0) (sG s0) (sH s0) = true ->
  (1 <= t)%Z ->
  rebuild_inv s0 (final_upto s0 (t - 1)) s ->
  exists s',
    rebuild_stage (nodes_at (sH s0) t) (nodes_at (sG s0) t) s = (Ok tt, s') /\
    rebuild_inv s0 (final_upto s0 t) s'.
Proof.
  intros HwfG HwfH Hcov Ht Hinv.
  set (list_j1 := nodes_at (sG s0) t).
  set (list_i1 := nodes_at (sH s0) t).
  assert (HndG : NoDup list_j1) by (apply nodes_at_NoDup, wf_tree_NoDup, HwfG).
  assert (HndH : NoDup list_i1) by (apply nodes_at_NoDup, wf_tree_NoDup, HwfH).
  destruct (@forM_inv nat
              (fun i1 =>
                 forM_ list_j1 (fun j1 =>
                   forM_ (predecessors (sH s0) i1) (fun m =>
                     forM_ (predecessors (sG s0) j1)
                           (fun n => rebuild_cell j1 i1 n m))))
              (fun done s' =>
                 rebuild_inv s0
                   (fun j i => final_upto s0 (t - 1) j i \/
                               (In i done /\ In j list_j1)) s')
              list_i1) with (s := s) as (s' & Hrun & Hinv').
  - intros done x rest s1 Hl Hinv1.
    assert (Hx : In x list_i1) by (rewrite Hl; apply in_or_app; right; now left).
    assert (Hxd : ~ In x done) by (rewrite Hl in HndH; eapply NoDup_middle_notin; eauto).
    pose proof Hx as Hxat. apply nodes_at_In in Hxat. destruct Hxat as [Hxn Hxs].
    destruct (@wf_tree_parent (sH s0) x HwfH Hxn ltac:(lia))
      as (m & Hpm & Hmn & Hms).
    destruct (@rebuild_column s0 _ s1 t list_j1 x m HwfG Hinv1 HndG Ht)
      as (s2 & Hcol & Hinv2).
    + auto.
    + intros j Hj [(t' & Ht' & Hjt' & _)|[Hd _]]; [|contradiction].
      apply nodes_at_In in Hj. apply nodes_at_In in Hjt'. lia.
    + intros j Hj. apply nodes_at_In in Hj.
      apply (@covers_spec _ _ _ j x Hcov); right; tauto.
    + exact Hpm.
    + intros n Hn. apply nodes_at_In in Hn. destruct Hn as [Hnn Hns].
      destruct (Z.eq_dec t 1) as [->|Ht1].
      * left. repeat split.
        -- apply (@wf_tree_stage0 _ n HwfG Hnn). lia.
        -- apply (@wf_tree_stage0 _ m HwfH Hmn). lia.
      * right. left. exists (t - 1)%Z. split; [lia|].
        split; apply nodes_at_In; split; auto; lia.
    + exists s2. split; [exact Hcol|].
      eapply rebuild_inv_ext; [|exact Hinv2].
      intros j i. rewrite in_app_iff. simpl. intuition (subst; auto).
  - eapply rebuild_inv_ext; [|exact Hinv]. intros j i. simpl. tauto.
  - exists s'. split.
    + unfold rebuild_stage.
      rewrite (@bind_run _ _ get_G _ s (sG s) s eq_refl).
      rewrite (@bind_run _ _ get_H _ s (sH s) s eq_refl).
      rewrite (ri_G Hinv), (ri_H Hinv). exact Hrun.
    + eapply rebuild_inv_ext; [|exact Hinv'].
      intros j i. unfold final_upto. split.
      * intros [(t' & Ht' & Hj & Hi)|[Hi Hj]].
        -- exists t'. repeat split; auto; lia.
        -- exists t. repeat split; auto; lia.
      * intros (t' & Ht' & Hj & Hi).
        destruct (Z.eq_dec t' t) as [->|Hne].
        -- right. split; assumption.
        -- left. exists t'. repeat split; auto; lia.
Qed.

(** Lines 172-181: the stages [a], [a + 1], ..., [T]. *)
Lemma rebuild_stages s0 T :
  wf_tree (sG s0) = true ->
  wf_tree (sH s0) = true ->
  covers (sPi s0) (sG s0) (sH s0) = true ->
  forall k a s,
    (1 <= a)%Z -> Z.to_nat (T + 1 - a) = k ->
    rebuild_inv s0 (final_upto s0 (a - 1)) s ->
    exists s' b,
      forM_ (py_range a (T + 1))
            (fun t => rebuild_stage (nodes_at (sH s0) t) (nodes_at (sG s0) t)) s
      = (Ok tt, s') /\
      (T <= b)%Z /\ rebuild_inv s0 (final_upto s0 b) s'.
Proof.
  intros HwfG HwfH Hcov. induction k as [|k IH]; intros a s Ha Hk Hinv.
  - rewrite py_range_nil by lia. exists s, (a - 1)%Z.
    split; [reflexivity|]. split; [lia | exact Hinv].
  - rewrite py_range_cons by lia.
    destruct (@rebuild_stage_step s0 s a HwfG HwfH Hcov Ha Hinv) as (s1 & Hrun & Hinv1).
    destruct (IH (a + 1)%Z s1) as (s' & b & Hrest & Hb & Hinv').
    { lia. } { lia. }
    { now replace (a + 1 - 1)%Z with a by lia. }
    exists s', b. split; [|split; assumption].
    simpl. now rewrite (@bind_run _ _ _ _ _ _ _ Hrun).
Qed.

(** The forward rebuild by itself, from any store: on well-formed trees
    whose nodes [Pi] covers, it succeeds, changes nothing but [Pi], leaves
    [Pi[0, 0] = 1], and leaves in [Pi[j, i]], for every pair of nodes [j] of
    [G] and [i] of [H] at the same stage [t] between 1 and [T], the product
    along the ancestor chain of the pair of the entries that [Pi] held at
    the start. *)
Lemma rebuild_chain_product (T : Z) (s : store) :
  wf_tree (sG s) = true ->
  wf_tree (sH s) = true ->
  covers (sPi s) (sG s) (sH s) = true ->
  exists s',
    rebuild T s = (Ok tt, s') /\
    sG s' = sG s /\ sH s' = sH s /\ sD s' = sD s /\ sCalls s' = sCalls s /\
    mget (sPi s') 0 0 = Ok 1 /\
    forall t j i,
      (1 <= t <= T)%Z ->
      In j (nodes_at (sG s) t) -> In i (nodes_at (sH s) t) ->
      mget (sPi s') j i =
      Ok (chain_product (sG s) (sH s) (sPi s) (Z.to_nat t) j i).
Proof.
  intros HwfG HwfH Hcov.
  destruct (@covers_spec _ _ _ 0%nat 0%nat Hcov) as (v00 & H00); [now left..|].
  destruct (@mset_defined (sPi s) 0 0 1 v00 H00) as (P1 & HP1).
  set (s1 := mkStore (sG s) (sH s) P1 (sD s) (sCalls s)).
  assert (Hinv1 : rebuild_inv s (final_upto s (1 - 1)) s1).
  { constructor; simpl; auto.
    - intros j i v Hv.
      destruct (Nat.eq_dec j 0) as [->|Hj]; [destruct (Nat.eq_dec i 0) as [->|Hi]|].
      + rewrite (@mget_mset_eq _ _ _ _ _ HP1). eauto.
      + rewrite (@mget_mset_ne _ _ _ _ _ _ _ HP1) by auto. eauto.
      + rewrite (@mget_mset_ne _ _ _ _ _ _ _ HP1) by auto. eauto.
    - apply (@mget_mset_eq _ _ _ _ _ HP1).
    - intros j i (t & Ht & _). lia.
    - intros j i _ Hj. apply (@mget_mset_ne _ _ _ _ _ _ _ HP1). now left. }
  destruct (@rebuild_stages s T HwfG HwfH Hcov _ 1%Z s1 ltac:(lia) eq_refl Hinv1)
    as (s' & b & Hrun & Hb & Hinv').
  exists s'. split.
  - unfold rebuild.
    assert (Hw : write_Pi 0 0 1 s = (Ok tt, s1)).
    { unfold write_Pi. rewrite HP1. reflexivity. }
    rewrite (@bind_run _ _ _ _ _ _ _ Hw).
    rewrite (@bind_run _ _ get_G _ s1 (sG s1) s1 eq_refl).
    rewrite (@bind_run _ _ get_H _ s1 (sH s1) s1 eq_refl).
    exact Hrun.
  - destruct Hinv' as [HG HH HD HC _ Hroot Hfin _].
    repeat split; auto.
    intros t j i Ht Hj Hi.
    rewrite (Hfin j i).
    + apply nodes_at_In in Hj. destruct Hj as [_ ->]. reflexivity.
    + exists t. repeat split; auto; lia.
Qed.

End RebuildFacts.

Section RebuildExamples.

Import Examples.

Local Open Scope Q_scope.

Example rebuild_chain_product_deep :
  exists s',
    rebuild 2 s_rebuild = (Ok tt, s') /\
    sG s' = sG s_rebuild /\ sH s' = sH s_rebuild /\
    sD s' = sD s_rebuild /\ sCalls s' = sCalls s_rebuild /\
    mget (sPi s') 0 0 = Ok 1 /\
    forall t j i,
      (1 <= t <= 2)%Z ->
      In j (nodes_at (sG s_rebuild) t) -> In i (nodes_at (sH s_rebuild) t) ->
      mget (sPi s') j i =
      Ok (chain_product (sG s_rebuild) (sH s_rebuild) (sPi s_rebuild)
                        (Z.to_nat t) j i).
Proof.
  apply (@rebuild_chain_product 2 s_rebuild); reflexivity.
Qed.

(** The rebuilt matrix of the example: each entry of stage 2 has been
    multiplied by the entry of its parents. *)
Example rebuild_s_rebuild :
  sPi (snd (rebuild 2 s_rebuild)) =
  [[1; 0; 0; 0; 0];
   [0; 1 # 2; 1 # 3; 0; 0];
   [0; 1 # 4; 1 # 5; 0; 0];
   [0; 0; 0; 1 # 4; 1 # 9];
   [0; 0; 0; 1 # 24; 1 # 35]].
Proof. vm_compute. reflexivity. Qed.

End RebuildExamples.

(** ** The driver: the seeding of [Pi] *)

Section SeedFacts.

Context {E : Externals}.

Local Open Scope Q_scope.

(** *** Children and parents in a well-formed tree *)

Lemma successors_In g n j :
  In j (successors g n) <-> exists w, In (n, j, w) (edges g).
Proof.
  unfold successors. rewrite in_map_iff. split.
  - intros ([[a b] w] & Hdst & Hin). apply filter_In in Hin.
    destruct Hin as [Hin Hsrc]. unfold src, dst in *. simpl in *.
    apply Nat.eqb_eq in Hsrc. subst. now exists w.
  - intros (w & Hin). exists (n, j, w). split; [reflexivity|].
    apply filter_In. split; [exact Hin|]. unfold src. simpl. apply Nat.eqb_refl.
Qed.


Lemma weight_defined g m i :
  In i (successors g m) -> exists w, weight g m i = Ok w.
Proof.
  intros Hin. apply successors_In in Hin. destruct Hin as (w & Hin).
  unfold weight. destruct (find (is_edge m i) (edges g)) as [e|] eqn:Hfind.
  - now exists (snd e).
  - pose proof (find_none _ _ Hfind _ Hin) as Hnone.
    unfold is_edge, src, dst in Hnone. simpl in Hnone.
    now rewrite !Nat.eqb_refl in Hnone.
Qed.



Lemma compact_bound g j : compact g = true -> In j (nodes g) -> (j < length (nodes g))%nat.
Proof.
  unfold compact. rewrite andb_true_iff, forallb_forall. intros [_ H] Hj.
  now apply Nat.ltb_lt, H.
Qed.

Lemma compact_root g : compact g = true -> (0 < length (nodes g))%nat.
Proof.
  intros Hc. apply compact_bound; [exact Hc|].
  unfold compact in Hc. apply andb_true_iff in Hc.
  now apply existsb_eqb_In.
Qed.

Lemma mget_np_zeros r c j i :
  (j < r)%nat -> (i < c)%nat -> mget (np_zeros r c) j i = Ok 0.
Proof.
  intros Hj Hi. unfold mget, np_zeros, index.
  rewrite (nth_error_repeat _ Hj). simpl.
  now rewrite (nth_error_repeat _ Hi).
Qed.

Lemma mget_np_zeros_inv r c j i v :
  mget (np_zeros r c) j i = Ok v -> (j < r)%nat /\ (i < c)%nat.
Proof.
  unfold mget, np_zeros. intros H.
  apply rbind_Ok_inv in H. destruct H as (row & Hrow & Hv).
  apply index_Ok_inv in Hrow. apply index_Ok_inv in Hv.
  assert (Hj : (j < r)%nat).
  { rewrite <- (repeat_length (repeat 0 c) r). apply nth_error_Some. congruence. }
  split; [exact Hj|].
  rewrite (nth_error_repeat _ Hj) in Hrow. inversion Hrow; subst row.
  rewrite <- (repeat_length 0 c). apply nth_error_Some. congruence.
Qed.

(** *** The invariant of the seeding *)








(** A Python set holds the elements of the list it was built from. *)
Hypothesis py_set_In : forall l x, In x (py_set l) <-> In x l.







(** The test of line 56 is on the sum that NumPy computes: when it is zero
    the body of the [if] runs, otherwise [Pi] is left as supplied. *)
Lemma init_Pi_zero_sum (s : store) :
  np_sum_f64 (concat (sPi s)) == 0 ->
  init_Pi s = seed_Pi (length (nodes (sG s))) (length (nodes (sH s))) s.
Proof.
  intros Hzero. unfold init_Pi, bind, get_G, get_H, get_Pi.
  apply Qeq_bool_iff in Hzero. now rewrite Hzero.
Qed.

Lemma init_Pi_nonzero_sum (s : store) :
  ~ np_sum_f64 (concat (sPi s)) == 0 -> init_Pi s = (Ok tt, s).
Proof.
  intros Hnz. unfold init_Pi, bind, get_G, get_H, get_Pi.
  destruct (Qeq_bool (np_sum_f64 (concat (sPi s))) 0) eqn:Hb; [|reflexivity].
  apply Qeq_bool_iff in Hb. contradiction.
Qed.

End SeedFacts.

Section SeedExamples.

Import Examples.

Local Open Scope Q_scope.

(** With sums that are computed without rounding, a supplied matrix with
    cancelling entries 1 and -1 is replaced by the seed, and a supplied
    matrix whose entries sum to 1 is kept. *)
Example init_Pi_cancelling_entries :
  @init_Pi E_even (mkStore G_two H_even [[1; -1 # 1]; [0; 0]] [] []) =
  (Ok tt,
   mkStore G_two H_even
           [[1; 0; 0]; [0; 1 # 4; 1 # 4]; [0; 1 # 4; 1 # 4]] [] []).
Proof. vm_compute. reflexivity. Qed.

Example init_Pi_keeps_nonzero_sum :
  @init_Pi E_even (mkStore G_two H_even [[1; 0]; [0; 0]] [] []) =
  (Ok tt, mkStore G_two H_even [[1; 0]; [0; 0]] [] []).
Proof. vm_compute. reflexivity. Qed.

End SeedExamples.

(** ** The task partitioner: any worker count *)

Section PartitionEdges.

Local Open Scope Z_scope.

(** X1. [division_tasks N P] returns for every task count [N >= 0] and every
    worker count [P >= 1], also when there are more workers than tasks: it
    gives [P] groups that concatenate to [0, ..., N-1], the group of rank
    [k] holding [N / P] tasks, and one more when [k < N mod P]; with
    [N < P] the first [N] groups hold one task and the others are empty. *)
Theorem division_tasks_any_pool (N P : Z) :
  0 <= N -> 1 <= P ->
  exists gs,
    division_tasks N P = Ok gs /\
    Z.of_nat (length gs) = P /\
    concat gs = py_range 0 N /\
    (forall k, (k < length gs)%nat ->
       Z.of_nat (length (nth k gs [])) =
       N / P + (if Z.of_nat k <? N mod P then 1 else 0)) /\
    (N < P -> forall k, (k < length gs)%nat ->
       length (nth k gs []) = if Z.of_nat k <? N then 1%nat else 0%nat).
Proof.
  intros HN HP.
  assert (Hsmall : forall gs : list (list Z),
            (forall k, (k < length gs)%nat ->
               Z.of_nat (length (nth k gs [])) =
               N / P + (if Z.of_nat k <? N mod P then 1 else 0)) ->
            N < P -> forall k, (k < length gs)%nat ->
            length (nth k gs []) = if Z.of_nat k <? N then 1%nat else 0%nat).
  { intros gs Hsz HNP k Hk. specialize (Hsz k Hk).
    rewrite Z.div_small, Z.mod_small in Hsz by lia.
    destruct (Z.of_nat k <? N); lia. }
  unfold division_tasks.
  destruct (Z.eqb_spec P 0) as [|_]; [lia|].
  destruct (Z.eqb_spec (N mod P) 0) as [Hm|Hm].
  - destruct (@np_split_ok Z (py_range 0 N) P) as (gs & Hgs & Hlen & Hcat & Hsz).
    { lia. }
    { rewrite py_range_length. now replace (Z.of_nat (Z.to_nat (N - 0))) with N by lia. }
    rewrite py_range_length in Hsz.
    replace (Z.of_nat (Z.to_nat (N - 0))) with N in Hsz by lia.
    assert (Hk : forall k, (k < length gs)%nat ->
              Z.of_nat (length (nth k gs [])) =
              N / P + (if Z.of_nat k <? N mod P then 1 else 0)).
    { intros k Hk. rewrite Forall_forall in Hsz.
      rewrite (Hsz (nth k gs [])) by (apply nth_In; exact Hk).
      rewrite Hm. destruct (Z.ltb_spec (Z.of_nat k) 0); lia. }
    exists gs. repeat split; auto.
  - set (d := N / P) in *. set (c := N mod P) in *.
    assert (Hc : 0 < c < P).
    { pose proof (Z.mod_pos_bound N P ltac:(lia)). unfold c in *. lia. }
    assert (HNd : N = P * d + c) by (unfold d, c; apply Z.div_mod; lia).
    assert (Hd : 0 <= d) by (unfold d; apply Z.div_pos; lia).
    destruct (@np_split_ok Z (py_range 0 (d * c + c)) c)
      as (g1 & Hg1 & Hlen1 & Hcat1 & Hsz1).
    { lia. }
    { rewrite py_range_length.
      replace (Z.of_nat (Z.to_nat (d * c + c - 0))) with ((d + 1) * c) by nia.
      apply Z.mod_mul. lia. }
    destruct (@np_split_ok Z (py_range (d * c + c) N) (P - c))
      as (g2 & Hg2 & Hlen2 & Hcat2 & Hsz2).
    { lia. }
    { rewrite py_range_length.
      replace (Z.of_nat (Z.to_nat (N - (d * c + c)))) with (d * (P - c)) by nia.
      apply Z.mod_mul. lia. }
    rewrite py_range_length in Hsz1, Hsz2.
    replace (Z.of_nat (Z.to_nat (d * c + c - 0)) / c) with (d + 1) in Hsz1.
    2:{ replace (Z.of_nat (Z.to_nat (d * c + c - 0))) with ((d + 1) * c) by nia.
        symmetry. apply Z.div_mul. lia. }
    replace (Z.of_nat (Z.to_nat (N - (d * c + c))) / (P - c)) with d in Hsz2.
    2:{ replace (Z.of_nat (Z.to_nat (N - (d * c + c)))) with (d * (P - c)) by nia.
        symmetry. apply Z.div_mul. lia. }
    rewrite Hg1. simpl. rewrite Hg2. simpl.
    rewrite Forall_forall in Hsz1, Hsz2.
    assert (Hk : forall k, (k < length (g1 ++ g2))%nat ->
              Z.of_nat (length (nth k (g1 ++ g2) [])) =
              d + (if Z.of_nat k <? c then 1 else 0)).
    { intros k Hk. rewrite length_app in Hk.
      destruct (Z.ltb_spec (Z.of_nat k) c) as [Hkc|Hkc].
      - rewrite app_nth1 by lia. apply Hsz1, nth_In. lia.
      - rewrite app_nth2 by lia. rewrite Z.add_0_r. apply Hsz2, nth_In. lia. }
    exists (g1 ++ g2). split; [reflexivity|].
    split; [rewrite length_app; lia|].
    split; [rewrite concat_app, Hcat1, Hcat2; apply py_range_app; nia|].
    split; [exact Hk|]. now apply Hsmall.
Qed.

(** Two tasks among three workers: two groups of one task, one empty. *)
Lemma division_tasks_any_pool_witness :
  exists gs, division_tasks 2 3 = Ok gs /\
             Z.of_nat (length gs) = 3 /\ concat gs = py_range 0 2.
Proof.
  destruct (@division_tasks_any_pool 2 3 ltac:(lia) ltac:(lia))
    as (gs & Hrun & Hlen & Hcat & _).
  exists gs. repeat split; assumption.
Defined.

(** X2. [division_tasks] never returns for a worker count [P <= 0]: with
    [P = 0] the test [nb_tasks % pool_size] of line 298 raises
    [ZeroDivisionError]; with [P < 0] (and [N >= 0]) the remainder test
    of [np.split] passes and its check of the number of sections raises
    [ValueError]. *)
Theorem division_tasks_bad_pool (N P : Z) :
  (P = 0 -> division_tasks N P = Raise ZeroDivisionError) /\
  (P < 0 -> 0 <= N -> division_tasks N P = Raise ValueError).
Proof.
  split.
  - intros ->. reflexivity.
  - intros HP HN. unfold division_tasks.
    destruct (Z.eqb_spec P 0) as [|_]; [lia|].
    destruct (Z.eqb_spec (N mod P) 0) as [Hm|Hm].
    + unfold np_split. destruct (Z.eqb_spec P 0) as [|_]; [lia|].
      rewrite py_range_length.
      replace (Z.of_nat (Z.to_nat (N - 0))) with N by lia.
      rewrite Hm. simpl.
      destruct (Z.leb_spec P 0); [reflexivity|lia].
    + set (d := N / P) in *. set (c := N mod P) in *.
      assert (Hc : P < c < 0).
      { pose proof (Z.mod_neg_bound N P ltac:(lia)). unfold c in *. lia. }
      assert (HNd : N = P * d + c) by (unfold d, c; apply Z.div_mod; lia).
      assert (Hd : d <= -1) by nia.
      assert (Hfirst : np_split (py_range 0 (d * c + c)) c = Raise ValueError).
      { unfold np_split. destruct (Z.eqb_spec c 0) as [|_]; [lia|].
        rewrite py_range_length.
        replace (Z.of_nat (Z.to_nat (d * c + c - 0))) with ((d + 1) * c) by nia.
        rewrite Z.mod_mul by lia. simpl.
        destruct (Z.leb_spec c 0); [reflexivity|lia]. }
      rewrite Hfirst. reflexivity.
Qed.

Lemma division_tasks_bad_pool_witness :
  division_tasks 5 0 = Raise ZeroDivisionError /\
  division_tasks 5 (-2) = Raise ValueError.
Proof.
  split.
  - apply (proj1 (division_tasks_bad_pool 5 0)). reflexivity.
  - apply (proj2 (division_tasks_bad_pool 5 (-2))); lia.
Defined.

End PartitionEdges.

(** ** The subtree reducer: what a call returns *)

Section ReducerResults.

Context {E : Externals}.

Local Open Scope Q_scope.

(** *** The first loop *)

Lemma collect_m_inv t nodesH children_ni n acc m s a s1 :
  collect_m t nodesH children_ni n acc m s = (Ok a, s1) ->
  exists p dm c,
    subproblem s children_ni nodesH n m p dm c /\
    l_b a = l_b acc ++ [p] /\
    l_dist_matrices a = l_dist_matrices acc ++ [dm] /\
    l_c a = l_c acc ++ [c] /\
    (if (0 <? t)%Z
     then exists anc, index (predecessors (sH s) m) 0 = Ok anc /\
                      l_ancestor_m a = l_ancestor_m acc ++ [anc]
     else l_ancestor_m a = l_ancestor_m acc).
Proof.
  unfold collect_m. intros H.
  apply bind_Ok_inv in H. destruct H as (H0 & s2 & HH & H).
  apply get_H_inv in HH. destruct HH as [-> ->].
  apply bind_Ok_inv in H. destruct H as (p & s2 & Hp & H).
  apply lift_Ok_inv in Hp. destruct Hp as [Hp ->].
  apply bind_Ok_inv in H. destruct H as (D_ij & s2 & HD & H).
  unfold get_D in HD. inversion HD; subst D_ij s2; clear HD.
  apply bind_Ok_inv in H. destruct H as (rows & s2 & Hrows & H).
  apply lift_Ok_inv in Hrows. destruct Hrows as [Hrows ->].
  apply bind_Ok_inv in H. destruct H as (dm & s2 & Hdm & H).
  apply lift_Ok_inv in Hdm. destruct Hdm as [Hdm ->].
  apply bind_Ok_inv in H. destruct H as (w & s2 & Hw & H).
  unfold read_Pi in Hw. inversion Hw as [[Hw' Hs2]]; subst s2; clear Hw.
  apply bind_Ok_inv in H. destruct H as (anc & s2 & Hanc & H).
  apply ret_inv in H. destruct H as [-> _]. simpl.
  exists p, dm, (mul_scalar dm w). split.
  { split; [exact Hp|]. split; [exists rows; now split|]. exists w. now split. }
  repeat split.
  destruct (0 <? t)%Z.
  - apply bind_Ok_inv in Hanc. destruct Hanc as (x & s3 & Hx & Hanc).
    apply lift_Ok_inv in Hx. destruct Hx as [Hx ->].
    apply ret_inv in Hanc. destruct Hanc as [-> _].
    exists x. now split.
  - apply ret_inv in Hanc. now destruct Hanc as [-> _].
Qed.

Lemma collect_m_fold_inv t nodesH children_ni n list_m :
  forall acc s l s1,
    foldM (collect_m t nodesH children_ni n) list_m acc s = (Ok l, s1) ->
    exists bs dms cs ancs,
      l_b l = l_b acc ++ bs /\
      l_dist_matrices l = l_dist_matrices acc ++ dms /\
      l_c l = l_c acc ++ cs /\
      l_ancestor_m l = l_ancestor_m acc ++ ancs /\
      (forall i m, nth_error list_m i = Some m ->
         exists p dm c,
           nth_error bs i = Some p /\ nth_error dms i = Some dm /\
           nth_error cs i = Some c /\
           subproblem s children_ni nodesH n m p dm c) /\
      (if (0 <? t)%Z
       then Forall2 (fun m a => index (predecessors (sH s) m) 0 = Ok a)
                    list_m ancs
       else ancs = []).
Proof.
  induction list_m as [|m list_m IH]; intros acc s l s1 H; simpl in H.
  - apply ret_inv in H. destruct H as [-> _].
    exists [], [], [], []. rewrite !app_nil_r. repeat split; auto.
    + intros [|i] m' Hm; discriminate.
    + destruct (0 <? t)%Z; [constructor | reflexivity].
  - apply bind_Ok_inv in H. destruct H as (a & s2 & Hm & H).
    assert (s2 = s) by (eapply keeps_inv; [apply collect_m_keeps | exact Hm]).
    subst s2.
    apply collect_m_inv in Hm.
    destruct Hm as (p & dm & c & Hsub & Hb & Hd & Hc & Ha).
    apply IH in H.
    destruct H as (bs & dms & cs & ancs & Hbs & Hdms & Hcs & Hancs & Hnth & Hanc).
    destruct (0 <? t)%Z.
    + destruct Ha as (anc & Hx & Ha).
      exists (p :: bs), (dm :: dms), (c :: cs), (anc :: ancs).
      rewrite Hbs, Hdms, Hcs, Hancs, Hb, Hd, Hc, Ha, <- !app_assoc.
      repeat split; auto.
      intros [|i] m' Hm'; simpl in *.
      * inversion Hm'; subst m'. exists p, dm, c. auto.
      * now apply Hnth.
    + subst ancs.
      exists (p :: bs), (dm :: dms), (c :: cs), [].
      rewrite Hbs, Hdms, Hcs, Hancs, Hb, Hd, Hc, Ha, <- !app_assoc.
      repeat split; auto.
      intros [|i] m' Hm'; simpl in *.
      * inversion Hm'; subst m'. exists p, dm, c. auto.
      * now apply Hnth.
Qed.

(** What the first loop and the parent lookup leave in the locals. *)
Lemma collect_inv t nodesG nodesH list_m n s la s1 :
  collect t nodesG nodesH list_m n s = (Ok la, s1) ->
  (forall i m, nth_error list_m i = Some m ->
     exists p dm c,
       nth_error (l_b (fst la)) i = Some p /\
       nth_error (l_dist_matrices (fst la)) i = Some dm /\
       nth_error (l_c (fst la)) i = Some c /\
       subproblem s (positions nodesG (successors (sG s) n)) nodesH n m p dm c) /\
  (if (0 <? t)%Z
   then Forall2 (fun m a => index (predecessors (sH s) m) 0 = Ok a)
                list_m (l_ancestor_m (fst la)) /\
        exists a, index (predecessors (sG s) n) 0 = Ok a /\ snd la = [a]
   else l_ancestor_m (fst la) = [] /\ snd la = []).
Proof.
  unfold collect. intros H.
  apply bind_Ok_inv in H. destruct H as (G & s2 & HG & H).
  apply get_G_inv in HG. destruct HG as [-> ->].
  apply bind_Ok_inv in H. destruct H as (l & s2 & Hl & H).
  assert (s2 = s).
  { eapply keeps_inv; [|exact Hl]. apply keeps_foldM. intros; apply collect_m_keeps. }
  subst s2.
  apply collect_m_fold_inv in Hl.
  destruct Hl as (bs & dms & cs & ancs & Hbs & Hdms & Hcs & Hancs & Hnth & Hanc).
  simpl in Hbs, Hdms, Hcs, Hancs.
  apply bind_Ok_inv in H. destruct H as (an & s3 & Han & H).
  apply ret_inv in H. destruct H as [-> _]. simpl.
  rewrite Hbs, Hdms, Hcs, Hancs. split; [exact Hnth|].
  destruct (0 <? t)%Z.
  - split; [exact Hanc|].
    apply bind_Ok_inv in Han. destruct Han as (x & s4 & Hx & Han).
    apply lift_Ok_inv in Hx. destruct Hx as [Hx ->].
    apply ret_inv in Han. destruct Han as [-> _]. exists x. now split.
  - split; [exact Hanc|]. apply ret_inv in Han. now destruct Han as [-> _].
Qed.

(** *** The last loop *)

(** The last loop writes, at each position it visits, the total of the
    elementwise product of the stabilised plan and the distance slice. *)
Lemma stabilize_loop_dist eps dms :
  forall k a P0 d0 r,
    rfold (stabilize_step eps dms) (seq a k) (Some P0, d0) = Ok r ->
    length (snd r) = length d0 /\
    (forall i, (a <= i < a + k)%nat -> (i < length d0)%nat ->
       exists X dm pr,
         nth_error P0 i = Some X /\ nth_error dms i = Some dm /\
         np_multiply (stabilize eps X) dm = Ok pr /\
         nth_error (snd r) i = Some (np_sum pr)) /\
    (forall i, ~ (a <= i < a + k)%nat -> nth_error (snd r) i = nth_error d0 i).
Proof.
  induction k as [|k IH]; intros a P0 d0 r H; simpl in H.
  - inversion H; subst; simpl. repeat split; auto. intros i Hi. lia.
  - apply rbind_Ok_inv in H. destruct H as (acc & Hstep & H).
    unfold stabilize_step in Hstep. simpl in Hstep.
    apply rbind_Ok_inv in Hstep. destruct Hstep as (X & HX & Hstep).
    apply rbind_Ok_inv in Hstep. destruct Hstep as (dm & Hdm & Hstep).
    apply rbind_Ok_inv in Hstep. destruct Hstep as (pr & Hpr & Hstep).
    inversion Hstep; subst acc; clear Hstep.
    apply index_Ok_inv in HX. apply index_Ok_inv in Hdm.
    apply IH in H. destruct H as (Hlen & Hin & Hout).
    rewrite set_nth_length in Hlen, Hin.
    split; [exact Hlen|]. split.
    + intros i Hi Hid. destruct (Nat.eq_dec i a) as [->|Hne].
      * exists X, dm, pr. repeat split; auto.
        rewrite Hout by lia. now apply nth_error_set_nth_eq.
      * destruct (Hin i ltac:(lia) Hid) as (Y & dm' & pr' & HY & Hdm' & Hpr' & Hr).
        exists Y, dm', pr'. repeat split; auto.
        now rewrite nth_error_set_nth_ne in HY by auto.
    + intros i Hi. rewrite Hout by lia.
      apply nth_error_set_nth_ne. lia.
Qed.

(** The phases of a call that returns, with the locals of each. *)
Lemma loop_subtree_n_inv t nodesG nodesH list_m method lambda_IBP rho
    epsilon pool_sizeMAM n s o s' :
  _loop_subtree_n t nodesG nodesH list_m method lambda_IBP rho epsilon
    pool_sizeMAM n s = (Ok o, s') ->
  exists la P0 r,
    collect t nodesG nodesH list_m n s = (Ok la, s) /\
    solve method lambda_IBP rho pool_sizeMAM (successors (sG s) n)
          (l_b (fst la)) (l_c (fst la)) s = (Ok (Some P0), s') /\
    rfold (stabilize_step epsilon (l_dist_matrices (fst la)))
          (seq 0 (length list_m)) (Some P0, repeat 0 (length list_m)) = Ok r /\
    fst r = Some (out_Pi_k o) /\
    out_D_ij_t o = snd r /\
    out_ancestor_m o = l_ancestor_m (fst la) /\
    out_ancestor_n o = snd la.
Proof.
  unfold _loop_subtree_n. intros H.
  apply bind_Ok_inv in H. destruct H as (G & s1 & HG & H).
  apply get_G_inv in HG. destruct HG as [-> ->].
  apply bind_Ok_inv in H. destruct H as (la & s1 & Hla & H).
  assert (s1 = s) by (eapply keeps_inv; [apply collect_keeps | exact Hla]).
  subst s1.
  apply bind_Ok_inv in H. destruct H as (Pi_k & s2 & Hsolve & H).
  apply bind_Ok_inv in H. destruct H as (r & s3 & Hr & H).
  apply lift_Ok_inv in Hr. destruct Hr as [Hr ->].
  destruct Pi_k as [P0|].
  - destruct (fst r) as [P|] eqn:HP; [|discriminate].
    apply ret_inv in H. destruct H as [-> ->].
    exists la, P0, r. simpl. repeat split; auto.
  - rewrite stabilize_loop_None in Hr.
    destruct (seq 0 (length list_m)); [|discriminate].
    inversion Hr; subst r. simpl in H. discriminate.
Qed.

(** X3. What a returning call records for the next stage (lines 217-223):
    at a stage [t > 0] the first predecessor of [n] in [G], alone, and the
    first predecessor in [H] of each candidate, in the order of the
    candidates; at stage 0 (or below) nothing. *)
Theorem loop_subtree_n_ancestors t nodesG nodesH list_m method lambda_IBP rho
    epsilon pool_sizeMAM n (s s' : store) (o : output) :
  _loop_subtree_n t nodesG nodesH list_m method lambda_IBP rho epsilon
    pool_sizeMAM n s = (Ok o, s') ->
  ((0 < t)%Z ->
   (exists p, index (predecessors (sG s) n) 0 = Ok p /\ out_ancestor_n o = [p]) /\
   Forall2 (fun m a => index (predecessors (sH s) m) 0 = Ok a)
           list_m (out_ancestor_m o)) /\
  ((t <= 0)%Z -> out_ancestor_n o = [] /\ out_ancestor_m o = []).
Proof.
  intros Hrun. apply loop_subtree_n_inv in Hrun.
  destruct Hrun as (la & P0 & r & Hcollect & _ & _ & _ & _ & Hm & Hn).
  apply collect_inv in Hcollect. destruct Hcollect as [_ Hanc].
  rewrite Hm, Hn. split; intros Ht.
  - destruct (Z.ltb_spec 0 t) as [_|Hle]; [|lia].
    destruct Hanc as [HF Ha]. split; assumption.
  - destruct (Z.ltb_spec 0 t) as [Hlt|_]; [lia|].
    destruct Hanc as [Hnil Ha]. split; assumption.
Qed.

(** X4. The local distances of a returning call (lines 193, 211-213, 281):
    one per candidate, and the one of candidate [m] is the total of the
    elementwise product of the plan returned for [m] with the slice of
    [D_ij] whose rows are the positions in [nodesG] of the children of [n]
    and whose columns are the positions in [nodesH] of the children of [m].
    The slice is the one taken from [D_ij] itself, not the one scaled by
    [Pi[n, m]] that is handed to the solver. *)
Theorem loop_subtree_n_distances t nodesG nodesH list_m method lambda_IBP rho
    epsilon pool_sizeMAM n (s s' : store) (o : output) :
  _loop_subtree_n t nodesG nodesH list_m method lambda_IBP rho epsilon
    pool_sizeMAM n s = (Ok o, s') ->
  length (out_D_ij_t o) = length list_m /\
  forall i_m m, nth_error list_m i_m = Some m ->
    exists P rows dm pr,
      nth_error (out_Pi_k o) i_m = Some P /\
      take_rows (sD s) (positions nodesG (successors (sG s) n)) = Ok rows /\
      take_cols rows (positions nodesH (successors (sH s) m)) = Ok dm /\
      np_multiply P dm = Ok pr /\
      nth_error (out_D_ij_t o) i_m = Some (np_sum pr).
Proof.
  intros Hrun. apply loop_subtree_n_inv in Hrun.
  destruct Hrun as (la & P0 & r & Hcollect & _ & Hloop & HP & HD & _ & _).
  apply collect_inv in Hcollect. destruct Hcollect as [Hsub _].
  pose proof Hloop as Hloop'. apply stabilize_loop_Some in Hloop'.
  destruct Hloop' as (P & HP' & _ & Hplans & _).
  rewrite HP in HP'. inversion HP'; subst P; clear HP'.
  apply stabilize_loop_dist in Hloop. destruct Hloop as (Hlen & Hd & _).
  rewrite repeat_length in Hlen, Hd. rewrite HD.
  split; [exact Hlen|].
  intros i_m m Hm.
  assert (Hi : (i_m < length list_m)%nat) by (apply nth_error_Some; congruence).
  destruct (Hsub i_m m Hm) as (p & dm & c & _ & Hdm & _ & _ & (rows & Hrows & Hcols) & _).
  destruct (Hplans i_m ltac:(lia)) as (X & HX & HPi).
  destruct (Hd i_m ltac:(lia) Hi) as (X' & dm' & pr & HX' & Hdm' & Hpr & Hr).
  rewrite HX in HX'. inversion HX'; subst X'.
  rewrite Hdm in Hdm'. inversion Hdm'; subst dm'.
  exists (stabilize epsilon X), rows, dm, pr. repeat split; auto.
Qed.

(** X5. Which solver a returning call has used for a node with two children
    or more (lines 231-273). Exactly one solver call is made. With "MAM"
    it is [MAM_MPI] when the communicator has more than one process and
    [MAM] otherwise, on the marginals [b], the scaled distance slices [c]
    and [rho]; with "IBP" it is [barycenter_IBP] on the marginals embedded
    in a common support, the slices concatenated side by side and
    [lambda_IBP]; with "LP" it is [LP_reduction_nt] on the concatenated
    slices and the marginals. The returned plans are the solver's plans
    (cut per candidate for "IBP" and "LP"), stabilised. *)
Theorem loop_subtree_n_dispatch t nodesG nodesH list_m method lambda_IBP rho
    epsilon pool_sizeMAM n (s s' : store) (o : output) :
  (2 <= length (successors (sG s) n))%nat ->
  _loop_subtree_n t nodesG nodesH list_m method lambda_IBP rho epsilon
    pool_sizeMAM n s = (Ok o, s') ->
  exists b c P0 call,
    sCalls s' = sCalls s ++ [call] /\
    (forall i_m m, nth_error list_m i_m = Some m ->
       exists p dm cm X,
         nth_error b i_m = Some p /\ nth_error c i_m = Some cm /\
         subproblem s (positions nodesG (successors (sG s) n)) nodesH n m p dm cm /\
         nth_error P0 i_m = Some X /\
         nth_error (out_Pi_k o) i_m = Some (stabilize epsilon X)) /\
    ((method = "MAM"%string /\ (1 < pool_sizeMAM)%Z /\
      call = Call_MAM_MPI /\ P0 = MAM_MPI b c rho) \/
     (method = "MAM"%string /\ (pool_sizeMAM <= 1)%Z /\
      call = Call_MAM /\ P0 = MAM b c rho) \/
     (method = "IBP"%string /\ call = Call_barycenter_IBP /\
      exists c_, np_concatenate1 c = Ok c_ /\
        split_ibp 0 0 b
          (barycenter_IBP (embed (list_sum (map (@length Q) b)) 0 b) c_ lambda_IBP)
        = Ok P0) \/
     (method = "LP"%string /\ call = Call_LP_reduction_nt /\
      exists c_lp, np_concatenate1 c = Ok c_lp /\
        P0 = split_lp 0 b (LP_reduction_nt c_lp b))).
Proof.
  intros Hlen Hrun. apply loop_subtree_n_inv in Hrun.
  destruct Hrun as (la & P0 & r & Hcollect & Hsolve & Hloop & HP & _).
  apply collect_inv in Hcollect. destruct Hcollect as [Hsub _].
  pose proof Hloop as Hloop'. apply stabilize_loop_Some in Hloop'.
  destruct Hloop' as (P & HP' & _ & Hplans & _).
  rewrite HP in HP'. inversion HP'; subst P; clear HP'.
  assert (Hper : forall i_m m, nth_error list_m i_m = Some m ->
            exists p dm cm X,
              nth_error (l_b (fst la)) i_m = Some p /\
              nth_error (l_c (fst la)) i_m = Some cm /\
              subproblem s (positions nodesG (successors (sG s) n)) nodesH n m p dm cm /\
              nth_error P0 i_m = Some X /\
              nth_error (out_Pi_k o) i_m = Some (stabilize epsilon X)).
  { intros i_m m Hm.
    assert (Hi : (i_m < length list_m)%nat) by (apply nth_error_Some; congruence).
    destruct (Hsub i_m m Hm) as (p & dm & cm & Hp & _ & Hc & Hs).
    destruct (Hplans i_m ltac:(lia)) as (X & HX & HPi).
    exists p, dm, cm, X. repeat split; auto; apply Hs. }
  unfold solve in Hsolve.
  destruct (Nat.eqb_spec (length (successors (sG s) n)) 1) as [Heq|_]; [lia|].
  destruct (Nat.ltb_spec 1 (length (successors (sG s) n))) as [_|Hle]; [|lia].
  destruct (String.eqb_spec method "MAM") as [HMAM|HnMAM].
  { destruct (Z.ltb_spec 1 pool_sizeMAM) as [Hpool|Hpool];
      apply bind_Ok_inv in Hsolve; destruct Hsolve as (Pi_k & s2 & Hcall & Hret);
      apply ret_inv in Hret; destruct Hret as [HPk ->];
      inversion HPk; subst Pi_k; clear HPk;
      unfold call in Hcall; inversion Hcall as [[HP0 Hs2]]; clear Hcall.
    - exists (l_b (fst la)), (l_c (fst la)), P0, Call_MAM_MPI.
      split; [first [reflexivity | rewrite <- Hs2; reflexivity]|]. split; [exact Hper|]. left. auto.
    - exists (l_b (fst la)), (l_c (fst la)), P0, Call_MAM.
      split; [first [reflexivity | rewrite <- Hs2; reflexivity]|]. split; [exact Hper|]. right; left. auto. }
  destruct (String.eqb_spec method "IBP") as [HIBP|HnIBP].
  { apply bind_Ok_inv in Hsolve. destruct Hsolve as (c_ & s2 & Hc & Hsolve).
    apply lift_Ok_inv in Hc. destruct Hc as [Hc ->].
    apply bind_Ok_inv in Hsolve. destruct Hsolve as (Pi_ibp & s2 & Hcall & Hsolve).
    unfold call in Hcall. inversion Hcall as [[HPibp Hs2]]; clear Hcall.
    apply bind_Ok_inv in Hsolve. destruct Hsolve as (Pi_k & s3 & Hsplit & Hret).
    apply lift_Ok_inv in Hsplit. destruct Hsplit as [Hsplit ->].
    apply ret_inv in Hret. destruct Hret as [HPk <-].
    inversion HPk; subst Pi_k; clear HPk.
    exists (l_b (fst la)), (l_c (fst la)), P0, Call_barycenter_IBP.
    split; [first [reflexivity | rewrite <- Hs2; reflexivity]|]. split; [exact Hper|]. right; right; left.
    repeat split; auto. exists c_. subst Pi_ibp. now split. }
  destruct (String.eqb_spec method "LP") as [HLP|HnLP].
  { apply bind_Ok_inv in Hsolve. destruct Hsolve as (c_lp & s2 & Hc & Hsolve).
    apply lift_Ok_inv in Hc. destruct Hc as [Hc ->].
    apply bind_Ok_inv in Hsolve. destruct Hsolve as (Pi_lp & s2 & Hcall & Hret).
    unfold call in Hcall. inversion Hcall as [[HPlp Hs2]]; clear Hcall.
    apply ret_inv in Hret. destruct Hret as [HPk <-].
    inversion HPk; subst P0; clear HPk.
    exists (l_b (fst la)), (l_c (fst la)), (split_lp 0 (l_b (fst la)) Pi_lp),
           Call_LP_reduction_nt.
    split; [first [reflexivity | rewrite <- Hs2; reflexivity]|]. split; [exact Hper|]. right; right; right.
    repeat split; auto. exists c_lp. subst Pi_lp. now split. }
  apply ret_inv in Hsolve. destruct Hsolve as [Hnone _]. discriminate.
Qed.

(** X6. [_loop_subtree_n] does not check [method]: for a node with two
    children or more and a method other than "MAM", "IBP" and "LP", once
    the first loop and the parent lookup have gone through, no solver is
    called, [Pi_k] stays unbound and the call fails with
    [UnboundLocalError], the store being untouched. (For a node with one
    child the method is not looked at.) *)
Theorem loop_subtree_n_unknown_method t nodesG nodesH list_m method
    lambda_IBP rho epsilon pool_sizeMAM n (s s1 : store) la :
  supported method = false ->
  (2 <= length (successors (sG s) n))%nat ->
  collect t nodesG nodesH list_m n s = (Ok la, s1) ->
  _loop_subtree_n t nodesG nodesH list_m method lambda_IBP rho epsilon
    pool_sizeMAM n s = (Raise UnboundLocalError, s).
Proof.
  intros Hsup Hlen Hcollect.
  assert (s1 = s) by (eapply keeps_inv; [apply collect_keeps | exact Hcollect]).
  subst s1.
  unfold supported in Hsup. simpl in Hsup.
  apply orb_false_iff in Hsup. destruct Hsup as [HLP Hsup].
  apply orb_false_iff in Hsup. destruct Hsup as [HMAM Hsup].
  apply orb_false_iff in Hsup. destruct Hsup as [HIBP _].
  unfold _loop_subtree_n.
  rewrite (@bind_run _ _ get_G _ s (sG s) s eq_refl).
  rewrite (@bind_run _ _ _ _ _ _ _ Hcollect).
  assert (Hsolve : solve method lambda_IBP rho pool_sizeMAM (successors (sG s) n)
                     (l_b (fst la)) (l_c (fst la)) s = (Ok None, s)).
  { unfold solve.
    destruct (Nat.eqb_spec (length (successors (sG s) n)) 1) as [Heq|_]; [lia|].
    destruct (Nat.ltb_spec 1 (length (successors (sG s) n))) as [_|Hle]; [|lia].
    now rewrite HMAM, HIBP, HLP. }
  rewrite (@bind_run _ _ _ _ _ _ _ Hsolve).
  unfold lift at 1. unfold bind at 1.
  rewrite stabilize_loop_None.
  destruct (seq 0 (length list_m)); reflexivity.
Qed.

(** *** The stabilised plans as probability tables *)





(** *** Non-negative distances *)

Lemma mapM_Forall {A B} (f : A -> res B) (P : B -> Prop) l r :
  mapM f l = Ok r ->
  (forall x y, In x l -> f x = Ok y -> P y) ->
  Forall P r.
Proof.
  revert r. induction l as [|x l IH]; intros r H Hf; simpl in H.
  - inversion H. constructor.
  - apply rbind_Ok_inv in H. destruct H as (y & Hy & H).
    apply rbind_Ok_inv in H. destruct H as (ys & Hys & H).
    inversion H; subst r. constructor.
    + apply (Hf x y); [now left | exact Hy].
    + apply IH; [exact Hys|]. intros x' y' Hx'. apply Hf. now right.
Qed.

Lemma bcast_In {A} n (l : list A) x : In x (bcast n l) -> In x l.
Proof.
  unfold bcast. destruct (length l =? n)%nat; [auto|].
  destruct l as [|y [|z l]]; auto.
  intros H. apply repeat_spec in H. subst. now left.
Qed.

Lemma zip_bcast_Forall {A B} (f : A -> A -> res B) (P : B -> Prop) u v w :
  zip_bcast f u v = Ok w ->
  (forall x y z, In x u -> In y v -> f x y = Ok z -> P z) ->
  Forall P w.
Proof.
  unfold zip_bcast. intros H Hf.
  apply rbind_Ok_inv in H. destruct H as (k & _ & H).
  eapply mapM_Forall; [exact H|].
  intros [x y] z Hin Hz. simpl in Hz.
  apply (Hf x y z); [| |exact Hz].
  - apply in_combine_l in Hin. now apply bcast_In in Hin.
  - apply in_combine_r in Hin. now apply bcast_In in Hin.
Qed.

Lemma np_multiply_nonneg (A B pr : matrix) :
  np_multiply A B = Ok pr ->
  (forall x, In x (concat A) -> 0 <= x) ->
  (forall y, In y (concat B) -> 0 <= y) ->
  0 <= np_sum pr.
Proof.
  intros H HA HB. rewrite np_sum_concat. apply sum1_nonneg.
  intros z Hz. apply in_concat in Hz. destruct Hz as (row & Hrow & Hz).
  unfold np_multiply in H.
  assert (HF : Forall (fun r : list Q => forall z, In z r -> 0 <= z) pr).
  { eapply zip_bcast_Forall; [exact H|].
    intros ra rb r Hra Hrb Hr.
    assert (HF : Forall (fun z => 0 <= z) r).
    { eapply zip_bcast_Forall; [exact Hr|].
      intros x y z' Hx Hy Hz'. inversion Hz'; subst z'.
      apply Qmult_le_0_compat.
      - apply HA. apply in_concat. exists ra. now split.
      - apply HB. apply in_concat. exists rb. now split. }
    now rewrite Forall_forall in HF. }
  rewrite Forall_forall in HF. now apply (HF row).
Qed.

Lemma take_entries (D rows dm : matrix) ri ci :
  take_rows D ri = Ok rows -> take_cols rows ci = Ok dm ->
  forall x, In x (concat dm) -> In x (concat D).
Proof.
  unfold take_rows, take_cols. intros Hrows Hdm x Hx.
  apply in_concat in Hx. destruct Hx as (r & Hr & Hx).
  assert (HF : Forall (fun r' : list Q => forall x, In x r' -> In x (concat D)) dm).
  { eapply mapM_Forall; [exact Hdm|].
    intros row r' Hrow Hr'.
    assert (Hsrc : In row D).
    { assert (HFr : Forall (fun row => In row D) rows).
      { eapply mapM_Forall; [exact Hrows|].
        intros j row' _ Hj. apply index_Ok_inv in Hj. now apply nth_error_In in Hj. }
      rewrite Forall_forall in HFr. now apply HFr. }
    assert (HFx : Forall (fun x => In x row) r').
    { eapply mapM_Forall; [exact Hr'|].
      intros j y _ Hj. apply index_Ok_inv in Hj. now apply nth_error_In in Hj. }
    rewrite Forall_forall in HFx. intros y Hy.
    apply in_concat. exists row. split; [exact Hsrc|]. now apply HFx. }
  rewrite Forall_forall in HF. now apply (HF r).
Qed.

(** With non-negative entries in [D_ij], the local distances of a call
    that returns are non-negative. *)
Lemma loop_subtree_n_distances_nonneg t nodesG nodesH list_m method lambda_IBP
    rho epsilon pool_sizeMAM n s o s' :
  0 < epsilon ->
  (forall x, In x (concat (sD s)) -> 0 <= x) ->
  _loop_subtree_n t nodesG nodesH list_m method lambda_IBP rho epsilon
    pool_sizeMAM n s = (Ok o, s') ->
  forall d, In d (out_D_ij_t o) -> 0 <= d.
Proof.
  intros Heps HD Hrun d Hd.
  apply loop_subtree_n_inv in Hrun.
  destruct Hrun as (la & P0 & r & Hcollect & _ & Hloop & _ & HDt & _ & _).
  apply collect_inv in Hcollect. destruct Hcollect as [Hsub _].
  apply stabilize_loop_dist in Hloop. destruct Hloop as (Hlen & Hvals & _).
  rewrite repeat_length in Hlen, Hvals. rewrite HDt in Hd.
  apply In_nth_error in Hd. destruct Hd as (i & Hi).
  assert (Hlt : (i < length list_m)%nat).
  { rewrite <- Hlen. apply nth_error_Some. congruence. }
  destruct (Hvals i ltac:(lia) Hlt) as (X & dm & pr & _ & Hdm & Hpr & Hr).
  rewrite Hi in Hr. inversion Hr; subst d.
  destruct (nth_error list_m i) as [m|] eqn:Hm.
  2:{ apply nth_error_None in Hm. lia. }
  destruct (Hsub i m Hm) as (p & dm' & c & _ & Hdm' & _ & _ & (rows & Hrows & Hcols) & _).
  rewrite Hdm in Hdm'. inversion Hdm'; subst dm'.
  eapply np_multiply_nonneg; [exact Hpr| |].
  - intros x Hx. apply Qlt_le_weak. now apply (@stabilize_floor epsilon X x Heps Hx).
  - intros y Hy. apply HD. eapply take_entries; eauto.
Qed.

End ReducerResults.

(** ** Outcomes of a run: results and exceptions *)

Section OutcomeFacts.

Lemma wp_intro {A} (m : M A) s (Q : A -> store -> Prop) X :
  (forall a s', m s = (Ok a, s') -> Q a s') ->
  (forall e s', m s = (Raise e, s') -> X e s') ->
  wp m s Q X.
Proof. unfold wp. destruct (m s) as [[a|e] s']; auto. Qed.

Lemma wp_mono {A} (m : M A) s (Q Q' : A -> store -> Prop)
    (X X' : exn -> store -> Prop) :
  wp m s Q X ->
  (forall a s', Q a s' -> Q' a s') ->
  (forall e s', X e s' -> X' e s') ->
  wp m s Q' X'.
Proof. unfold wp. destruct (m s) as [[a|e] s']; auto. Qed.

Lemma wp_bind {A B} (m : M A) (k : A -> M B) s (Q : B -> store -> Prop) X :
  wp m s (fun a s1 => wp (k a) s1 Q X) X -> wp (bind m k) s Q X.
Proof. unfold wp, bind. destruct (m s) as [[a|e] s1]; auto. Qed.

Lemma wp_ret {A} (a : A) s (Q : A -> store -> Prop) X : Q a s -> wp (ret a) s Q X.
Proof. auto. Qed.

Lemma wp_raise {A} e s (Q : A -> store -> Prop) (X : exn -> store -> Prop) :
  X e s -> wp (@raise A e) s Q X.
Proof. auto. Qed.

Lemma wp_get_G s (Q : DiGraph -> store -> Prop) X : Q (sG s) s -> wp get_G s Q X.
Proof. auto. Qed.

Lemma wp_get_H s (Q : DiGraph -> store -> Prop) X : Q (sH s) s -> wp get_H s Q X.
Proof. auto. Qed.

Lemma wp_get_Pi s (Q : matrix -> store -> Prop) X : Q (sPi s) s -> wp get_Pi s Q X.
Proof. auto. Qed.

Lemma wp_get_D s (Q : matrix -> store -> Prop) X : Q (sD s) s -> wp get_D s Q X.
Proof. auto. Qed.

Lemma wp_put_G g s (Q : unit -> store -> Prop) X :
  Q tt (mkStore g (sH s) (sPi s) (sD s) (sCalls s)) -> wp (put_G g) s Q X.
Proof. auto. Qed.

Lemma wp_put_Pi P s (Q : unit -> store -> Prop) X :
  Q tt (mkStore (sG s) (sH s) P (sD s) (sCalls s)) -> wp (put_Pi P) s Q X.
Proof. auto. Qed.

Lemma wp_put_D D s (Q : unit -> store -> Prop) X :
  Q tt (mkStore (sG s) (sH s) (sPi s) D (sCalls s)) -> wp (put_D D) s Q X.
Proof. auto. Qed.

(** A step that cannot raise [KeyError] and leaves the store alone. *)
Lemma wp_lift {A} (r : res A) s (Q : A -> store -> Prop) (I : store -> Prop) :
  no_key r -> I s -> (forall a, r = Ok a -> Q a s) -> wp (lift r) s Q (exc I).
Proof.
  unfold wp, lift, exc, no_key. destruct r as [a|e]; intros Hr HI HQ; auto.
  split; [exact HI|]. congruence.
Qed.

Lemma wp_read_Pi j i s (Q : Q -> store -> Prop) (I : store -> Prop) :
  I s -> (forall v, mget (sPi s) j i = Ok v -> Q v s) ->
  wp (read_Pi j i) s Q (exc I).
Proof.
  unfold wp, read_Pi, exc. intros HI HQ.
  destruct (mget (sPi s) j i) as [v|e] eqn:Hget; auto.
  split; [exact HI|].
  intros ->. unfold mget in Hget.
  destruct (index (sPi s) j) as [row|e'] eqn:Hrow; simpl in Hget.
  - unfold index in Hget. destruct (nth_error row i); discriminate.
  - unfold index in Hrow. destruct (nth_error (sPi s) j); [discriminate|].
    inversion Hrow; subst. discriminate.
Qed.

Lemma wp_write_Pi j i v s (Q : unit -> store -> Prop) (I : store -> Prop) :
  I s ->
  (forall P, mset (sPi s) j i v = Ok P ->
             Q tt (mkStore (sG s) (sH s) P (sD s) (sCalls s))) ->
  wp (write_Pi j i v) s Q (exc I).
Proof.
  unfold wp, write_Pi, exc. intros HI HQ.
  destruct (mset (sPi s) j i v) as [P|e] eqn:Hset; simpl; auto.
  split; [exact HI|].
  intros ->. unfold mset in Hset.
  destruct (index (sPi s) j) as [row|e'] eqn:Hrow; simpl in Hset.
  - destruct (index row i) as [x|e''] eqn:Hx; simpl in Hset; [discriminate|].
    unfold index in Hx. destruct (nth_error row i); [discriminate|].
    inversion Hx; subst. discriminate.
  - unfold index in Hrow. destruct (nth_error (sPi s) j); [discriminate|].
    inversion Hrow; subst. discriminate.
Qed.

(** Loops, with an invariant indexed by the elements already visited. *)
Lemma wp_foldM {A S} (f : S -> A -> M S) (I : list A -> S -> store -> Prop)
    (X : exn -> store -> Prop) (l : list A) :
  (forall done x rest acc s,
     l = done ++ x :: rest -> I done acc s ->
     wp (f acc x) s (I (done ++ [x])) X) ->
  forall acc s, I [] acc s -> wp (foldM f l acc) s (I l) X.
Proof.
  intros Hstep.
  assert (Hgen : forall rest done acc s,
             l = done ++ rest -> I done acc s ->
             wp (foldM f rest acc) s (I l) X).
  { induction rest as [|x rest IH]; intros done acc s Hl HI.
    - rewrite app_nil_r in Hl. subst done. exact HI.
    - simpl. apply wp_bind.
      eapply wp_mono; [apply (Hstep done x rest acc s Hl HI)| |auto].
      intros acc1 s1 HI1. apply (IH (done ++ [x])); [|exact HI1].
      now rewrite <- app_assoc. }
  intros acc s HI. now apply (Hgen l [] acc s).
Qed.

Lemma wp_forM {A} (f : A -> M unit) (I : list A -> store -> Prop)
    (X : exn -> store -> Prop) (l : list A) :
  (forall done x rest s,
     l = done ++ x :: rest -> I done s ->
     wp (f x) s (fun _ => I (done ++ [x])) X) ->
  forall s, I [] s -> wp (forM_ l f) s (fun _ => I l) X.
Proof.
  intros Hstep.
  assert (Hgen : forall rest done s,
             l = done ++ rest -> I done s ->
             wp (forM_ rest f) s (fun _ => I l) X).
  { induction rest as [|x rest IH]; intros done s Hl HI.
    - rewrite app_nil_r in Hl. subst done. exact HI.
    - simpl. apply wp_bind.
      eapply wp_mono; [apply (Hstep done x rest s Hl HI)| |auto].
      intros u s1 HI1. apply (IH (done ++ [x])); [|exact HI1].
      now rewrite <- app_assoc. }
  intros s HI. now apply (Hgen l [] s).
Qed.

(** *** Operations that cannot raise [KeyError] *)

Lemma no_key_Ok {A} (a : A) : no_key (Ok a).
Proof. discriminate. Qed.

Lemma no_key_rbind {A B} (m : res A) (k : A -> res B) :
  no_key m -> (forall a, m = Ok a -> no_key (k a)) -> no_key (rbind m k).
Proof.
  destruct m as [a|e]; simpl; intros Hm Hk.
  - now apply Hk.
  - intros Heq. apply Hm. now inversion Heq.
Qed.

Lemma no_key_index {A} (l : list A) i : no_key (index l i).
Proof. unfold index, no_key. destruct (nth_error l i); discriminate. Qed.

Lemma no_key_mapM {A B} (f : A -> res B) l :
  (forall x, In x l -> no_key (f x)) -> no_key (mapM f l).
Proof.
  induction l as [|x l IH]; intros Hf; simpl; [apply no_key_Ok|].
  apply no_key_rbind; [apply Hf; now left|]. intros y _.
  apply no_key_rbind; [apply IH; intros z Hz; apply Hf; now right|].
  intros ys _. apply no_key_Ok.
Qed.

Lemma no_key_bdim a b : no_key (bdim a b).
Proof.
  unfold bdim, no_key.
  destruct (a =? b)%nat; [discriminate|].
  destruct (a =? 1)%nat; [discriminate|].
  destruct (b =? 1)%nat; discriminate.
Qed.

Lemma no_key_zip_bcast {A B} (f : A -> A -> res B) u v :
  (forall x y, no_key (f x y)) -> no_key (zip_bcast f u v).
Proof.
  intros Hf. unfold zip_bcast.
  apply no_key_rbind; [apply no_key_bdim|]. intros n _.
  apply no_key_mapM. intros p _. apply Hf.
Qed.

Lemma no_key_np_multiply P Q0 : no_key (np_multiply P Q0).
Proof.
  unfold np_multiply. apply no_key_zip_bcast. intros x y.
  apply no_key_zip_bcast. intros a b. apply no_key_Ok.
Qed.

Lemma no_key_hconcat_rows P Q0 : no_key (hconcat_rows P Q0).
Proof.
  revert Q0. induction P as [|ra P IH]; intros [|rb Q0]; simpl;
    try discriminate.
  apply no_key_rbind; [apply IH|]. intros r _. apply no_key_Ok.
Qed.

Lemma no_key_np_concatenate1 l : no_key (np_concatenate1 l).
Proof.
  induction l as [|P l IH]; simpl; [discriminate|].
  destruct l as [|P' l']; [apply no_key_Ok|].
  apply no_key_rbind; [exact IH|]. intros B _. apply no_key_hconcat_rows.
Qed.

Lemma no_key_mget P j i : no_key (mget P j i).
Proof.
  unfold mget. apply no_key_rbind; [apply no_key_index|].
  intros row _. apply no_key_index.
Qed.

Lemma no_key_split_ibp b Pi_ibp :
  forall acc i_m, no_key (split_ibp acc i_m b Pi_ibp).
Proof.
  induction b as [|p b IH]; intros acc i_m; simpl; [apply no_key_Ok|].
  apply no_key_rbind; [apply no_key_index|]. intros P _.
  apply no_key_rbind; [apply IH|]. intros rest _. apply no_key_Ok.
Qed.

Lemma no_key_np_max l : no_key (np_max l).
Proof. destruct l; discriminate. Qed.

Lemma no_key_py_last {A} (l : list A) : no_key (py_last l).
Proof. unfold py_last, no_key. destruct (rev l); discriminate. Qed.

Lemma no_key_sq_dist u v : no_key (sq_dist u v).
Proof.
  unfold sq_dist. apply no_key_rbind; [|intros d _; apply no_key_Ok].
  apply no_key_zip_bcast. intros x y. apply no_key_Ok.
Qed.

Lemma no_key_assign_row P j cols vals : no_key (assign_row P j cols vals).
Proof.
  unfold assign_row. apply no_key_rbind; [apply no_key_index|].
  intros row _. apply no_key_rbind.
  { apply no_key_mapM. intros c _. apply no_key_index. }
  intros x _. destruct (_ || _); discriminate.
Qed.

Lemma no_key_leaf_distances ai wi aj wj : no_key (leaf_distances ai wi aj wj).
Proof.
  unfold leaf_distances. apply no_key_rbind; [|intros rows _; apply no_key_Ok].
  apply no_key_mapM. intros i _.
  apply no_key_rbind; [apply no_key_index|]. intros chain _.
  apply no_key_rbind; [apply no_key_py_last|]. intros g _.
  apply no_key_rbind; [|intros row _; apply no_key_Ok].
  apply no_key_mapM. intros j _.
  apply no_key_rbind; [apply no_key_index|]. intros u _.
  apply no_key_rbind; [apply no_key_index|]. intros v _.
  apply no_key_rbind; [apply no_key_sq_dist|]. intros d _.
  apply no_key_rbind; [|intros h _; apply no_key_Ok].
  destruct (i =? 0)%nat; [|apply no_key_Ok].
  apply no_key_rbind; [apply no_key_index|]. intros chain' _.
  apply no_key_rbind; [apply no_key_py_last|]. intros x _. apply no_key_Ok.
Qed.

Lemma no_key_np_split {A} (ary : list A) k : no_key (np_split ary k).
Proof.
  unfold np_split, no_key.
  destruct (k =? 0)%Z; [discriminate|].
  destruct (negb _); [discriminate|].
  destruct (k <=? 0)%Z; discriminate.
Qed.

Lemma no_key_division_tasks N P : no_key (division_tasks N P).
Proof.
  unfold division_tasks.
  destruct (P =? 0)%Z; [discriminate|].
  destruct (_ =? 0)%Z; [apply no_key_np_split|].
  apply no_key_rbind; [apply no_key_np_split|]. intros r1 _.
  apply no_key_rbind; [apply no_key_np_split|]. intros r2 _. apply no_key_Ok.
Qed.

Lemma no_key_stabilize_loop eps dms l :
  forall acc, no_key (rfold (stabilize_step eps dms) l acc).
Proof.
  induction l as [|i l IH]; intros acc; simpl; [apply no_key_Ok|].
  apply no_key_rbind; [|intros a _; apply IH].
  unfold stabilize_step. destruct (fst acc) as [Pi_k|]; [|discriminate].
  apply no_key_rbind; [apply no_key_index|]. intros P _.
  apply no_key_rbind; [apply no_key_index|]. intros dm _.
  apply no_key_rbind; [apply no_key_np_multiply|]. intros pr _. apply no_key_Ok.
Qed.

(** The weight of an edge to a successor is defined. *)
Lemma no_key_weight g m i : In i (successors g m) -> no_key (weight g m i).
Proof.
  intros Hin. destruct (@weight_defined g m i Hin) as (w & ->). apply no_key_Ok.
Qed.

Lemma no_key_weights g m : no_key (mapM (weight g m) (successors g m)).
Proof. apply no_key_mapM. intros i Hi. now apply no_key_weight. Qed.

End OutcomeFacts.

(** ** The leaf distances *)

Section LeafDistances.

Local Open Scope Q_scope.

Lemma mapM_length {A B} (f : A -> res B) l r :
  mapM f l = Ok r -> length r = length l.
Proof.
  revert r. induction l as [|x l IH]; intros r H; simpl in H.
  - now inversion H.
  - apply rbind_Ok_inv in H. destruct H as (y & _ & H).
    apply rbind_Ok_inv in H. destruct H as (ys & Hys & H).
    inversion H; subst r. simpl. f_equal. now apply IH.
Qed.

Lemma mapM_nth {A B} (f : A -> res B) l r i x :
  mapM f l = Ok r -> nth_error l i = Some x ->
  exists y, f x = Ok y /\ nth_error r i = Some y.
Proof.
  revert r i. induction l as [|x0 l IH]; intros r i H Hi; simpl in H.
  - destruct i; discriminate.
  - apply rbind_Ok_inv in H. destruct H as (y & Hy & H).
    apply rbind_Ok_inv in H. destruct H as (ys & Hys & H).
    inversion H; subst r. destruct i as [|i]; simpl in *.
    + inversion Hi; subst x0. now exists y.
    + now apply (IH ys i).
Qed.

Lemma nth_error_seq0 n i : (i < n)%nat -> nth_error (seq 0 n) i = Some i.
Proof.
  intros Hi. rewrite (nth_error_nth' _ 0%nat) by (now rewrite length_seq).
  now rewrite seq_nth.
Qed.

Lemma square_nonneg (t : Q) : 0 <= t * t.
Proof.
  destruct (Qlt_le_dec t 0) as [Hneg|Hpos].
  - setoid_replace (t * t) with ((- t) * (- t)) by ring.
    apply Qmult_le_0_compat; lra.
  - apply Qmult_le_0_compat; lra.
Qed.

Lemma sq_dist_nonneg u v d : sq_dist u v = Ok d -> 0 <= d.
Proof.
  unfold sq_dist. intros H.
  apply rbind_Ok_inv in H. destruct H as (w & Hw & H).
  inversion H; subst d. apply sum1_nonneg.
  assert (HF : Forall (fun z => 0 <= z) w).
  { eapply zip_bcast_Forall; [exact Hw|].
    intros x y z _ _ Hz. inversion Hz; subst z. apply square_nonneg. }
  now rewrite Forall_forall in HF.
Qed.

Lemma leaf_cell_inv wi aj wj i j d h :
  leaf_cell wi aj wj i j = Ok (d, h) ->
  (exists u v, nth_error wi i = Some u /\ nth_error wj j = Some v /\
               sq_dist u v = Ok d) /\
  (if (i =? 0)%nat
   then exists chain x, nth_error aj j = Some chain /\ py_last chain = Ok x /\
                        h = [x]
   else h = []).
Proof.
  unfold leaf_cell. intros H.
  apply rbind_Ok_inv in H. destruct H as (u & Hu & H).
  apply rbind_Ok_inv in H. destruct H as (v & Hv & H).
  apply rbind_Ok_inv in H. destruct H as (d' & Hd & H).
  apply rbind_Ok_inv in H. destruct H as (h' & Hh & H).
  inversion H; subst d' h'. split.
  - exists u, v. repeat split; auto using index_Ok_inv.
  - destruct (i =? 0)%nat.
    + apply rbind_Ok_inv in Hh. destruct Hh as (chain & Hc & Hh).
      apply rbind_Ok_inv in Hh. destruct Hh as (x & Hx & Hh).
      inversion Hh; subst h. exists chain, x. auto using index_Ok_inv.
    + now inversion Hh.
Qed.

(** The leaves of [H] collected along the first row. *)
Lemma leaf_cells_first wi aj wj js row :
  mapM (leaf_cell wi aj wj 0) js = Ok row ->
  Forall2 (fun j x => exists chain, nth_error aj j = Some chain /\
                                    py_last chain = Ok x)
          js (concat (map snd row)).
Proof.
  revert row. induction js as [|j js IH]; intros row H; simpl in H.
  - inversion H. constructor.
  - apply rbind_Ok_inv in H. destruct H as ([d h] & Hy & H).
    apply rbind_Ok_inv in H. destruct H as (ys & Hys & H).
    inversion H; subst row. simpl.
    apply leaf_cell_inv in Hy. destruct Hy as [_ (chain & x & Hc & Hx & ->)].
    simpl. constructor; [now exists chain | now apply IH].
Qed.

(** Nothing is collected along the other rows. *)
Lemma leaf_cells_other wi aj wj i js row :
  i <> 0%nat ->
  mapM (leaf_cell wi aj wj i) js = Ok row ->
  concat (map snd row) = [].
Proof.
  intros Hi. revert row. induction js as [|j js IH]; intros row H; simpl in H.
  - now inversion H.
  - apply rbind_Ok_inv in H. destruct H as ([d h] & Hy & H).
    apply rbind_Ok_inv in H. destruct H as (ys & Hys & H).
    inversion H; subst row. simpl.
    apply leaf_cell_inv in Hy. destruct Hy as [_ Hh].
    destruct (Nat.eqb_spec i 0) as [|_]; [contradiction|].
    subst h. simpl. now apply IH.
Qed.

Lemma leaf_distances_rows ai wi aj wj :
  leaf_distances ai wi aj wj =
  (rows <- mapM (leaf_row ai wi aj wj) (seq 0 (length ai)) ;;
   Ok (map fst rows,
       concat (map snd (concat (map snd rows))),
       map (fun r => map fst (snd r)) rows))%res.
Proof. reflexivity. Qed.

Lemma leaf_row_inv ai wi aj wj i g row :
  leaf_row ai wi aj wj i = Ok (g, row) ->
  (exists chain, nth_error ai i = Some chain /\ py_last chain = Ok g) /\
  mapM (leaf_cell wi aj wj i) (seq 0 (length aj)) = Ok row.
Proof.
  unfold leaf_row. intros H.
  apply rbind_Ok_inv in H. destruct H as (chain & Hc & H).
  apply rbind_Ok_inv in H. destruct H as (g' & Hg & H).
  apply rbind_Ok_inv in H. destruct H as (row' & Hrow & H).
  inversion H; subst g' row'. split; [|exact Hrow].
  exists chain. auto using index_Ok_inv.
Qed.

Lemma leaf_rows_other ai wi aj wj is_ rows :
  ~ In 0%nat is_ ->
  mapM (leaf_row ai wi aj wj) is_ = Ok rows ->
  concat (map snd (concat (map snd rows))) = [].
Proof.
  revert rows. induction is_ as [|i is_ IH]; intros rows Hnot H; simpl in H.
  - now inversion H.
  - apply rbind_Ok_inv in H. destruct H as ([g row] & Hy & H).
    apply rbind_Ok_inv in H. destruct H as (ys & Hys & H).
    inversion H; subst rows. simpl.
    rewrite map_app, concat_app.
    apply leaf_row_inv in Hy. destruct Hy as [_ Hrow].
    assert (Hnil : concat (map snd row) = []).
    { eapply leaf_cells_other; [|exact Hrow]. intros ->. apply Hnot. now left. }
    rewrite Hnil.
    simpl. apply IH; [|exact Hys]. intros H0. apply Hnot. now right.
Qed.

Lemma leaf_rows_cells ai wi aj wj rows :
  mapM (leaf_row ai wi aj wj) (seq 0 (length ai)) = Ok rows ->
  forall r, In r rows ->
    length (snd r) = length aj /\ forall dh, In dh (snd r) -> 0 <= fst dh.
Proof.
  intros Hrows.
  assert (Hcells : Forall (fun r : nat * list (Q * list nat) =>
                     length (snd r) = length aj /\
                     forall dh, In dh (snd r) -> 0 <= fst dh) rows).
  { eapply mapM_Forall; [exact Hrows|].
    intros i [g row] _ Hy. apply leaf_row_inv in Hy. destruct Hy as [_ Hy].
    simpl. split.
    - rewrite (mapM_length _ _ Hy). apply length_seq.
    - assert (HF : Forall (fun dh : Q * list nat => 0 <= fst dh) row).
      { eapply mapM_Forall; [exact Hy|].
        intros j [d h] _ Hc. apply leaf_cell_inv in Hc.
        destruct Hc as [(u & v & _ & _ & Hd) _]. simpl.
        now apply sq_dist_nonneg in Hd. }
      now rewrite Forall_forall in HF. }
  now rewrite Forall_forall in Hcells.
Qed.

(** The leaf distances are sums of squares. *)
Lemma leaf_distances_nonneg ai wi aj wj nodesG nodesH D :
  leaf_distances ai wi aj wj = Ok (nodesG, nodesH, D) -> nonneg D.
Proof.
  rewrite leaf_distances_rows. intros H.
  apply rbind_Ok_inv in H. destruct H as (rows & Hrows & H).
  inversion H; subst nodesG nodesH D; clear H.
  pose proof (leaf_rows_cells _ _ _ _ Hrows) as Hcells.
  intros x Hx. apply in_concat in Hx. destruct Hx as (r & Hr & Hx).
  apply in_map_iff in Hr. destruct Hr as (r0 & <- & Hr0).
  apply in_map_iff in Hx. destruct Hx as (dh & <- & Hdh).
  now apply (Hcells r0 Hr0).
Qed.

(** X8. The leaf-level distance matrix of lines 93-103. When it is
    computed, [nodesG] holds the last node of each chain of [G], [D_ij] has
    one row per leaf of [G] and one column per leaf of [H], its entry
    [(i, j)] is the squared Euclidean distance of the value vectors [wi[i]]
    and [wj[j]] (with NumPy's broadcasting), so no entry is negative, and
    [nodesH] holds the last node of each chain of [H]; but [nodesH] is
    filled along the first row only, and stays empty when [G] has no
    leaf. *)
Theorem leaf_distances_result ai wi aj wj nodesG nodesH D :
  leaf_distances ai wi aj wj = Ok (nodesG, nodesH, D) ->
  length nodesG = length ai /\
  (forall i chain, nth_error ai i = Some chain ->
     exists g, py_last chain = Ok g /\ nth_error nodesG i = Some g) /\
  length D = length ai /\
  Forall (fun row => length row = length aj) D /\
  (forall i j, (i < length ai)%nat -> (j < length aj)%nat ->
     exists u v d, nth_error wi i = Some u /\ nth_error wj j = Some v /\
                   sq_dist u v = Ok d /\ mget D i j = Ok d) /\
  nonneg D /\
  (ai = [] -> nodesH = []) /\
  (ai <> [] ->
   length nodesH = length aj /\
   forall j chain, nth_error aj j = Some chain ->
     exists x, py_last chain = Ok x /\ nth_error nodesH j = Some x).
Proof.
  rewrite leaf_distances_rows. intros H.
  apply rbind_Ok_inv in H. destruct H as (rows & Hrows & H).
  inversion H; subst nodesG nodesH D; clear H.
  pose proof (mapM_length _ _ Hrows) as Hlen. rewrite length_seq in Hlen.
  assert (Hrow : forall i, (i < length ai)%nat ->
            exists g row, nth_error rows i = Some (g, row) /\
                          leaf_row ai wi aj wj i = Ok (g, row)).
  { intros i Hi.
    destruct (mapM_nth _ _ i Hrows (nth_error_seq0 Hi)) as ([g row] & Hy & Hnth).
    now exists g, row. }
  pose proof (leaf_rows_cells _ _ _ _ Hrows) as Hcells.
  split; [now rewrite length_map|]. split.
  { intros i chain Hi.
    assert (Hlt : (i < length ai)%nat) by (apply nth_error_Some; congruence).
    destruct (Hrow i Hlt) as (g & row & Hnth & Hy).
    apply leaf_row_inv in Hy. destruct Hy as [(chain' & Hc & Hg) _].
    rewrite Hi in Hc. inversion Hc; subst chain'.
    exists g. split; [exact Hg|]. now rewrite nth_error_map, Hnth. }
  split; [now rewrite length_map|]. split.
  { apply Forall_map. apply Forall_forall. intros r Hr.
    rewrite length_map. now apply Hcells. }
  split.
  { intros i j Hi Hj.
    destruct (Hrow i Hi) as (g & row & Hnth & Hy).
    apply leaf_row_inv in Hy. destruct Hy as [_ Hy].
    destruct (mapM_nth _ _ j Hy (nth_error_seq0 Hj)) as ([d h] & Hc & Hnthc).
    apply leaf_cell_inv in Hc. destruct Hc as [(u & v & Hu & Hv & Hd) _].
    exists u, v, d. repeat split; auto.
    unfold mget, index. rewrite nth_error_map, Hnth. simpl.
    now rewrite nth_error_map, Hnthc. }
  split.
  { intros x Hx. apply in_concat in Hx. destruct Hx as (r & Hr & Hx).
    apply in_map_iff in Hr. destruct Hr as (r0 & <- & Hr0).
    apply in_map_iff in Hx. destruct Hx as (dh & <- & Hdh).
    now apply (Hcells r0 Hr0). }
  split.
  { intros ->. simpl in Hrows. now inversion Hrows. }
  intros Hne.
  destruct ai as [|c0 ai']; [contradiction|]. simpl length in Hrows.
  simpl seq in Hrows. simpl mapM in Hrows.
  apply rbind_Ok_inv in Hrows. destruct Hrows as ([g0 row0] & Hy & Hrows).
  apply rbind_Ok_inv in Hrows. destruct Hrows as (rest & Hrest & Hrows).
  inversion Hrows; subst rows. simpl.
  rewrite map_app, concat_app.
  rewrite (@leaf_rows_other (c0 :: ai') wi aj wj (seq 1 (length ai')) rest).
  2:{ rewrite in_seq. lia. }
  2:{ exact Hrest. }
  rewrite app_nil_r.
  apply leaf_row_inv in Hy. destruct Hy as [_ Hy].
  apply leaf_cells_first in Hy.
  split.
  - rewrite <- (Forall2_length Hy). apply length_seq.
  - intros j chain Hj.
    assert (Hlt : (j < length aj)%nat) by (apply nth_error_Some; congruence).
    destruct (Forall2_nth_error_l _ Hy (nth_error_seq0 Hlt))
      as (x & Hx & chain' & Hc & Hlast).
    rewrite Hj in Hc. inversion Hc; subst chain'.
    now exists x.
Qed.

Lemma bdim_mismatch a b :
  a <> b -> a <> 1%nat -> b <> 1%nat -> bdim a b = Raise ValueError.
Proof.
  intros Hab Ha Hb. unfold bdim.
  destruct (Nat.eqb_spec a b); [contradiction|].
  destruct (Nat.eqb_spec a 1); [contradiction|].
  destruct (Nat.eqb_spec b 1); [contradiction|]. reflexivity.
Qed.

(** X9. There is no check of the horizons before line 101: when the value
    vectors of the first leaf of [G] and of the first leaf of [H] have
    different lengths, neither of them 1 (trees of different depths), the
    subtraction of line 101 cannot broadcast them and the leaf-distance
    computation fails with [ValueError]. *)
Theorem leaf_distances_length_mismatch c0 ai u wi cj aj v wj :
  c0 <> [] ->
  length u <> length v -> length u <> 1%nat -> length v <> 1%nat ->
  leaf_distances (c0 :: ai) (u :: wi) (cj :: aj) (v :: wj) = Raise ValueError.
Proof.
  intros Hc0 Huv Hu Hv.
  assert (Hlast : exists g, py_last c0 = Ok g).
  { unfold py_last. destruct (rev c0) as [|g l] eqn:Hrev; [|now exists g].
    apply (f_equal (@rev nat)) in Hrev. rewrite rev_involutive in Hrev.
    simpl in Hrev. contradiction. }
  destruct Hlast as (g & Hg).
  assert (Hsq : sq_dist u v = Raise ValueError).
  { unfold sq_dist, zip_bcast. now rewrite bdim_mismatch. }
  rewrite leaf_distances_rows. simpl length. simpl seq. simpl mapM.
  unfold leaf_row at 1.
  change (index (c0 :: ai) 0) with (Ok c0). cbn [rbind]. rewrite Hg. cbn [rbind].
  simpl length. simpl seq. simpl mapM.
  unfold leaf_cell at 1.
  change (index (u :: wi) 0) with (Ok u).
  change (index (v :: wj) 0) with (Ok v).
  cbn [rbind]. rewrite Hsq. reflexivity.
Qed.

End LeafDistances.

(** ** The driver: trees, exceptions and the nested distance *)

Ltac wp_get :=
  apply wp_bind;
  match goal with
  | |- wp get_G _ _ _ => apply wp_get_G
  | |- wp get_H _ _ _ => apply wp_get_H
  | |- wp get_Pi _ _ _ => apply wp_get_Pi
  | |- wp get_D _ _ _ => apply wp_get_D
  end;
  cbv beta.

Ltac wp_put :=
  apply wp_bind;
  match goal with
  | |- wp (put_G _) _ _ _ => apply wp_put_G
  | |- wp (put_Pi _) _ _ _ => apply wp_put_Pi
  | |- wp (put_D _) _ _ _ => apply wp_put_D
  end;
  cbv beta.

Section TreeFacts.

Local Open Scope Q_scope.

Lemma weights_only_refl g : weights_only g g.
Proof. repeat split. Qed.

Lemma weights_only_trans g1 g2 g3 :
  weights_only g1 g2 -> weights_only g2 g3 -> weights_only g1 g3.
Proof.
  intros (H1 & H2 & H3) (H4 & H5 & H6). repeat split; congruence.
Qed.

Lemma weights_only_set_weight g n j w : weights_only g (set_weight g n j w).
Proof.
  repeat split. simpl. rewrite map_map. apply map_ext_in.
  intros [[a b] w'] _. unfold is_edge, src, dst. simpl.
  destruct (Nat.eqb_spec a n) as [->|]; [|reflexivity].
  destruct (Nat.eqb_spec b j) as [->|]; reflexivity.
Qed.

Lemma successors_endpoints g n :
  successors g n =
  map snd (filter (fun p => (fst p =? n)%nat) (map fst (edges g))).
Proof.
  unfold successors. induction (edges g) as [|[[a b] w] l IH]; simpl; [reflexivity|].
  unfold src at 1. simpl. destruct (a =? n)%nat; simpl; now rewrite IH.
Qed.

Lemma weights_only_successors g g' n :
  weights_only g g' -> successors g' n = successors g n.
Proof.
  intros (_ & _ & He). now rewrite !successors_endpoints, He.
Qed.

Lemma same_trees_refl s : same_trees s s.
Proof. split; [reflexivity | apply weights_only_refl]. Qed.

Lemma same_trees_trans s1 s2 s3 :
  same_trees s1 s2 -> same_trees s2 s3 -> same_trees s1 s3.
Proof.
  intros [H1 H2] [H3 H4]. split; [congruence|].
  eapply weights_only_trans; eauto.
Qed.

Lemma only_Pi_refl s : only_Pi s s.
Proof. repeat split. Qed.

Lemma only_Pi_same_trees s s' : only_Pi s s' -> same_trees s s'.
Proof.
  intros (HG & HH & _). split; [exact HH|]. rewrite HG. apply weights_only_refl.
Qed.

Lemma frame_same_trees s s' : frame s' = frame s -> same_trees s s'.
Proof.
  unfold frame. intros H. inversion H as [[HG HH HP HD]].
  split; [exact HH|]. rewrite HG. apply weights_only_refl.
Qed.

(** *** Python dictionaries *)

Lemma dict_get_In {V} (d : list (nat * V)) k v :
  dict_get d k = Ok v -> In (k, v) d.
Proof.
  unfold dict_get. destruct (find _ d) as [[k' v']|] eqn:Hf; [|discriminate].
  intros H. inversion H; subst v'. apply find_some in Hf.
  destruct Hf as [Hin Hk]. simpl in Hk. apply Nat.eqb_eq in Hk. now subst k'.
Qed.

Lemma dict_set_In {V} (d : list (nat * V)) k v k' v' :
  In (k', v') (dict_set d k v) -> (k' = k /\ v' = v) \/ In (k', v') d.
Proof.
  induction d as [|[k0 v0] d IH]; simpl.
  - intros [H|[]]. inversion H. now left.
  - destruct (Nat.eqb_spec k0 k) as [->|Hne]; simpl.
    + intros [H|H]; [inversion H; now left | right; now right].
    + intros [H|H]; [right; now left|].
      destruct (IH H) as [Heq|Hin]; [now left | right; now right].
Qed.

Lemma dict_get_set_eq {V} (d : list (nat * V)) k v :
  dict_get (dict_set d k v) k = Ok v.
Proof.
  unfold dict_get. induction d as [|[k0 v0] d IH]; simpl.
  - now rewrite Nat.eqb_refl.
  - destruct (Nat.eqb_spec k0 k) as [->|Hne]; simpl.
    + now rewrite Nat.eqb_refl.
    + destruct (Nat.eqb_spec k0 k); [contradiction | exact IH].
Qed.

Lemma dict_get_set_defined {V} (d : list (nat * V)) k v k' :
  (exists v', dict_get d k' = Ok v') ->
  exists v'', dict_get (dict_set d k v) k' = Ok v''.
Proof.
  destruct (Nat.eq_dec k' k) as [->|Hne].
  { intros _. exists v. apply dict_get_set_eq. }
  unfold dict_get. induction d as [|[k0 v0] d IH]; simpl.
  - intros (v' & H). discriminate.
  - destruct (Nat.eqb_spec k0 k) as [->|Hk]; simpl.
    + destruct (Nat.eqb_spec k k') as [Heq|_]; [congruence|]. auto.
    + destruct (Nat.eqb_spec k0 k') as [_|_]; [eauto | exact IH].
Qed.

Lemma mget_In (D : matrix) j i d : mget D j i = Ok d -> In d (concat D).
Proof.
  unfold mget. intros H.
  apply rbind_Ok_inv in H. destruct H as (row & Hrow & Hd).
  apply index_Ok_inv in Hrow. apply index_Ok_inv in Hd.
  apply in_concat. exists row. split; eapply nth_error_In; eauto.
Qed.

Lemma division_tasks_one N :
  (0 <= N)%Z -> division_tasks N 1 = Ok [py_range 0 N].
Proof.
  intros HN. unfold division_tasks. simpl Z.eqb. cbv iota.
  rewrite Z.mod_1_r. simpl Z.eqb. cbv iota.
  unfold np_split. simpl Z.eqb. cbv iota.
  rewrite Z.mod_1_r. simpl. rewrite Z.div_1_r.
  rewrite py_range_length, Z2Nat.id by lia.
  rewrite <- (py_range_length 0 N) at 1.
  now rewrite firstn_all.
Qed.

End TreeFacts.

Ltac no_key_tac :=
  first
    [ apply no_key_weights
    | apply no_key_index
    | apply no_key_mget
    | apply no_key_np_concatenate1
    | apply no_key_split_ibp
    | apply no_key_stabilize_loop
    | apply no_key_assign_row
    | apply no_key_np_max
    | apply no_key_division_tasks
    | apply no_key_leaf_distances
    | unfold take_rows; apply no_key_mapM; intros; apply no_key_index
    | unfold take_cols; apply no_key_mapM; intros; apply no_key_mapM; intros;
      apply no_key_index
    | apply no_key_mapM; intros; apply no_key_index ].

Ltac key_step :=
  match goal with
  | |- never _ (bind _ _) => apply never_bind; [|intros ?]
  | |- never _ (ret _) => apply never_ret
  | |- never _ (call _ _) => apply never_call
  | |- never _ get_G => apply never_get_G
  | |- never _ get_H => apply never_get_H
  | |- never _ get_D => apply never_get_D
  | |- never _ get_Pi => apply never_get_Pi
  | |- never _ (lift _) => apply never_lift; no_key_tac
  | |- never _ (foldM _ _ _) => apply never_foldM; intros ? ?
  | |- never _ (raise _) => apply never_raise; discriminate
  | |- never _ (if ?c then _ else _) => destruct c
  | |- never _ (match ?x with _ => _ end) => destruct x
  end.

Section DriverOutcomes.

Context {E : Externals}.

Local Open Scope Q_scope.

(** *** The reducer *)

Lemma read_Pi_never_key j i : never KeyError (read_Pi j i).
Proof. intros s. unfold read_Pi. simpl. apply no_key_mget. Qed.

Lemma collect_m_never_key t nodesH children_ni n acc m :
  never KeyError (collect_m t nodesH children_ni n acc m).
Proof.
  unfold collect_m. repeat (first [apply read_Pi_never_key | key_step]).
Qed.

Lemma collect_never_key t nodesG nodesH list_m n :
  never KeyError (collect t nodesG nodesH list_m n).
Proof.
  unfold collect. repeat (first [apply collect_m_never_key | key_step]).
Qed.

Lemma solve_never_key method lambda_IBP rho pool_sizeMAM children_n b c :
  never KeyError (solve method lambda_IBP rho pool_sizeMAM children_n b c).
Proof. unfold solve. repeat key_step. Qed.

Lemma loop_subtree_n_never_key t nodesG nodesH list_m method lambda_IBP rho
    epsilon pool_sizeMAM n :
  never KeyError
        (_loop_subtree_n t nodesG nodesH list_m method lambda_IBP rho epsilon
           pool_sizeMAM n).
Proof.
  unfold _loop_subtree_n.
  apply never_bind; [apply never_get_G|]. intros G.
  apply never_bind; [apply collect_never_key|]. intros la.
  apply never_bind; [apply solve_never_key|]. intros Pi_k.
  apply never_bind; [apply never_lift, no_key_stabilize_loop|]. intros r.
  destruct (fst r); [apply never_ret | apply never_raise; discriminate].
Qed.

Lemma loop_subtree_n_length t nodesG nodesH list_m method lambda_IBP rho
    epsilon pool_sizeMAM n s o s' :
  _loop_subtree_n t nodesG nodesH list_m method lambda_IBP rho epsilon
    pool_sizeMAM n s = (Ok o, s') ->
  length (out_D_ij_t o) = length list_m.
Proof.
  intros Hrun. apply loop_subtree_n_inv in Hrun.
  destruct Hrun as (la & P0 & r & _ & _ & Hloop & _ & HD & _).
  apply stabilize_loop_dist in Hloop. destruct Hloop as (Hlen & _).
  rewrite repeat_length in Hlen. now rewrite HD.
Qed.

(** A call of the reducer: the trees, [Pi] and [D_ij] are left alone, no
    [KeyError] is raised, there is one local distance per candidate, and
    the local distances are non-negative when the entries of [D_ij] are. *)
Lemma loop_subtree_n_wp t nodesG nodesH list_m method lambda_IBP rho epsilon
    pool_sizeMAM n s :
  wp (_loop_subtree_n t nodesG nodesH list_m method lambda_IBP rho epsilon
        pool_sizeMAM n) s
     (fun o s' => frame s' = frame s /\
                  length (out_D_ij_t o) = length list_m /\
                  (0 < epsilon -> nonneg (sD s) ->
                   forall d, In d (out_D_ij_t o) -> 0 <= d))
     (fun e s' => frame s' = frame s /\ e <> KeyError).
Proof.
  pose proof (@loop_subtree_n_read_only E t nodesG nodesH list_m method
                lambda_IBP rho epsilon pool_sizeMAM n s) as Hro.
  apply wp_intro.
  - intros o s' Hrun. rewrite Hrun in Hro. split; [exact Hro|].
    split; [eapply loop_subtree_n_length; eauto|].
    intros Heps HD. eapply loop_subtree_n_distances_nonneg; eauto.
  - intros e s' Hrun. rewrite Hrun in Hro. split; [exact Hro|].
    intros ->.
    apply (@loop_subtree_n_never_key t nodesG nodesH list_m method lambda_IBP
             rho epsilon pool_sizeMAM n s).
    now rewrite Hrun.
Qed.

(** *** The merge loop *)

Lemma merge_child_wp s0 n Pi_k_n i_m children_m jc_j s :
  same_trees s0 s -> In (snd jc_j) (successors (sG s0) n) ->
  wp (merge_child n Pi_k_n i_m children_m jc_j) s
     (fun _ s' => same_trees s0 s') (exc (same_trees s0)).
Proof.
  intros Hst Hj. unfold merge_child.
  apply wp_bind, wp_lift; [apply no_key_index | exact Hst | intros P HP; cbv beta].
  apply wp_bind, wp_lift; [apply no_key_index | exact Hst | intros row Hrow; cbv beta].
  wp_get.
  apply wp_bind, wp_lift;
    [apply no_key_assign_row | exact Hst | intros Pi' HPi'; cbv beta].
  wp_put.
  set (s1 := mkStore (sG s) (sH s) Pi' (sD s) (sCalls s)).
  assert (Hst1 : same_trees s0 s1) by exact Hst.
  destruct (i_m =? 0)%nat; [|apply wp_ret; exact Hst1].
  wp_get.
  apply wp_bind, wp_lift; [apply no_key_index | exact Hst1 | intros r Hr; cbv beta].
  apply wp_bind, wp_lift;
    [apply no_key_mapM; intros; apply no_key_index | exact Hst1
    | intros vals Hvals; cbv beta].
  wp_get. wp_put.
  set (s2 := mkStore (set_weight (sG s1) n (snd jc_j) (np_sum_f64 vals))
                     (sH s1) (sPi s1) (sD s1) (sCalls s1)).
  assert (Hst2 : same_trees s0 s2).
  { destruct Hst1 as [HH HG]. split; [exact HH|].
    eapply weights_only_trans; [exact HG | apply weights_only_set_weight]. }
  wp_get.
  apply wp_bind, wp_lift; [|exact Hst2|intros w Hw; cbv beta].
  { apply no_key_weight.
    rewrite (@weights_only_successors (sG s0) (sG s2) n) by apply Hst2.
    exact Hj. }
  apply wp_put_G.
  destruct Hst2 as [HH HG]. split; [exact HH|].
  eapply weights_only_trans; [exact HG | apply weights_only_set_weight].
Qed.

Lemma merge_node_wp s0 outputs list_m acc in_n o s :
  same_trees s0 s ->
  dict_get outputs (snd in_n) = Ok o ->
  wp (merge_node outputs list_m acc in_n) s
     (fun acc' s' => same_trees s0 s' /\
                     m_D_ij_t acc' = m_D_ij_t acc ++ [out_D_ij_t o])
     (exc (same_trees s0)).
Proof.
  intros Hst Ho. unfold merge_node.
  apply wp_bind, wp_lift;
    [rewrite Ho; apply no_key_Ok | exact Hst | intros o' Ho'; cbv beta].
  rewrite Ho in Ho'. inversion Ho'; subst o'; clear Ho'.
  wp_get. wp_get. apply wp_bind.
  apply wp_mono with (Q := fun (_ : unit) s' => same_trees s0 s')
                     (X := exc (same_trees s0)).
  - apply (@wp_forM _ _ (fun _ s' => same_trees s0 s')); [|exact Hst].
    intros done im_m rest s1 _ Hst1.
    apply (@wp_forM _ _ (fun _ s' => same_trees s0 s')); [|exact Hst1].
    intros done' jc_j rest' s2 Hl Hst2.
    apply merge_child_wp; [exact Hst2|].
    assert (Hin : In jc_j (enumerate (successors (sG s) (snd in_n)))).
    { rewrite Hl. apply in_or_app. right. now left. }
    unfold enumerate in Hin. destruct jc_j as [jc j].
    apply in_combine_r in Hin. simpl.
    rewrite <- (@weights_only_successors (sG s0) (sG s) (snd in_n)) by apply Hst.
    exact Hin.
  - intros u s1 Hst1. apply wp_ret. split; [exact Hst1 | reflexivity].
  - intros e s1 He. exact He.
Qed.

Lemma nonneg_snoc (D : list vector) (v : vector) :
  nonneg D -> (forall d, In d v -> 0 <= d) -> nonneg (D ++ [v]).
Proof.
  intros HD Hv x Hx. rewrite concat_app in Hx. apply in_app_or in Hx.
  destruct Hx as [Hx|Hx]; [now apply HD|].
  simpl in Hx. rewrite app_nil_r in Hx. now apply Hv.
Qed.

(** *** One stage of the backward pass, for one worker *)

Lemma backward_stage_wp s0 method lambda_IBP rho epsilon pool_sizeMAM f t s :
  same_trees s0 s ->
  wp (backward_stage method lambda_IBP rho epsilon 1 0 pool_sizeMAM f t) s
     (fun f' s' =>
        same_trees s0 s' /\
        f_nodesG f' = py_set (f_ancestor_n f) /\
        f_nodesH f' = py_set (f_ancestor_m f) /\
        length (sD s') = length (py_set (f_ancestor_n f)) /\
        Forall (fun row => length row = length (py_set (f_ancestor_m f)))
               (sD s') /\
        (0 < epsilon -> nonneg (sD s) -> nonneg (sD s')))
     (exc (same_trees s0)).
Proof.
  intros Hst. unfold backward_stage.
  set (list_m := py_set (f_ancestor_m f)).
  set (list_n := py_set (f_ancestor_n f)).
  rewrite division_tasks_one by lia.
  apply wp_bind, wp_lift; [apply no_key_Ok | exact Hst | intros sw Hsw; cbv beta].
  inversion Hsw; subst sw; clear Hsw.
  apply wp_bind, wp_lift; [apply no_key_index | exact Hst | intros works Hw; cbv beta].
  inversion Hw; subst works; clear Hw.
  apply wp_bind.
  apply wp_mono with
    (Q := fun (outs : list (nat * output)) s' =>
            frame s' = frame s /\
            (forall k o, In (k, o) outs ->
               length (out_D_ij_t o) = length list_m /\
               (0 < epsilon -> nonneg (sD s) ->
                forall d, In d (out_D_ij_t o) -> 0 <= d)) /\
            (forall n, In n list_n -> exists o, dict_get outs n = Ok o))
    (X := exc (same_trees s0)).
  - eapply wp_mono.
    { apply (@wp_foldM _ _ _
               (fun done (outs : list (nat * output)) s' =>
                  frame s' = frame s /\
                  (forall k o, In (k, o) outs ->
                     length (out_D_ij_t o) = length list_m /\
                     (0 < epsilon -> nonneg (sD s) ->
                      forall d, In d (out_D_ij_t o) -> 0 <= d)) /\
                  (forall w n, In w done -> index list_n (Z.to_nat w) = Ok n ->
                               exists o, dict_get outs n = Ok o))
               (exc (same_trees s0))).
      - intros done w rest outs s1 Hl (Hfr & Hvals & Hkeys).
        assert (Hst1 : same_trees s0 s1).
        { eapply same_trees_trans; [exact Hst | now apply frame_same_trees]. }
        apply wp_bind, wp_lift;
          [apply no_key_index | exact Hst1 | intros n Hn; cbv beta].
        apply wp_bind.
        eapply wp_mono; [apply loop_subtree_n_wp| |].
        + intros o s2 (Hfr2 & Hlen & Hnn). apply wp_ret.
          split; [congruence|]. split.
          * intros k o' Hin. apply dict_set_In in Hin.
            destruct Hin as [[-> ->]|Hin]; [|now apply (Hvals k o')].
            split; [exact Hlen|]. intros Heps HD. apply Hnn; [exact Heps|].
            unfold frame in Hfr. inversion Hfr as [[HG HH HP HD']].
            now rewrite HD'.
          * intros w' n' Hw' Hn'. apply in_app_or in Hw'.
            destruct Hw' as [Hw'|[<-|[]]].
            -- apply dict_get_set_defined. now apply (Hkeys w' n').
            -- rewrite Hn in Hn'. inversion Hn'; subst n'.
               eexists. apply dict_get_set_eq.
        + intros e s2 (Hfr2 & He). split; [|exact He].
          eapply same_trees_trans; [exact Hst1 | now apply frame_same_trees].
      - split; [reflexivity|]. split; [intros k o []|intros w n []]. }
    + intros outs s1 (Hfr & Hvals & Hkeys). split; [exact Hfr|].
      split; [exact Hvals|].
      intros n Hn. apply In_nth_error in Hn. destruct Hn as (i & Hi).
      assert (Hlt : (i < length list_n)%nat) by (apply nth_error_Some; congruence).
      apply (Hkeys (Z.of_nat i) n).
      * unfold py_range. apply in_map_iff. exists i. split; [lia|].
        apply in_seq. lia.
      * rewrite Nat2Z.id. now apply index_Ok.
    + intros e s1 He. exact He.
  - intros outs s1 (Hfr & Hvals & Hkeys). cbv beta.
    assert (Hst1 : same_trees s0 s1).
    { eapply same_trees_trans; [exact Hst | now apply frame_same_trees]. }
    apply wp_bind.
    apply wp_mono with
      (Q := fun (mg : merged) s' =>
              same_trees s0 s' /\
              length (m_D_ij_t mg) = length list_n /\
              Forall (fun row => length row = length list_m) (m_D_ij_t mg) /\
              (0 < epsilon -> nonneg (sD s) -> nonneg (m_D_ij_t mg)))
      (X := exc (same_trees s0)).
    + eapply wp_mono.
      { apply (@wp_foldM _ _ _
                 (fun done (mg : merged) s' =>
                    same_trees s0 s' /\
                    length (m_D_ij_t mg) = length done /\
                    Forall (fun row => length row = length list_m)
                           (m_D_ij_t mg) /\
                    (0 < epsilon -> nonneg (sD s) -> nonneg (m_D_ij_t mg)))
                 (exc (same_trees s0))).
        - intros done in_n rest acc s2 Hl (Hst2 & Hlen & Hrows & Hnn).
          assert (Hin : In (snd in_n) list_n).
          { assert (Hin : In in_n (enumerate list_n)).
            { rewrite Hl. apply in_or_app. right. now left. }
            unfold enumerate in Hin. destruct in_n as [i_n n].
            now apply in_combine_r in Hin. }
          destruct (Hkeys _ Hin) as (o & Ho).
          destruct (Hvals (snd in_n) o (dict_get_In _ _ Ho)) as [Holen Honn].
          eapply wp_mono;
            [apply (@merge_node_wp s0 outs list_m acc in_n o s2 Hst2 Ho)| |].
          + intros acc' s3 (Hst3 & HD'). split; [exact Hst3|].
            rewrite HD'. split; [rewrite !length_app; simpl; lia|]. split.
            * apply Forall_app. split; [exact Hrows|]. now constructor.
            * intros Heps HD. apply nonneg_snoc; [now apply Hnn | now apply Honn].
          + intros e s3 He. exact He.
        - split; [exact Hst1|]. split; [reflexivity|].
          split; [constructor | intros _ _ x []]. }
      * intros mg s2 (H2 & Hlen & Hrows & Hnn). split; [exact H2|].
        split; [|split; assumption].
        rewrite Hlen. unfold enumerate.
        rewrite length_combine, length_seq. apply Nat.min_id.
      * intros e s2 He. exact He.
    + intros mg s2 (Hst2 & Hlen & Hrows & Hnn). cbv beta.
      wp_put. apply wp_ret. repeat split; auto; apply Hst2.
    + intros e s2 He. exact He.
  - intros e s1 He. exact He.
Qed.

(** *** The seeding *)

Lemma seed_pair_wp s0 t n acc m s :
  only_Pi s0 s ->
  wp (seed_pair t n acc m) s (fun _ s' => only_Pi s0 s') (exc (only_Pi s0)).
Proof.
  intros Hs. unfold seed_pair. wp_get. wp_get. apply wp_bind.
  apply wp_mono with (Q := fun (_ : unit) s' => only_Pi s0 s')
                     (X := exc (only_Pi s0)).
  - apply (@wp_forM _ _ (fun _ s' => only_Pi s0 s')); [|exact Hs].
    intros done i rest s1 Hl Hs1.
    apply (@wp_forM _ _ (fun _ s' => only_Pi s0 s')); [|exact Hs1].
    intros done' j rest' s2 _ Hs2.
    apply wp_bind, wp_lift; [|exact Hs2|intros w Hw; cbv beta].
    { apply no_key_weight. rewrite Hl. apply in_or_app. right. now left. }
    apply wp_write_Pi; [exact Hs2|]. intros P _. exact Hs2.
  - intros u s1 Hs1. cbv beta. destruct (0 <? t)%Z.
    + apply wp_bind, wp_lift; [apply no_key_index | exact Hs1 | intros pn _; cbv beta].
      apply wp_bind, wp_lift; [apply no_key_index | exact Hs1 | intros pm _; cbv beta].
      apply wp_ret. exact Hs1.
    + apply wp_ret. exact Hs1.
  - intros e s1 He. exact He.
Qed.

Lemma seed_stage_wp s0 acc t s :
  only_Pi s0 s ->
  wp (seed_stage acc t) s (fun _ s' => only_Pi s0 s') (exc (only_Pi s0)).
Proof.
  intros Hs. unfold seed_stage.
  eapply wp_mono.
  { apply (@wp_foldM _ _ _ (fun _ (_ : list nat * list nat) s' => only_Pi s0 s')
             (exc (only_Pi s0))); [|exact Hs].
    intros done n rest a s1 _ Hs1.
    eapply wp_mono.
    { apply (@wp_foldM _ _ _ (fun _ (_ : list nat * list nat) s' => only_Pi s0 s')
               (exc (only_Pi s0))); [|exact Hs1].
      intros done' m rest' a' s2 _ Hs2. now apply seed_pair_wp. }
    - intros a' s2 H2. exact H2.
    - intros e s2 He. exact He. }
  - intros a s1 H1. exact H1.
  - intros e s1 He. exact He.
Qed.

Lemma seed_Pi_wp N1 N2 s :
  wp (seed_Pi N1 N2) s (fun _ s' => only_Pi s s') (exc (only_Pi s)).
Proof.
  unfold seed_Pi. wp_get. wp_get. wp_put.
  set (s1 := mkStore (sG s) (sH s) (np_zeros N1 N2) (sD s) (sCalls s)).
  assert (Hs1 : only_Pi s s1) by (repeat split).
  apply wp_bind, wp_write_Pi; [exact Hs1|]. intros P _. cbv beta.
  set (s2 := mkStore (sG s1) (sH s1) P (sD s1) (sCalls s1)).
  assert (Hs2 : only_Pi s s2) by (repeat split).
  apply wp_bind, wp_lift; [apply no_key_np_max | exact Hs2 | intros T _; cbv beta].
  apply wp_bind.
  apply wp_mono with (Q := fun (_ : list nat * list nat) s' => only_Pi s s')
                     (X := exc (only_Pi s)).
  - eapply wp_mono.
    { apply (@wp_foldM _ _ _ (fun _ (_ : list nat * list nat) s' => only_Pi s s')
               (exc (only_Pi s))); [|exact Hs2].
      intros done t rest a s3 _ Hs3. now apply seed_stage_wp. }
    + intros a s3 H3. exact H3.
    + intros e s3 He. exact He.
  - intros a s3 H3. cbv beta. apply wp_ret. exact H3.
  - intros e s3 He. exact He.
Qed.

Lemma init_Pi_wp s :
  wp init_Pi s (fun _ s' => only_Pi s s') (exc (only_Pi s)).
Proof.
  unfold init_Pi. wp_get. wp_get. wp_get.
  destruct (Qeq_bool (np_sum_f64 (concat (sPi s))) 0).
  - apply seed_Pi_wp.
  - apply wp_ret. apply only_Pi_refl.
Qed.

(** *** The forward rebuild *)

Lemma rebuild_cell_wp s0 j1 i1 n m s :
  only_Pi s0 s ->
  wp (rebuild_cell j1 i1 n m) s (fun _ s' => only_Pi s0 s') (exc (only_Pi s0)).
Proof.
  intros Hs. unfold rebuild_cell.
  apply wp_bind, wp_read_Pi; [exact Hs|]. intros a _. cbv beta.
  apply wp_bind, wp_read_Pi; [exact Hs|]. intros b _. cbv beta.
  apply wp_write_Pi; [exact Hs|]. intros P _. exact Hs.
Qed.

Lemma rebuild_stage_wp s0 list_i1 list_j1 s :
  only_Pi s0 s ->
  wp (rebuild_stage list_i1 list_j1) s
     (fun _ s' => only_Pi s0 s') (exc (only_Pi s0)).
Proof.
  intros Hs. unfold rebuild_stage. wp_get. wp_get.
  apply (@wp_forM _ _ (fun _ s' => only_Pi s0 s')); [|exact Hs].
  intros d1 i1 r1 s1 _ Hs1.
  apply (@wp_forM _ _ (fun _ s' => only_Pi s0 s')); [|exact Hs1].
  intros d2 j1 r2 s2 _ Hs2.
  apply (@wp_forM _ _ (fun _ s' => only_Pi s0 s')); [|exact Hs2].
  intros d3 m r3 s3 _ Hs3.
  apply (@wp_forM _ _ (fun _ s' => only_Pi s0 s')); [|exact Hs3].
  intros d4 n r4 s4 _ Hs4.
  now apply rebuild_cell_wp.
Qed.

Lemma rebuild_wp T s :
  wp (rebuild T) s (fun _ s' => only_Pi s s') (exc (only_Pi s)).
Proof.
  unfold rebuild.
  apply wp_bind, wp_write_Pi; [apply only_Pi_refl|]. intros P _. cbv beta.
  set (s1 := mkStore (sG s) (sH s) P (sD s) (sCalls s)).
  assert (Hs1 : only_Pi s s1) by (repeat split).
  wp_get. wp_get.
  apply (@wp_forM _ _ (fun _ s' => only_Pi s s')); [|exact Hs1].
  intros done t rest s2 _ Hs2. now apply rebuild_stage_wp.
Qed.

(** *** The whole call *)

Lemma reduction_tree_wp rho method lambda_IBP npool s :
  wp (reduction_tree rho method lambda_IBP npool) s
     (fun r s' => same_trees s s' /\ 0 <= r_distance r)
     (exc (same_trees s)).
Proof.
  unfold reduction_tree.
  destruct (supported method); simpl negb; cbv iota.
  2:{ apply wp_raise. split; [apply same_trees_refl | discriminate]. }
  wp_get. wp_get. apply wp_bind.
  apply wp_mono with (Q := fun (_ : unit) s' => only_Pi s s')
                     (X := exc (only_Pi s)); [apply init_Pi_wp| |].
  2:{ intros e s1 (H1 & H2). split; [now apply only_Pi_same_trees | exact H2]. }
  intros u s1 Hs1. cbv beta.
  apply only_Pi_same_trees in Hs1.
  destruct (find_process_data (sG s)) as [[[ai wi] pi_] T].
  destruct (find_process_data (sH s)) as [[[aj wj] pj] T'].
  apply wp_bind, wp_lift;
    [apply no_key_leaf_distances | exact Hs1
    | intros [[nodesG nodesH] D] HD; cbv beta].
  apply leaf_distances_nonneg in HD.
  wp_put.
  set (s2 := mkStore (sG s1) (sH s1) (sPi s1) D (sCalls s1)).
  assert (Hs2 : same_trees s s2) by exact Hs1.
  apply wp_bind.
  apply wp_mono with
    (Q := fun (_ : frontier) s' => same_trees s s' /\ nonneg (sD s'))
    (X := exc (same_trees s)).
  - eapply wp_mono.
    { apply (@wp_foldM _ _ _
               (fun _ (_ : frontier) s' => same_trees s s' /\ nonneg (sD s'))
               (exc (same_trees s))); [|split; [exact Hs2 | exact HD]].
      intros done t rest f s3 _ (H3 & H4).
      eapply wp_mono; [apply backward_stage_wp; exact H3| |].
      - intros f' s4 (Hst4 & _ & _ & _ & _ & Hnn). split; [exact Hst4|].
        apply Hnn; [reflexivity | exact H4].
      - intros e s4 He. exact He. }
    + intros f s3 H3. exact H3.
    + intros e s3 He. exact He.
  - intros f s3 (H3 & H4). cbv beta. apply wp_bind.
    apply wp_mono with (Q := fun (_ : unit) s' => only_Pi s3 s')
                       (X := exc (only_Pi s3)); [apply rebuild_wp| |].
    + intros u' s4 H5. cbv beta.
      assert (Hs4 : same_trees s s4).
      { eapply same_trees_trans; [exact H3 | now apply only_Pi_same_trees]. }
      wp_get.
      apply wp_bind, wp_lift;
        [apply no_key_mget | exact Hs4 | intros d Hd; cbv beta].
      apply wp_ret. split; [exact Hs4|]. simpl.
      destruct H5 as (_ & _ & HD4 & _). rewrite HD4 in Hd.
      apply H4. eapply mget_In; eauto.
    + intros e s4 (H5 & He). split; [|exact He].
      eapply same_trees_trans; [exact H3 | now apply only_Pi_same_trees].
  - intros e s3 He. exact He.
Qed.

(** X10. Whatever the arguments and the outcome (a result or an
    exception), a call of [reduction_tree] leaves the tree [H] as it was,
    and changes nothing of the tree [G] but the weights of its edges: the
    nodes, their stages and the edges, in their order, are those of the
    argument, so every node keeps its children and its parent. *)
Theorem reduction_tree_keeps_trees rho method lambda_IBP npool (s : store) :
  let s' := snd (reduction_tree rho method lambda_IBP npool s) in
  sH s' = sH s /\
  nodes (sG s') = nodes (sG s) /\
  stage (sG s') = stage (sG s) /\
  map fst (edges (sG s')) = map fst (edges (sG s)) /\
  forall n, successors (sG s') n = successors (sG s) n.
Proof.
  intros s'.
  assert (Hst : same_trees s s').
  { pose proof (reduction_tree_wp rho method lambda_IBP npool s) as Hwp.
    unfold wp in Hwp. subst s'.
    destruct (reduction_tree rho method lambda_IBP npool s) as [[r|e] s1];
      simpl; apply Hwp. }
  destruct Hst as (HH & HG). pose proof HG as (Hn & Hs & He).
  repeat split; auto.
  intros n. now apply weights_only_successors.
Qed.

(** X11. [reduction_tree] never raises [KeyError]: every result that the
    merge loop looks up in [outputs] has been stored by the loop over the
    tasks of the worker (one worker, which receives every task), and every
    edge whose weight is read or written is the edge to a successor. *)
Theorem reduction_tree_no_KeyError rho method lambda_IBP npool (s : store) :
  fst (reduction_tree rho method lambda_IBP npool s) <> Raise KeyError.
Proof.
  pose proof (reduction_tree_wp rho method lambda_IBP npool s) as Hwp.
  unfold wp in Hwp.
  destruct (reduction_tree rho method lambda_IBP npool s) as [[r|e] s1]; simpl.
  - discriminate.
  - destruct Hwp as [_ He]. congruence.
Qed.

(** X12. The nested distance that [reduction_tree] returns, [D_ij[0, 0]]
    after the backward pass, is not negative: the leaf distances are sums of
    squares, and every stage replaces [D_ij] by totals of products of
    positive plan entries with entries of the previous [D_ij]. *)
Theorem reduction_tree_distance_nonneg rho method lambda_IBP npool
    (s s' : store) (r : result) :
  reduction_tree rho method lambda_IBP npool s = (Ok r, s') ->
  0 <= r_distance r.
Proof.
  intros Hrun.
  pose proof (reduction_tree_wp rho method lambda_IBP npool s) as Hwp.
  unfold wp in Hwp. rewrite Hrun in Hwp. apply Hwp.
Qed.

(** X13. The seeding of [Pi] (lines 54-84) and the forward rebuild (lines
    167-181) write to [Pi] only: whatever their outcome, the trees, the
    distance matrix and the log of solver calls are as before. *)
Theorem seeding_and_rebuild_write_Pi_only (T : Z) (s : store) :
  only_Pi s (snd (init_Pi s)) /\ only_Pi s (snd (rebuild T s)).
Proof.
  split.
  - pose proof (init_Pi_wp s) as Hwp. unfold wp in Hwp.
    destruct (init_Pi s) as [[u|e] s1]; simpl; apply Hwp.
  - pose proof (rebuild_wp T s) as Hwp. unfold wp in Hwp.
    destruct (rebuild T s) as [[u|e] s1]; simpl; apply Hwp.
Qed.


(** X17. Without a stage, that is when [find_process_data] reports a
    horizon [T <= 0] for [G], a call of [reduction_tree] that returns has
    run neither loop: no solver was called, [G] is untouched, weights
    included, the counts per stage are empty, [D_ij] is the matrix of the
    leaf distances and the distance returned is its entry [(0, 0)]. *)
Theorem reduction_tree_without_stage rho method lambda_IBP npool
    (s s' : store) (r : result) :
  (snd (find_process_data (sG s)) <= 0)%Z ->
  reduction_tree rho method lambda_IBP npool s = (Ok r, s') ->
  sG s' = sG s /\ sH s' = sH s /\ sCalls s' = sCalls s /\
  r_nb_n r = [] /\ r_nb_m r = [] /\
  let '(ai, wi, _, _) := find_process_data (sG s) in
  let '(aj, wj, _, _) := find_process_data (sH s) in
  exists nodesG nodesH,
    leaf_distances ai wi aj wj = Ok (nodesG, nodesH, sD s') /\
    mget (sD s') 0 0 = Ok (r_distance r).
Proof.
  unfold reduction_tree. intros HT H.
  destruct (supported method); simpl negb in H; cbv iota in H; [|discriminate].
  apply bind_Ok_inv in H. destruct H as (G & s1 & HG & H).
  apply get_G_inv in HG. destruct HG as [-> ->].
  apply bind_Ok_inv in H. destruct H as (H0 & s1 & HH & H).
  apply get_H_inv in HH. destruct HH as [-> ->].
  apply bind_Ok_inv in H. destruct H as (u & s1 & Hinit & H).
  pose proof (init_Pi_wp s) as Hwp. unfold wp in Hwp. rewrite Hinit in Hwp.
  destruct Hwp as (HG1 & HH1 & HD1 & HC1).
  destruct (find_process_data (sG s)) as [[[ai wi] pi_] T].
  destruct (find_process_data (sH s)) as [[[aj wj] pj] T']. simpl in HT.
  apply bind_Ok_inv in H. destruct H as ([[nodesG nodesH] D] & s2 & Hleaf & H).
  apply lift_Ok_inv in Hleaf. destruct Hleaf as [Hleaf ->].
  apply bind_Ok_inv in H. destruct H as (u1 & s3 & Hput & H).
  unfold put_D in Hput. inversion Hput; subst s3; clear Hput.
  rewrite py_range_nil in H by lia. simpl rev in H. simpl foldM in H.
  apply bind_Ok_inv in H. destruct H as (f & s4 & Hf & H).
  apply ret_inv in Hf. destruct Hf as [-> ->].
  apply bind_Ok_inv in H. destruct H as (u2 & s5 & Hreb & H).
  match type of Hreb with
  | rebuild _ ?s3 = _ =>
      pose proof (rebuild_wp T s3) as Hwp; unfold wp in Hwp;
      rewrite Hreb in Hwp; simpl in Hwp
  end.
  destruct Hwp as (HG5 & HH5 & HD5 & HC5).
  apply bind_Ok_inv in H. destruct H as (D' & s6 & HD' & H).
  unfold get_D in HD'. inversion HD'; subst D' s6; clear HD'.
  apply bind_Ok_inv in H. destruct H as (d & s7 & Hd & H).
  apply lift_Ok_inv in Hd. destruct Hd as [Hd ->].
  apply ret_inv in H. destruct H as [-> ->]. simpl.
  simpl in HG5, HH5, HD5, HC5.
  split; [congruence|]. split; [congruence|]. split; [congruence|].
  split; [reflexivity|]. split; [reflexivity|].
  exists nodesG, nodesH. rewrite HD5 in *. now split.
Qed.

End DriverOutcomes.

(** ** The merge loop and the counts per stage *)

Section MergeFacts.

Context {E : Externals}.

Local Open Scope Q_scope.

(** *** Edge weights *)



(** *** Rounding to three decimals *)

Lemma round_half_even_close x :
  - (1 # 2) <= inject_Z (round_half_even x) - x <= 1 # 2.
Proof.
  unfold round_half_even.
  pose proof (Qfloor_le x) as Hlo. pose proof (Qlt_floor x) as Hhi.
  rewrite inject_Z_plus in Hhi. change (inject_Z 1) with 1 in Hhi.
  set (f := Qfloor x) in *.
  assert (Hplus : inject_Z (f + 1) = inject_Z f + 1) by apply inject_Z_plus.
  destruct (Qcompare_spec (x - inject_Z f) (1 # 2)) as [Heq|Hlt|Hgt].
  - destruct (Z.even f); [lra | rewrite Hplus; lra].
  - lra.
  - rewrite Hplus. lra.
Qed.

Lemma np_round3_close x :
  - (1 # 2000) <= np_round3 x - x <= 1 # 2000.
Proof.
  unfold np_round3.
  pose proof (round_half_even_close (x * 1000)) as H.
  set (r := inject_Z (round_half_even (x * 1000))) in *.
  unfold Qdiv. change (/ 1000) with (1 # 1000). lra.
Qed.


(** *** The counts per stage *)

Lemma backward_stage_counts method lambda_IBP rho epsilon pool_size rank
    pool_sizeMAM f t s f' s' :
  backward_stage method lambda_IBP rho epsilon pool_size rank pool_sizeMAM
    f t s = (Ok f', s') ->
  f_nb_n f' = f_nb_n f ++ [length (py_set (f_ancestor_n f))] /\
  f_nb_m f' = f_nb_m f ++ [length (py_set (f_ancestor_m f))].
Proof.
  unfold backward_stage. intros H.
  apply bind_Ok_inv in H. destruct H as (sw & s1 & _ & H).
  apply bind_Ok_inv in H. destruct H as (works & s2 & _ & H).
  apply bind_Ok_inv in H. destruct H as (outs & s3 & _ & H).
  apply bind_Ok_inv in H. destruct H as (mg & s4 & _ & H).
  apply bind_Ok_inv in H. destruct H as (u & s5 & _ & H).
  apply ret_inv in H. destruct H as [-> _]. simpl. now split.
Qed.

Lemma backward_pass_counts method lambda_IBP rho epsilon pool_size rank
    pool_sizeMAM l :
  forall f s f' s',
    foldM (backward_stage method lambda_IBP rho epsilon pool_size rank
             pool_sizeMAM) l f s = (Ok f', s') ->
    length (f_nb_n f') = (length (f_nb_n f) + length l)%nat /\
    length (f_nb_m f') = (length (f_nb_m f) + length l)%nat.
Proof.
  induction l as [|t l IH]; intros f s f' s' H; simpl in H.
  - apply ret_inv in H. destruct H as [-> _]. simpl. lia.
  - apply bind_Ok_inv in H. destruct H as (f1 & s1 & Hstage & H).
    apply backward_stage_counts in Hstage. destruct Hstage as [Hn Hm].
    apply IH in H. rewrite Hn, Hm, !length_app in H. simpl in *. lia.
Qed.

(** X15. The counts per stage that [reduction_tree] returns, [nb_n] and
    [nb_m], have one entry for each stage of the backward pass, that is
    [T] entries, [T] being the horizon that [find_process_data] reports for
    [G]; the horizon it reports for [H] plays no part. *)
Theorem reduction_tree_counts rho method lambda_IBP npool (s s' : store)
    (r : result) :
  reduction_tree rho method lambda_IBP npool s = (Ok r, s') ->
  length (r_nb_n r) = Z.to_nat (snd (find_process_data (sG s))) /\
  length (r_nb_m r) = Z.to_nat (snd (find_process_data (sG s))).
Proof.
  unfold reduction_tree. intros H.
  destruct (supported method); simpl negb in H; cbv iota in H; [|discriminate].
  apply bind_Ok_inv in H. destruct H as (G & s1 & HG & H).
  apply get_G_inv in HG. destruct HG as [-> ->].
  apply bind_Ok_inv in H. destruct H as (H0 & s1 & HH & H).
  apply get_H_inv in HH. destruct HH as [-> ->].
  apply bind_Ok_inv in H. destruct H as (u & s1 & _ & H).
  destruct (find_process_data (sG s)) as [[[ai wi] pi_] T].
  destruct (find_process_data (sH s)) as [[[aj wj] pj] T'].
  apply bind_Ok_inv in H. destruct H as ([[nodesG nodesH] D] & s2 & _ & H).
  apply bind_Ok_inv in H. destruct H as (u1 & s3 & _ & H).
  apply bind_Ok_inv in H. destruct H as (f & s4 & Hf & H).
  apply bind_Ok_inv in H. destruct H as (u2 & s5 & _ & H).
  apply bind_Ok_inv in H. destruct H as (D' & s6 & _ & H).
  apply bind_Ok_inv in H. destruct H as (d & s7 & _ & H).
  apply ret_inv in H. destruct H as [-> _]. simpl.
  apply backward_pass_counts in Hf. simpl in Hf.
  rewrite !length_rev. rewrite length_rev, py_range_length in Hf.
  replace (T - 0)%Z with T in Hf by lia. exact Hf.
Qed.

End MergeFacts.

(** ** Plans: embedding, cutting and writing *)

Section PlanFacts.

Context {E : Externals}.

Local Open Scope Q_scope.

(** *** The stacked marginals of the IBP branch *)

Lemma sum1_zeros n : sum1 (repeat 0 n) == 0.
Proof. induction n as [|n IH]; simpl; [reflexivity|]. rewrite IH. ring. Qed.

Lemma embed_length sumS acc b : length (embed sumS acc b) = length b.
Proof.
  revert acc. induction b as [|p b IH]; intros acc; simpl; [reflexivity|].
  now rewrite IH.
Qed.

Lemma embed_rows sumS b :
  forall acc, (acc + list_sum (map (@length Q) b) <= sumS)%nat ->
  Forall (fun v => length v = sumS) (embed sumS acc b).
Proof.
  induction b as [|p b IH]; intros acc Hle; simpl in *; constructor.
  - rewrite !length_app, !repeat_length. lia.
  - apply IH. lia.
Qed.

Lemma embed_mass sumS b :
  forall acc, Forall2 (fun v p => sum1 v == sum1 p) (embed sumS acc b) b.
Proof.
  induction b as [|p b IH]; intros acc; simpl; constructor.
  - rewrite !sum1_app, !sum1_zeros. ring.
  - apply IH.
Qed.

Lemma slice_embedded acc (p : vector) k :
  firstn (length p) (skipn acc (repeat 0 acc ++ p ++ repeat 0 k)) = p.
Proof.
  rewrite skipn_app, repeat_length, Nat.sub_diag.
  rewrite skipn_all2 by (rewrite repeat_length; lia).
  simpl. rewrite firstn_app, Nat.sub_diag. simpl.
  rewrite firstn_all. apply app_nil_r.
Qed.

Lemma split_ibp_embed sumS b :
  forall acc i_m pre,
    length pre = i_m ->
    split_ibp acc i_m b (pre ++ map expand_dims0 (embed sumS acc b)) =
    Ok (map expand_dims0 b).
Proof.
  induction b as [|p b IH]; intros acc i_m pre Hpre; simpl; [reflexivity|].
  unfold index. rewrite nth_error_app2 by lia.
  replace (i_m - length pre)%nat with 0%nat by lia. simpl.
  specialize (IH (acc + length p)%nat (S i_m)
                 (pre ++ [expand_dims0
                            (repeat 0 acc ++ p ++
                             repeat 0 (sumS - acc - length p))])).
  rewrite <- app_assoc in IH. simpl in IH. rewrite IH.
  - simpl. unfold slice_cols, expand_dims0. simpl.
    now rewrite slice_embedded.
  - rewrite length_app. simpl. lia.
Qed.

(** X18. The marginals handed to [barycenter_IBP] (lines 243-251). For the
    list [b] of the weight vectors, there is one stacked vector per vector
    of [b], each of length [sumS], the total of the lengths; it has the
    total of the vector it comes from, the entries outside [acc : acc +
    len(p)] being zero; and the offsets of the cutting loop (lines 258-262)
    are the offsets of the stacking loop: cutting the stacked vectors, each
    as a matrix of one row, gives back the vectors of [b]. *)
Theorem embed_vectors (b : list vector) :
  let sumS := list_sum (map (@length Q) b) in
  length (embed sumS 0 b) = length b /\
  Forall (fun v => length v = sumS) (embed sumS 0 b) /\
  Forall2 (fun v p => sum1 v == sum1 p) (embed sumS 0 b) b /\
  split_ibp 0 0 b (map expand_dims0 (embed sumS 0 b)) = Ok (map expand_dims0 b).
Proof.
  intros sumS. split; [apply embed_length|].
  split; [apply embed_rows; unfold sumS; lia|].
  split; [apply embed_mass|].
  apply (@split_ibp_embed sumS b 0%nat 0%nat []). reflexivity.
Qed.

(** *** The cuts of the LP branch *)

Lemma hconcat_slice (Pi : matrix) acc n :
  hconcat_rows (slice_cols Pi acc n) (map (skipn (acc + n)) Pi) =
  Ok (map (skipn acc) Pi).
Proof.
  unfold slice_cols.
  induction Pi as [|row Pi IH]; simpl; [reflexivity|].
  rewrite IH. simpl.
  replace (acc + n)%nat with (n + acc)%nat by lia.
  rewrite <- skipn_skipn, firstn_skipn. reflexivity.
Qed.

Lemma split_lp_shape (Pi : matrix) b :
  forall acc,
    Forall (fun row => length row = (acc + list_sum (map (@length Q) b))%nat) Pi ->
    Forall2 (fun P (p : vector) =>
               length P = length Pi /\
               Forall (fun row => length row = length p) P)
            (split_lp acc b Pi) b.
Proof.
  induction b as [|p b IH]; intros acc Hrows; simpl; constructor.
  - unfold slice_cols. rewrite length_map. split; [reflexivity|].
    apply Forall_map. eapply Forall_impl; [|exact Hrows].
    intros row Hrow. simpl in Hrow.
    rewrite length_firstn, length_skipn. lia.
  - apply IH. eapply Forall_impl; [|exact Hrows].
    intros row Hrow. simpl in Hrow. lia.
Qed.

Lemma split_lp_concat (Pi : matrix) b :
  b <> [] ->
  forall acc,
    Forall (fun row => length row = (acc + list_sum (map (@length Q) b))%nat) Pi ->
    np_concatenate1 (split_lp acc b Pi) = Ok (map (skipn acc) Pi).
Proof.
  induction b as [|p b IH]; intros Hne acc Hrows; [contradiction|].
  destruct b as [|q b].
  - simpl. f_equal. unfold slice_cols. apply map_ext_in.
    intros row Hin. rewrite Forall_forall in Hrows.
    specialize (Hrows row Hin). simpl in Hrows.
    apply firstn_all2. rewrite length_skipn. lia.
  - assert (Hrec : np_concatenate1 (split_lp (acc + length p) (q :: b) Pi) =
                   Ok (map (skipn (acc + length p)) Pi)).
    { apply IH; [discriminate|].
      eapply Forall_impl; [|exact Hrows].
      intros row Hrow. simpl in *. lia. }
    change (split_lp acc (p :: q :: b) Pi)
      with (slice_cols Pi acc (length p) :: split_lp (acc + length p) (q :: b) Pi).
    remember (split_lp (acc + length p) (q :: b) Pi) as rest eqn:Hrest.
    destruct rest as [|R rest]; [simpl in Hrest; discriminate|].
    change (np_concatenate1 (slice_cols Pi acc (length p) :: R :: rest))
      with (rbind (np_concatenate1 (R :: rest))
                  (fun B => hconcat_rows (slice_cols Pi acc (length p)) B)).
    rewrite Hrec. simpl rbind. apply hconcat_slice.
Qed.

(** X19. The cuts of the plan of the LP solver (lines 269-273). When the
    matrix [Pi_lp] that the solver returns has one column per entry of the
    vectors of [b], the cuts [Pi_lp[:, acc:acc + len(p)]] tile it: there is
    one cut per vector [p] of [b], with the rows of [Pi_lp] and [len(p)]
    columns, and the cuts concatenated along the columns, as [c_lp] was
    built, are [Pi_lp] again. *)
Theorem split_lp_tiles (b : list vector) (Pi_lp : matrix) :
  b <> [] ->
  Forall (fun row => length row = list_sum (map (@length Q) b)) Pi_lp ->
  Forall2 (fun P (p : vector) =>
             length P = length Pi_lp /\
             Forall (fun row => length row = length p) P)
          (split_lp 0 b Pi_lp) b /\
  np_concatenate1 (split_lp 0 b Pi_lp) = Ok Pi_lp.
Proof.
  intros Hne Hrows. split.
  - apply split_lp_shape. exact Hrows.
  - rewrite (@split_lp_concat Pi_lp b Hne 0%nat Hrows).
    f_equal. apply map_id.
Qed.

(** *** The row of the transport matrix written by the merge loop *)

Lemma mapM_index_bounds {A} (row : list A) cols vals :
  mapM (index row) cols = Ok vals ->
  Forall (fun c => (c < length row)%nat) cols.
Proof.
  revert vals. induction cols as [|c cols IH]; intros vals H; simpl in H;
    constructor.
  - apply rbind_Ok_inv in H. destruct H as (a & Ha & _).
    apply index_Ok_inv in Ha. apply nth_error_Some. congruence.
  - apply rbind_Ok_inv in H. destruct H as (a & _ & H).
    apply rbind_Ok_inv in H. destruct H as (ys & Hys & _).
    now apply (IH ys).
Qed.

Lemma write_cols_length {A} cols :
  forall (vals row : list A), length (write_cols cols vals row) = length row.
Proof.
  unfold write_cols.
  induction cols as [|c cols IH]; intros [|v vals] row; simpl; try reflexivity.
  rewrite IH. apply set_nth_length.
Qed.

Lemma write_cols_other {A} cols i :
  ~ In i cols ->
  forall (vals row : list A),
    nth_error (write_cols cols vals row) i = nth_error row i.
Proof.
  unfold write_cols.
  induction cols as [|c cols IH]; intros Hi [|v vals] row; simpl;
    try reflexivity.
  rewrite IH by (intros Hin; apply Hi; now right).
  apply nth_error_set_nth_ne. intros ->. apply Hi. now left.
Qed.

Lemma write_cols_read {A} cols :
  NoDup cols ->
  forall (vals row : list A),
    length vals = length cols ->
    Forall (fun c => (c < length row)%nat) cols ->
    mapM (index (write_cols cols vals row)) cols = Ok vals.
Proof.
  induction 1 as [|c cols Hc Hnd IH]; intros [|v vals] row Hlen Hb;
    simpl in Hlen; try discriminate; [reflexivity|].
  inversion Hb as [|? ? Hcb Hcolsb]; subst.
  change (write_cols (c :: cols) (v :: vals) row)
    with (write_cols cols vals (set_nth c v row)).
  simpl mapM.
  assert (Hhead : index (write_cols cols vals (set_nth c v row)) c = Ok v).
  { apply index_Ok. rewrite (@write_cols_other A cols c Hc).
    now apply nth_error_set_nth_eq. }
  rewrite Hhead. simpl.
  rewrite IH; [reflexivity|lia|].
  eapply Forall_impl; [|exact Hcolsb].
  intros c' Hc'. now rewrite set_nth_length.
Qed.

Lemma bcast_length {A} n (l : list A) :
  length l = n \/ length l = 1%nat -> length (bcast n l) = n.
Proof.
  unfold bcast. destruct (Nat.eqb_spec (length l) n) as [He|Hne]; [auto|].
  intros [H|H]; [contradiction|].
  destruct l as [|x [|y l]]; simpl in H; try discriminate.
  apply repeat_length.
Qed.

Lemma assign_row_inv (P : matrix) j cols vals P' :
  NoDup cols ->
  assign_row P j cols vals = Ok P' ->
  exists row',
    index P' j = Ok row' /\
    (length vals = length cols \/ length vals = 1%nat) /\
    mapM (index row') cols = Ok (bcast (length cols) vals) /\
    (forall j', j' <> j -> index P' j' = index P j') /\
    (forall i, ~ In i cols -> mget P' j i = mget P j i).
Proof.
  intros Hnd H. unfold assign_row in H.
  apply rbind_Ok_inv in H. destruct H as (row & Hrow & H).
  apply rbind_Ok_inv in H. destruct H as (old & Hold & H).
  destruct ((length vals =? length cols)%nat || (length vals =? 1)%nat)
    eqn:Hshape; [|discriminate].
  inversion H; subst P'; clear H.
  apply orb_true_iff in Hshape. rewrite !Nat.eqb_eq in Hshape.
  pose proof (index_Ok_inv _ _ Hrow) as Hj.
  assert (Hjlt : (j < length P)%nat).
  { apply nth_error_Some. congruence. }
  fold (write_cols cols (bcast (length cols) vals) row).
  exists (write_cols cols (bcast (length cols) vals) row).
  split; [apply index_Ok; now apply nth_error_set_nth_eq|].
  split; [exact Hshape|].
  split.
  { apply write_cols_read; [exact Hnd| |].
    - now apply bcast_length.
    - eapply mapM_index_bounds. exact Hold. }
  split.
  { intros j' Hne. unfold index.
    rewrite nth_error_set_nth_ne by congruence. reflexivity. }
  intros i Hi. unfold mget.
  replace (index (set_nth j (write_cols cols (bcast (length cols) vals) row) P) j)
    with (Ok (write_cols cols (bcast (length cols) vals) row)).
  2:{ symmetry. apply index_Ok. now apply nth_error_set_nth_eq. }
  rewrite Hrow. simpl. unfold index.
  now rewrite write_cols_other.
Qed.

(** X20. The row of [Pi] that the merge loop writes (line 151). When the
    writes for the child [j] of [n], at position [j_c] among the children,
    against the candidate at position [i_m] have gone through, and the
    children [children_m] of that candidate are distinct, row [j] of [Pi]
    holds, at the columns [children_m] and in their order, row [j_c] of the
    plan [Pi_k[n][i_m]], which has one entry per child of the candidate, or
    a single entry that is then repeated; the other entries of row [j] and
    the other rows of [Pi] are as before, and [G] is touched for the first
    candidate only. *)
Theorem merge_child_row n Pi_k_n i_m children_m j_c j (s s' : store) :
  NoDup children_m ->
  merge_child n Pi_k_n i_m children_m (j_c, j) s = (Ok tt, s') ->
  exists P prow row',
    index Pi_k_n i_m = Ok P /\
    index P j_c = Ok prow /\
    (length prow = length children_m \/ length prow = 1%nat) /\
    index (sPi s') j = Ok row' /\
    mapM (index row') children_m = Ok (bcast (length children_m) prow) /\
    (forall j', j' <> j -> index (sPi s') j' = index (sPi s) j') /\
    (forall i, ~ In i children_m -> mget (sPi s') j i = mget (sPi s) j i) /\
    (i_m <> 0%nat -> sG s' = sG s).
Proof.
  intros Hnd H. unfold merge_child in H. simpl fst in H. simpl snd in H.
  apply bind_Ok_inv in H. destruct H as (P & s1 & HP & H).
  apply lift_Ok_inv in HP. destruct HP as [HP ->].
  apply bind_Ok_inv in H. destruct H as (prow & s1 & Hprow & H).
  apply lift_Ok_inv in Hprow. destruct Hprow as [Hprow ->].
  apply bind_Ok_inv in H. destruct H as (Pi & s1 & HPi & H).
  unfold get_Pi in HPi. inversion HPi; subst Pi s1; clear HPi.
  apply bind_Ok_inv in H. destruct H as (Pi' & s1 & HPi' & H).
  apply lift_Ok_inv in HPi'. destruct HPi' as [HPi' ->].
  apply bind_Ok_inv in H. destruct H as (u & s1 & Hput & H).
  unfold put_Pi in Hput. inversion Hput; subst s1; clear Hput.
  destruct (assign_row_inv _ _ _ Hnd HPi')
    as (row' & Hrow' & Hshape & Hread & Hrows & Hcells).
  assert (HPi_s' : sPi s' = Pi' /\ (i_m <> 0%nat -> sG s' = sG s)).
  { destruct (Nat.eqb_spec i_m 0) as [Hz|Hnz].
    - apply bind_Ok_inv in H. destruct H as (Pi2 & s1 & HPi2 & H).
      unfold get_Pi in HPi2. inversion HPi2; subst Pi2 s1; clear HPi2.
      apply bind_Ok_inv in H. destruct H as (r & s1 & Hr & H).
      apply lift_Ok_inv in Hr. destruct Hr as [_ ->].
      apply bind_Ok_inv in H. destruct H as (vals & s1 & Hvals & H).
      apply lift_Ok_inv in Hvals. destruct Hvals as [_ ->].
      apply bind_Ok_inv in H. destruct H as (G1 & s1 & HG1 & H).
      apply get_G_inv in HG1. destruct HG1 as [-> ->].
      apply bind_Ok_inv in H. destruct H as (u1 & s1 & Hput & H).
      unfold put_G in Hput. inversion Hput; subst s1; clear Hput.
      apply bind_Ok_inv in H. destruct H as (G2 & s1 & HG2 & H).
      apply get_G_inv in HG2. destruct HG2 as [-> ->].
      apply bind_Ok_inv in H. destruct H as (w & s1 & Hw & H).
      apply lift_Ok_inv in Hw. destruct Hw as [_ ->].
      unfold put_G in H. inversion H; subst s'; clear H. simpl.
      split; [reflexivity | intros Hc; contradiction].
    - apply ret_inv in H. destruct H as [_ ->]. simpl.
      split; [reflexivity | intros _; reflexivity]. }
  destruct HPi_s' as [HPi_s' HG].
  exists P, prow, row'. rewrite HPi_s'.
  repeat (split; [assumption|]). exact HG.
Qed.

End PlanFacts.

(** ** The further properties on the test inputs *)

Section MoreWitnesses.

Import Examples MoreExamples.

Local Open Scope Q_scope.

Lemma loop_subtree_n_ancestors_witness :
  exists o s',
    run_deep = (Ok o, s') /\
    ((0 < 1)%Z ->
     (exists p, index (predecessors H_deep 1) 0 = Ok p /\ out_ancestor_n o = [p]) /\
     Forall2 (fun m a => index (predecessors H_deep m) 0 = Ok a)
             [1; 2]%nat (out_ancestor_m o)).
Proof.
  eexists. eexists. split; [vm_compute; reflexivity|].
  refine (proj1 (@loop_subtree_n_ancestors E_even 1 [3; 4]%nat [3; 4]%nat
                   [1; 2]%nat "LP"%string 25 1000 (1 # 1000) 1%Z 1%nat
                   s_deep _ _ _)).
  vm_compute. reflexivity.
Defined.

Lemma loop_subtree_n_distances_witness :
  exists o s',
    run_two "LP" = (Ok o, s') /\
    length (out_D_ij_t o) = 1%nat.
Proof.
  eexists. eexists. split; [vm_compute; reflexivity|].
  refine (proj1 (@loop_subtree_n_distances E_even 0 [1; 2]%nat [1; 2]%nat
                   [0]%nat "LP"%string 25 1000 (1 # 1000) 1%Z 0%nat
                   s_two_even _ _ _)).
  vm_compute. reflexivity.
Defined.

Lemma loop_subtree_n_dispatch_witness :
  exists o s',
    run_two "MAM" = (Ok o, s') /\
    exists call, sCalls s' = sCalls s_two_even ++ [call].
Proof.
  eexists. eexists. split; [vm_compute; reflexivity|].
  destruct (@loop_subtree_n_dispatch E_even 0 [1; 2]%nat [1; 2]%nat
              [0]%nat "MAM"%string 25 1000 (1 # 1000) 1%Z 0%nat
              s_two_even _ _ ltac:(simpl; lia) ltac:(vm_compute; reflexivity))
    as (b & c & P0 & call & Hcalls & _).
  exists call. exact Hcalls.
Defined.

Lemma loop_subtree_n_unknown_method_witness :
  run_two "XX" = (Raise UnboundLocalError, s_two_even).
Proof.
  refine (@loop_subtree_n_unknown_method E_even 0 [1; 2]%nat [1; 2]%nat
            [0]%nat "XX"%string 25 1000 (1 # 1000) 1%Z 0%nat
            s_two_even s_two_even _ _ _ _).
  - reflexivity.
  - simpl. lia.
  - vm_compute. reflexivity.
Defined.


Lemma leaf_distances_result_witness :
  exists nodesG nodesH D,
    leaf_distances two_chains two_values two_chains two_values =
      Ok (nodesG, nodesH, D) /\
    length nodesG = 2%nat /\ length D = 2%nat /\ nonneg D /\
    length nodesH = 2%nat.
Proof.
  eexists. eexists. eexists. split; [vm_compute; reflexivity|].
  destruct (@leaf_distances_result two_chains two_values two_chains two_values
              _ _ _ eq_refl)
    as (HG & _ & HD & _ & _ & Hnn & _ & HH).
  split; [exact HG|]. split; [exact HD|]. split; [exact Hnn|].
  apply HH. discriminate.
Defined.

Lemma leaf_distances_length_mismatch_witness :
  leaf_distances [[0; 1]]%nat [[0; 1]] [[0; 1; 3]]%nat [[0; 1; 3]] =
  Raise ValueError.
Proof.
  apply leaf_distances_length_mismatch; simpl; try discriminate; lia.
Defined.

Lemma reduction_tree_distance_nonneg_witness :
  exists r s', reduce "LP" G_two H_even = (Ok r, s') /\ 0 <= r_distance r.
Proof.
  eexists. eexists. split; [vm_compute; reflexivity|].
  refine (@reduction_tree_distance_nonneg E_even 1000 "LP"%string 25 1%Z
            (s_call G_two H_even) _ _ _).
  vm_compute. reflexivity.
Defined.


Lemma reduction_tree_counts_witness :
  exists r s',
    reduce "MAM" H_deep H_deep = (Ok r, s') /\
    length (r_nb_n r) = 2%nat /\ length (r_nb_m r) = 2%nat.
Proof.
  eexists. eexists. split; [vm_compute; reflexivity|].
  refine (@reduction_tree_counts E_even 1000 "MAM"%string 25 1%Z
            (s_call H_deep H_deep) _ _ _).
  vm_compute. reflexivity.
Defined.


Lemma reduction_tree_without_stage_witness :
  exists r s',
    reduce "LP" G_leaf G_leaf = (Ok r, s') /\ sG s' = G_leaf.
Proof.
  eexists. eexists. split; [vm_compute; reflexivity|].
  refine (proj1 (@reduction_tree_without_stage E_even 1000 "LP"%string 25 1%Z
                   (s_call G_leaf G_leaf) _ _ _ _)).
  - vm_compute. discriminate.
  - vm_compute. reflexivity.
Defined.

Lemma split_lp_tiles_witness :
  np_concatenate1 (split_lp 0 lp_weights lp_plan) = Ok lp_plan.
Proof.
  refine (proj2 (@split_lp_tiles lp_weights lp_plan _ _)).
  - discriminate.
  - repeat constructor.
Defined.

Lemma merge_child_row_witness :
  exists s' prow row',
    merge_first = (Ok tt, s') /\
    index (sPi s') 1 = Ok row' /\
    mapM (index row') [1; 2]%nat = Ok (bcast 2 prow).
Proof.
  eexists.
  assert (Hrun : merge_first = (Ok tt, snd merge_first)).
  { vm_compute. reflexivity. }
  assert (Hnd : NoDup [1; 2]%nat).
  { repeat constructor; simpl; intuition discriminate. }
  destruct (@merge_child_row E_even 0%nat [[[1 # 4; 1 # 4]; [1 # 4; 1 # 4]]]
              0%nat [1; 2]%nat 0%nat 1%nat s_two_even _ Hnd Hrun)
    as (P & prow & row' & _ & _ & _ & Hrow & Hread & _).
  exists prow, row'. split; [exact Hrun|]. split; [exact Hrow | exact Hread].
Defined.

End MoreWitnesses.

(** ** The mass of the returned plans *)

Section PlanMass.

Context {E : Externals}.

Local Open Scope Q_scope.

Lemma np_sum_empty (P : matrix) : concat P = [] -> np_sum P == 0.
Proof. intros H. rewrite np_sum_concat, H. reflexivity. Qed.

(** C5 (as amended). When [_loop_subtree_n] returns with a positive
    [epsilon], the plan returned for each candidate [m] is the plan [P0]
    that line 230 or the solver gave for [m], clipped and divided by its
    total. It has total mass one when [P0] has an entry at all; when [P0]
    has none, it has none either and its mass is zero. For a node [n] with
    exactly one child, [P0] has an entry exactly when [m] has a child. *)
Theorem stabilized_plan_mass_children t nodesG nodesH list_m method
    lambda_IBP rho epsilon pool_sizeMAM n (s s' : store) (o : output) :
  0 < epsilon ->
  _loop_subtree_n t nodesG nodesH list_m method lambda_IBP rho epsilon
    pool_sizeMAM n s = (Ok o, s') ->
  forall i_m m, nth_error list_m i_m = Some m ->
  exists la Pk P0,
    collect t nodesG nodesH list_m n s = (Ok la, s) /\
    solve method lambda_IBP rho pool_sizeMAM (successors (sG s) n)
          (l_b (fst la)) (l_c (fst la)) s = (Ok (Some Pk), s') /\
    nth_error Pk i_m = Some P0 /\
    nth_error (out_Pi_k o) i_m = Some (stabilize epsilon P0) /\
    (concat P0 <> [] -> np_sum (stabilize epsilon P0) == 1) /\
    (concat P0 = [] ->
     concat (stabilize epsilon P0) = [] /\
     np_sum (stabilize epsilon P0) == 0) /\
    (length (successors (sG s) n) = 1%nat ->
     (concat P0 <> [] <-> successors (sH s) m <> [])).
Proof.
  intros Heps Hrun i_m m Hm.
  apply loop_subtree_n_Ok_inv in Hrun.
  destruct Hrun as (la & Pk & Hcollect & Hsolve & _ & Hplans).
  assert (Hi : (i_m < length list_m)%nat) by (apply nth_error_Some; congruence).
  destruct (Hplans i_m Hi) as (P0 & HP0 & HP).
  exists la, Pk, P0.
  split; [exact Hcollect|]. split; [exact Hsolve|].
  split; [exact HP0|]. split; [exact HP|].
  split; [now apply stabilize_total|].
  split.
  { intros Hnil.
    assert (Hs : concat (stabilize epsilon P0) = [])
      by now apply stabilize_nonempty.
    split; [exact Hs | now apply np_sum_empty]. }
  intros Hone.
  unfold solve in Hsolve. rewrite Hone, Nat.eqb_refl in Hsolve.
  apply ret_inv in Hsolve. destruct Hsolve as [HPk _].
  inversion HPk; subst Pk; clear HPk.
  apply collect_b in Hcollect. destruct Hcollect as [_ Hb].
  destruct (Forall2_nth_error_l _ Hb Hm) as (b_m & Hbm & Hw).
  unfold vector, matrix in *.
  rewrite nth_error_map, Hbm in HP0. simpl in HP0.
  inversion HP0; subst P0; clear HP0.
  apply mapM_length in Hw.
  unfold expand_dims0. simpl. rewrite app_nil_r.
  split; intros H Hnil; apply H.
  - rewrite Hnil in Hw. simpl in Hw. now destruct b_m.
  - subst b_m. simpl in Hw. now destruct (successors (sH s) m).
Qed.

End PlanMass.

(** ** The shape of [Pi] along a run *)

Section PiShape.

Context {E : Externals}.

Local Open Scope Q_scope.

Lemma wp_any_intro {A} (m : M A) s (Q : A -> store -> Prop) :
  (forall a s', m s = (Ok a, s') -> Q a s') -> wp m s Q any_exn.
Proof. intros H. apply wp_intro; [exact H|]. intros e s' _. exact I. Qed.

Lemma wp_any_elim {A} (m : M A) s (Q : A -> store -> Prop) a s' :
  wp m s Q any_exn -> m s = (Ok a, s') -> Q a s'.
Proof. unfold wp. intros H Hrun. now rewrite Hrun in H. Qed.

Lemma wp_any_lift {A} (r : res A) s (Q : A -> store -> Prop) :
  (forall a, r = Ok a -> Q a s) -> wp (lift r) s Q any_exn.
Proof. unfold wp, lift, any_exn. destruct r; auto. Qed.

Lemma shape_set_nth (P : matrix) j row row' :
  nth_error P j = Some row -> length row' = length row ->
  shape (set_nth j row' P) = shape P.
Proof.
  revert j. induction P as [|r P IH]; intros [|j] Hj Hlen; simpl in *;
    try discriminate.
  - inversion Hj; subst r. now rewrite Hlen.
  - f_equal. now apply IH.
Qed.

Lemma mset_shape P j i v P' : mset P j i v = Ok P' -> shape P' = shape P.
Proof.
  unfold mset. intros H.
  apply rbind_Ok_inv in H. destruct H as (row & Hrow & H).
  apply rbind_Ok_inv in H. destruct H as (x & _ & H).
  inversion H; subst P'. apply index_Ok_inv in Hrow.
  eapply shape_set_nth; [exact Hrow | apply set_nth_length].
Qed.

Lemma assign_row_shape P j cols vals P' :
  assign_row P j cols vals = Ok P' -> shape P' = shape P.
Proof.
  unfold assign_row. intros H.
  apply rbind_Ok_inv in H. destruct H as (row & Hrow & H).
  apply rbind_Ok_inv in H. destruct H as (old & _ & H).
  destruct ((length vals =? length cols)%nat || (length vals =? 1)%nat);
    [|discriminate].
  inversion H; subst P'. apply index_Ok_inv in Hrow.
  eapply shape_set_nth; [exact Hrow|].
  apply (write_cols_length cols (bcast (length cols) vals) row).
Qed.

Lemma mget_defined_shape P P' j i :
  shape P' = shape P ->
  (exists v, mget P j i = Ok v) -> exists v', mget P' j i = Ok v'.
Proof.
  intros Hs (v & Hv). unfold mget in *.
  apply rbind_Ok_inv in Hv. destruct Hv as (row & Hrow & Hv).
  apply index_Ok_inv in Hrow. apply index_Ok_inv in Hv.
  assert (Hlen : nth_error (shape P') j = Some (length row)).
  { rewrite Hs. unfold shape. now rewrite nth_error_map, Hrow. }
  unfold shape in Hlen. rewrite nth_error_map in Hlen.
  destruct (nth_error P' j) as [row'|] eqn:Hrow'; [|discriminate].
  simpl in Hlen. inversion Hlen as [Hl].
  rewrite (index_Ok _ _ Hrow'). simpl.
  destruct (nth_error row' i) as [v'|] eqn:Hv'.
  - exists v'. now apply index_Ok.
  - apply nth_error_None in Hv'.
    assert (i < length row)%nat by (apply nth_error_Some; congruence). lia.
Qed.

Lemma covers_shape P P' G H G' H' :
  shape P' = shape P -> nodes G' = nodes G -> nodes H' = nodes H ->
  covers P G H = true -> covers P' G' H' = true.
Proof.
  intros Hs HG HH Hc. unfold covers. rewrite HG, HH.
  apply forallb_forall. intros j Hj. apply forallb_forall. intros i Hi.
  destruct (@mget_defined_shape P P' j i Hs) as (v' & Hv').
  { apply (covers_spec _ _ _ Hc); simpl in Hj, Hi; intuition. }
  now rewrite Hv'.
Qed.

Lemma covers_zeros P G H :
  shape P = shape (np_zeros (length (nodes G)) (length (nodes H))) ->
  compact G = true -> compact H = true -> covers P G H = true.
Proof.
  intros Hs HcG HcH. unfold covers.
  apply forallb_forall. intros j Hj. apply forallb_forall. intros i Hi.
  destruct (@mget_defined_shape
              (np_zeros (length (nodes G)) (length (nodes H))) P j i Hs)
    as (v' & Hv').
  { exists 0. apply mget_np_zeros.
    - destruct Hj as [<-|Hj]; [now apply compact_root | now apply compact_bound].
    - destruct Hi as [<-|Hi]; [now apply compact_root | now apply compact_bound]. }
  now rewrite Hv'.
Qed.

(** *** The seeding *)

Lemma write_Pi_shape j i v s :
  wp (write_Pi j i v) s (fun _ s' => shape (sPi s') = shape (sPi s)) any_exn.
Proof.
  apply wp_any_intro. intros u s' H. unfold write_Pi in H.
  destruct (mset (sPi s) j i v) as [P'|e] eqn:HP'; [|discriminate].
  unfold put_Pi in H. inversion H; subst s'. simpl.
  now apply mset_shape with (j := j) (i := i) (v := v).
Qed.

Lemma seed_pair_shape P0 t n acc m s :
  shape (sPi s) = P0 ->
  wp (seed_pair t n acc m) s (fun _ s' => shape (sPi s') = P0) any_exn.
Proof.
  intros Hs. unfold seed_pair. wp_get. wp_get. apply wp_bind.
  apply wp_mono with (Q := fun (_ : unit) s' => shape (sPi s') = P0)
                     (X := any_exn).
  - apply (@wp_forM _ _ (fun _ s' => shape (sPi s') = P0)); [|exact Hs].
    intros done i rest s1 _ Hs1.
    apply (@wp_forM _ _ (fun _ s' => shape (sPi s') = P0)); [|exact Hs1].
    intros done' j rest' s2 _ Hs2.
    apply wp_bind, wp_any_lift. intros w _. cbv beta.
    eapply wp_mono; [apply write_Pi_shape| |auto].
    intros u s3 H3. cbv beta in H3. congruence.
  - intros u s1 Hs1. cbv beta. destruct (0 <? t)%Z.
    + apply wp_bind, wp_any_lift. intros pn _. cbv beta.
      apply wp_bind, wp_any_lift. intros pm _. cbv beta.
      apply wp_ret. exact Hs1.
    + apply wp_ret. exact Hs1.
  - auto.
Qed.

Lemma seed_stage_shape P0 acc t s :
  shape (sPi s) = P0 ->
  wp (seed_stage acc t) s (fun _ s' => shape (sPi s') = P0) any_exn.
Proof.
  intros Hs. unfold seed_stage.
  eapply wp_mono.
  { apply (@wp_foldM _ _ _ (fun _ (_ : list nat * list nat) s' =>
                              shape (sPi s') = P0) any_exn); [|exact Hs].
    intros done n rest a s1 _ Hs1.
    eapply wp_mono.
    { apply (@wp_foldM _ _ _ (fun _ (_ : list nat * list nat) s' =>
                                shape (sPi s') = P0) any_exn); [|exact Hs1].
      intros done' m rest' a' s2 _ Hs2. now apply seed_pair_shape. }
    - intros a' s2 H2. exact H2.
    - auto. }
  - intros a s1 H1. exact H1.
  - auto.
Qed.

Lemma seed_Pi_shape N1 N2 s :
  wp (seed_Pi N1 N2) s
     (fun _ s' => shape (sPi s') = shape (np_zeros N1 N2)) any_exn.
Proof.
  unfold seed_Pi. wp_get. wp_get. wp_put.
  apply wp_bind.
  eapply wp_mono; [apply write_Pi_shape| |auto].
  intros u s1 Hs1. cbv beta in Hs1. simpl in Hs1.
  apply wp_bind, wp_any_lift. intros T _. cbv beta.
  apply wp_bind.
  eapply wp_mono.
  { apply (@wp_foldM _ _ _ (fun _ (_ : list nat * list nat) s' =>
                              shape (sPi s') = shape (np_zeros N1 N2))
             any_exn); [|exact Hs1].
    intros done t rest a s2 _ Hs2. now apply seed_stage_shape. }
  - intros a s2 Hs2. apply wp_ret. exact Hs2.
  - auto.
Qed.

(** *** The backward pass *)

Lemma merge_child_shape P0 n Pi_k_n i_m children_m jc_j s :
  shape (sPi s) = P0 ->
  wp (merge_child n Pi_k_n i_m children_m jc_j) s
     (fun _ s' => shape (sPi s') = P0) any_exn.
Proof.
  intros Hs. unfold merge_child.
  apply wp_bind, wp_any_lift. intros P _. cbv beta.
  apply wp_bind, wp_any_lift. intros row _. cbv beta.
  wp_get.
  apply wp_bind, wp_any_lift. intros Pi' HPi'. cbv beta.
  apply assign_row_shape in HPi'.
  wp_put.
  destruct (i_m =? 0)%nat; [|apply wp_ret; simpl; congruence].
  wp_get.
  apply wp_bind, wp_any_lift. intros r _. cbv beta.
  apply wp_bind, wp_any_lift. intros vals _. cbv beta.
  wp_get. wp_put. wp_get.
  apply wp_bind, wp_any_lift. intros w _. cbv beta.
  apply wp_put_G. simpl. congruence.
Qed.

Lemma merge_node_shape P0 outputs list_m acc in_n s :
  shape (sPi s) = P0 ->
  wp (merge_node outputs list_m acc in_n) s
     (fun _ s' => shape (sPi s') = P0) any_exn.
Proof.
  intros Hs. unfold merge_node.
  apply wp_bind, wp_any_lift. intros o _. cbv beta.
  wp_get. wp_get. apply wp_bind.
  apply wp_mono with (Q := fun (_ : unit) s' => shape (sPi s') = P0)
                     (X := any_exn).
  - apply (@wp_forM _ _ (fun _ s' => shape (sPi s') = P0)); [|exact Hs].
    intros done im_m rest s1 _ Hs1.
    apply (@wp_forM _ _ (fun _ s' => shape (sPi s') = P0)); [|exact Hs1].
    intros done' jc_j rest' s2 _ Hs2. now apply merge_child_shape.
  - intros u s1 Hs1. apply wp_ret. exact Hs1.
  - auto.
Qed.

Lemma backward_stage_Pi_shape P0 method lambda_IBP rho epsilon pool_size rank
    pool_sizeMAM f t s :
  shape (sPi s) = P0 ->
  wp (backward_stage method lambda_IBP rho epsilon pool_size rank
        pool_sizeMAM f t) s
     (fun _ s' => shape (sPi s') = P0) any_exn.
Proof.
  intros Hs. unfold backward_stage.
  apply wp_bind, wp_any_lift. intros sw _. cbv beta.
  apply wp_bind, wp_any_lift. intros works _. cbv beta.
  apply wp_bind.
  eapply wp_mono.
  { apply (@wp_foldM _ _ _ (fun _ (_ : list (nat * output)) s' =>
                              shape (sPi s') = P0) any_exn); [|exact Hs].
    intros done w rest outs s1 _ Hs1.
    apply wp_bind, wp_any_lift. intros n _. cbv beta.
    apply wp_bind. apply wp_any_intro. intros o s2 Hrun.
    apply wp_ret.
    pose proof (loop_subtree_n_read_only t (f_nodesG f) (f_nodesH f)
                  (py_set (f_ancestor_m f)) method lambda_IBP rho epsilon
                  pool_sizeMAM n s1) as Hfr.
    rewrite Hrun in Hfr. simpl in Hfr. unfold frame in Hfr.
    inversion Hfr as [[HG HH HP HD]]. congruence. }
  - intros outs s1 Hs1. cbv beta.
    apply wp_bind.
    eapply wp_mono.
    { apply (@wp_foldM _ _ _ (fun _ (_ : merged) s' => shape (sPi s') = P0)
               any_exn); [|exact Hs1].
      intros done in_n rest acc s2 _ Hs2. now apply merge_node_shape. }
    + intros mg s2 Hs2. cbv beta. wp_put. apply wp_ret. exact Hs2.
    + auto.
  - auto.
Qed.

End PiShape.

(** ** The phases of the driver *)

Section DriverPhases.

Context {E : Externals}.

Local Open Scope Q_scope.

(** [reduction_tree] is its check of [method], the initialisation of [Pi]
    and then [after_init]: the trees that it reads before the
    initialisation are the ones that the later phases find in the store. *)
Lemma reduction_tree_phases rho method lambda_IBP npool (s : store) :
  supported method = true ->
  reduction_tree rho method lambda_IBP npool s =
  bind init_Pi (fun _ => after_init rho method lambda_IBP) s.
Proof.
  intros Hsup. unfold reduction_tree. rewrite Hsup.
  change (negb true) with false. cbv iota.
  rewrite (@bind_run _ _ get_G _ s (sG s) s eq_refl).
  rewrite (@bind_run _ _ get_H _ s (sH s) s eq_refl).
  pose proof (init_Pi_wp s) as Hwp. unfold wp in Hwp.
  destruct (init_Pi s) as [[u|e] s1] eqn:Hinit.
  2:{ now rewrite !(@bind_raise _ _ init_Pi _ s e s1 Hinit). }
  rewrite !(@bind_run _ _ init_Pi _ s u s1 Hinit).
  destruct Hwp as (HG & HH & _ & _).
  unfold after_init, backward_pass, rebuild_and_return.
  rewrite <- HG, <- HH.
  unfold bind, get_G, get_H, lift, put_D, ret. cbv beta iota.
  destruct (find_process_data (sG s1)) as [[[ai wi] pi_] T].
  destruct (find_process_data (sH s1)) as [[[aj wj] pj] T'].
  destruct (leaf_distances ai wi aj wj) as [[[nodesG nodesH] D]|e];
    [|reflexivity].
  match goal with
  | |- context [foldM ?f ?l ?a ?s0] =>
      destruct (foldM f l a s0) as [[f'|e] s2]
  end; reflexivity.
Qed.

(** *** Trees that differ in their weights only *)

Lemma predecessors_endpoints g n :
  predecessors g n =
  map fst (filter (fun p => (snd p =? n)%nat) (map fst (edges g))).
Proof.
  unfold predecessors.
  induction (edges g) as [|[[a b] w] l IH]; simpl; [reflexivity|].
  unfold dst at 1. simpl. destruct (b =? n)%nat; simpl; now rewrite IH.
Qed.

Lemma weights_only_predecessors g g' n :
  weights_only g g' -> predecessors g' n = predecessors g n.
Proof.
  intros (_ & _ & He). now rewrite !predecessors_endpoints, He.
Qed.

Lemma weights_only_nodes_at g g' t :
  weights_only g g' -> nodes_at g' t = nodes_at g t.
Proof. intros (Hn & Hs & _). unfold nodes_at. now rewrite Hn, Hs. Qed.

Lemma forallb_endpoints (f : nat * nat -> bool) (l : list (nat * nat * Q)) :
  forallb (fun e => f (fst e)) l = forallb f (map fst l).
Proof. induction l as [|e l IH]; simpl; [reflexivity | now rewrite IH]. Qed.

Lemma forallb_pointwise {A} (f f' : A -> bool) l :
  (forall x, f x = f' x) -> forallb f l = forallb f' l.
Proof.
  intros Hf. induction l as [|x l IH]; simpl; [reflexivity|].
  now rewrite Hf, IH.
Qed.

Lemma weights_only_wf_tree g g' :
  weights_only g g' -> wf_tree g' = wf_tree g.
Proof.
  intros Hw. pose proof Hw as (Hn & Hs & He). unfold wf_tree.
  rewrite Hn, Hs. f_equal; [f_equal|].
  - apply forallb_pointwise. intros j. unfold is_root, has_parent.
    now rewrite (weights_only_predecessors j Hw), Hn, Hs.
  - unfold src, dst.
    rewrite (forallb_endpoints
               (fun p => existsb (Nat.eqb (fst p)) (nodes g)
                         && existsb (Nat.eqb (snd p)) (nodes g)) (edges g')).
    rewrite (forallb_endpoints
               (fun p => existsb (Nat.eqb (fst p)) (nodes g)
                         && existsb (Nat.eqb (snd p)) (nodes g)) (edges g)).
    now rewrite He.
Qed.

Lemma weights_only_chain_product G G' H Pi depth :
  weights_only G G' ->
  forall j i, chain_product G' H Pi depth j i = chain_product G H Pi depth j i.
Proof.
  intros Hw. induction depth as [|d IH]; intros j i; simpl; [reflexivity|].
  rewrite (weights_only_predecessors j Hw).
  destruct (predecessors G j) as [|n l]; [reflexivity|].
  destruct (predecessors H i) as [|m l']; [reflexivity|].
  now rewrite IH.
Qed.

(** *** The backward pass as a whole *)

Lemma backward_pass_inv rho method lambda_IBP s T f sb :
  backward_pass rho method lambda_IBP s = (Ok (T, f), sb) ->
  T = snd (find_process_data (sG s)) /\
  shape (sPi sb) = shape (sPi s).
Proof.
  unfold backward_pass. intros H.
  apply bind_Ok_inv in H. destruct H as (G & s1 & HG & H).
  apply get_G_inv in HG. destruct HG as [-> ->].
  apply bind_Ok_inv in H. destruct H as (H0 & s1 & HH & H).
  apply get_H_inv in HH. destruct HH as [-> ->].
  destruct (find_process_data (sG s)) as [[[ai wi] pi_] T0].
  destruct (find_process_data (sH s)) as [[[aj wj] pj] T'].
  apply bind_Ok_inv in H.
  destruct H as ([[nodesG nodesH] D] & s2 & Hleaf & H).
  apply lift_Ok_inv in Hleaf. destruct Hleaf as [_ ->].
  apply bind_Ok_inv in H. destruct H as (u1 & s3 & Hput & H).
  unfold put_D in Hput. inversion Hput; subst s3; clear Hput.
  apply bind_Ok_inv in H. destruct H as (f0 & s4 & Hf & H).
  apply ret_inv in H. destruct H as [Heq ->]. inversion Heq; subst T f.
  split; [reflexivity|].
  refine (@wp_any_elim _ _ _
            (fun (_ : frontier) s' => shape (sPi s') = shape (sPi s))
            _ _ _ Hf).
  apply (@wp_foldM _ _ _
           (fun _ (_ : frontier) s' => shape (sPi s') = shape (sPi s))
           any_exn); [|reflexivity].
  intros done t rest f s3 _ Hs3. now apply backward_stage_Pi_shape.
Qed.


(** C3. When a call of [reduction_tree] returns, on well-formed trees
    whose nodes are numbered from 0 and index [Pi] (a supplied [Pi] that is
    not replaced by the seed has an entry for every pair of nodes), the
    [Pi] it leaves has [Pi[0, 0] = 1] and holds, for every pair of nodes
    [j] of [G] and [i] of [H] at the same stage [t] between 1 and the
    horizon [T] that [find_process_data] reports for [G], the product along
    the ancestor chain of the pair of the entries that [Pi] held when the
    backward pass ended. The statement is for every method and whatever
    the solvers return. *)
Theorem reduction_tree_chain_product rho method lambda_IBP npool
    (s s' : store) (r : result) :
  wf_tree (sG s) = true -> wf_tree (sH s) = true ->
  compact (sG s) = true -> compact (sH s) = true ->
  (~ np_sum_f64 (concat (sPi s)) == 0 ->
   covers (sPi s) (sG s) (sH s) = true) ->
  reduction_tree rho method lambda_IBP npool s = (Ok r, s') ->
  exists s1 f sb,
    init_Pi s = (Ok tt, s1) /\
    backward_pass rho method lambda_IBP s1 =
      (Ok (snd (find_process_data (sG s)), f), sb) /\
    mget (sPi s') 0 0 = Ok 1 /\
    forall t j i,
      (1 <= t <= snd (find_process_data (sG s)))%Z ->
      In j (nodes_at (sG s) t) -> In i (nodes_at (sH s) t) ->
      mget (sPi s') j i =
      Ok (chain_product (sG s) (sH s) (sPi sb) (Z.to_nat t) j i).
Proof.
  intros HwfG HwfH HcG HcH Hcov Hrun.
  assert (Hsup : supported method = true).
  { destruct (supported method) eqn:Hs; [reflexivity|].
    unfold reduction_tree in Hrun. rewrite Hs in Hrun. discriminate. }
  pose proof (reduction_tree_wp rho method lambda_IBP npool s) as Hwp.
  unfold wp in Hwp. rewrite Hrun in Hwp. destruct Hwp as [[HHs' HGs'] _].
  rewrite reduction_tree_phases in Hrun by exact Hsup.
  apply bind_Ok_inv in Hrun. destruct Hrun as ([] & s1 & Hinit & Hrun).
  unfold after_init in Hrun.
  apply bind_Ok_inv in Hrun. destruct Hrun as ([T f] & sb & Hback & Hrun).
  simpl fst in Hrun. simpl snd in Hrun.
  pose proof (init_Pi_wp s) as Hwp. unfold wp in Hwp. rewrite Hinit in Hwp.
  destruct Hwp as (HG1 & HH1 & _ & _).
  destruct (@backward_pass_inv rho method lambda_IBP s1 T f sb Hback)
    as [HT Hshape].
  rewrite HG1 in HT. subst T.
  set (T := snd (find_process_data (sG s))) in *.
  unfold rebuild_and_return in Hrun.
  apply bind_Ok_inv in Hrun. destruct Hrun as (u & s2 & Hreb & Hrun).
  apply bind_Ok_inv in Hrun. destruct Hrun as (D & s3 & HD & Hrun).
  unfold get_D in HD. inversion HD; subst D s3; clear HD.
  apply bind_Ok_inv in Hrun. destruct Hrun as (d & s3 & Hd & Hrun).
  apply lift_Ok_inv in Hd. destruct Hd as [_ ->].
  apply ret_inv in Hrun. destruct Hrun as [_ ->].
  pose proof (rebuild_wp T sb) as Hwp. unfold wp in Hwp. rewrite Hreb in Hwp.
  destruct Hwp as (HGb & HHb & _ & _).
  assert (HH : sH sb = sH s) by congruence.
  assert (HG : weights_only (sG s) (sG sb)) by now rewrite <- HGb.
  assert (HcovB : covers (sPi sb) (sG sb) (sH sb) = true).
  { destruct HG as (Hn & _ & _).
    destruct (Qeq_dec (np_sum_f64 (concat (sPi s))) 0) as [Hz|Hnz].
    - rewrite init_Pi_zero_sum in Hinit by exact Hz.
      pose proof (@wp_any_elim _ _ _
                    (fun (_ : unit) s' =>
                       shape (sPi s') =
                       shape (np_zeros (length (nodes (sG s)))
                                       (length (nodes (sH s)))))
                    _ _ (seed_Pi_shape _ _ s) Hinit) as Hseed.
      cbv beta in Hseed.
      apply (@covers_shape (sPi sb) (sPi sb) (sG s) (sH s));
        [reflexivity | exact Hn | now rewrite HH |].
      apply covers_zeros; [congruence | exact HcG | exact HcH].
    - rewrite init_Pi_nonzero_sum in Hinit by exact Hnz.
      inversion Hinit; subst s1.
      apply (@covers_shape (sPi s) (sPi sb) (sG s) (sH s));
        [exact Hshape | exact Hn | now rewrite HH | now apply Hcov]. }
  destruct (@rebuild_chain_product T sb)
    as (s3 & Hreb3 & _ & _ & _ & _ & Hroot & Hchain).
  { now rewrite (weights_only_wf_tree HG). }
  { now rewrite HH. }
  { exact HcovB. }
  rewrite Hreb in Hreb3. inversion Hreb3; subst s3; clear Hreb3.
  exists s1, f, sb.
  split; [exact Hinit|]. split; [exact Hback|]. split; [exact Hroot|].
  intros t j i Ht Hj Hi.
  rewrite (Hchain t j i Ht).
  - rewrite HH. now rewrite (weights_only_chain_product (sH s) (sPi sb)
                               (Z.to_nat t) HG).
  - now rewrite (weights_only_nodes_at t HG).
  - now rewrite HH.
Qed.

End DriverPhases.

(** ** The phases on the test inputs, and sums in double precision *)

Section PhaseExamples.

Import Examples MoreExamples RoundingExamples.

Local Open Scope Q_scope.


(** In double precision 1e16 + 1 is 1e16: the entries of [Pi_absorbed] sum
    to 1, [np.sum] gives 0, and the matrix is replaced by the seed, as a
    matrix of zeros is. A matrix with the entries 1 and -1 is replaced too,
    and one whose computed sum is 1 is kept. *)
Example init_Pi_absorbed_sum :
  np_sum Pi_absorbed == 1 /\
  @init_Pi E_f64 (mkStore G_two H_even Pi_absorbed [] []) =
  (Ok tt,
   mkStore G_two H_even
           [[1; 0; 0]; [0; 1 # 4; 1 # 4]; [0; 1 # 4; 1 # 4]] [] []) /\
  @reduction_tree E_f64 1000 "LP" 25 1 (mkStore G_two H_even Pi_absorbed [] []) =
  @reduction_tree E_f64 1000 "LP" 25 1 (s_call G_two H_even).
Proof. vm_compute. repeat split; reflexivity. Qed.

Example init_Pi_f64_cancelling_entries :
  @init_Pi E_f64 (mkStore G_two H_even [[1; -1 # 1]; [0; 0]] [] []) =
  (Ok tt,
   mkStore G_two H_even
           [[1; 0; 0]; [0; 1 # 4; 1 # 4]; [0; 1 # 4; 1 # 4]] [] []).
Proof. vm_compute. reflexivity. Qed.

Example init_Pi_f64_keeps_nonzero_sum :
  @init_Pi E_f64 (mkStore G_two H_even [[1; 0]; [0; 0]] [] []) =
  (Ok tt, mkStore G_two H_even [[1; 0]; [0; 0]] [] []).
Proof. vm_compute. reflexivity. Qed.

(** In double precision 0.0025 + 0.1 is above 0.1025 and the weight
    written is 0.103; 0.0025 + 0 times 1000 is 2.5 and the weight written
    is 0.002. The weights are the doubles nearest to these decimals. *)
Example merge_child_weight_in_doubles :
  exists s1 s2 w1 w2,
    merge_tie = (Ok tt, s1) /\ weight (sG s1) 0 1 = Ok w1 /\
    merge_tie_down = (Ok tt, s2) /\ weight (sG s2) 0 1 = Ok w2 /\
    1025 # 10000 < f64_sum [1 # 400; 1 # 10] /\
    w1 = Q_of_f64 (f64_of_Q (103 # 1000)) /\
    w2 = Q_of_f64 (f64_of_Q (2 # 1000)).
Proof.
  eexists. eexists. eexists. eexists.
  split; [vm_compute; reflexivity|]. split; [vm_compute; reflexivity|].
  split; [vm_compute; reflexivity|]. split; [vm_compute; reflexivity|].
  vm_compute. repeat split; reflexivity.
Qed.

Lemma reduction_tree_chain_product_witness :
  exists r s',
    @reduction_tree E_even 1000 "MAM" 25 1 (s_call H_deep H_deep) =
      (Ok r, s') /\
    mget (sPi s') 0 0 = Ok 1 /\
    exists sb,
      mget (sPi s') 3 3 =
      Ok (chain_product H_deep H_deep (sPi sb) 2 3 3).
Proof.
  destruct (@reduction_tree E_even 1000 "MAM" 25 1 (s_call H_deep H_deep))
    as [[r | e] s'] eqn:Hrun; [|vm_compute in Hrun; discriminate].
  assert (Hcov : ~ @np_sum_f64 E_even (concat (sPi (s_call H_deep H_deep))) == 0 ->
                 covers (sPi (s_call H_deep H_deep)) H_deep H_deep = true).
  { intros Hnz. exfalso. apply Hnz. reflexivity. }
  destruct (@reduction_tree_chain_product E_even 1000 "MAM"%string 25 1%Z
              (s_call H_deep H_deep) s' r eq_refl eq_refl eq_refl eq_refl
              Hcov Hrun)
    as (s1 & f & sb & _ & _ & Hroot & Hchain).
  exists r, s'. split; [reflexivity|]. split; [exact Hroot|].
  exists sb. apply (Hchain 2%Z 3%nat 3%nat).
  - vm_compute. split; discriminate.
  - simpl. auto.
  - simpl. auto.
Defined.

(** C5, as stated, fails: the candidate 2 of [H_ragged] has no child, and
    the plan returned for it, for node 1 of [G_chain], has no entry: its
    mass is 0. *)
Lemma childless_candidate_plan_without_mass :
  exists o s' P,
    run_ragged = (Ok o, s') /\
    successors H_ragged 2 = [] /\
    nth_error (out_Pi_k o) 1 = Some P /\
    P = [[]] /\
    np_sum P == 0 /\
    ~ np_sum P == 1.
Proof.
  eexists. eexists. eexists.
  split; [vm_compute; reflexivity|].
  split; [reflexivity|]. split; [reflexivity|]. split; [reflexivity|].
  split; [reflexivity|].
  intros H. vm_compute in H. discriminate.
Qed.

Lemma stabilized_plan_mass_children_witness :
  exists o s' P,
    run_one "LP" s_one_even = (Ok o, s') /\
    nth_error (out_Pi_k o) 0 = Some P /\
    np_sum P == 1.
Proof.
  destruct (run_one "LP" s_one_even) as [[o | e] s'] eqn:Hrun;
    [|vm_compute in Hrun; discriminate].
  destruct (@stabilized_plan_mass_children E_even 0 [1]%nat [1; 2]%nat
              [0]%nat "LP"%string 25 1000 (1 # 1000) 1%Z 0%nat
              s_one_even s' o ltac:(reflexivity) Hrun 0%nat 0%nat eq_refl)
    as (la & Pk & P0 & _ & _ & _ & HP & Hmass & _ & Hone).
  exists o, s', (stabilize (1 # 1000) P0).
  split; [reflexivity|]. split; [exact HP|].
  apply Hmass. apply (Hone eq_refl). discriminate.
Defined.

End PhaseExamples.
